(** * netgraph: force-directed node layout and edge routing

    A shallow embedding of the layout engine of netgraph:
    - [src/netgraph.py]: the Fruchterman-Reingold node layout
      ([_fruchterman_reingold_layout], its dense and sparse solvers and
      [_rescale_layout]);
    - [src/netgraph/_edge_layout.py]: edge routing (straight, curved and
      bundled strategies, the bundling compatibility scores, the control
      point updates);
    - [src/netgraph/_main.py]: the older straight-edge router.

    Conventions of the embedding.
    - numpy's float64 is idealised as the real numbers [R]: the statements
      are the exact-arithmetic content of the code.  Division is the total
      division of [R]; wherever a statement depends on a divisor being
      non-zero this is said explicitly.
    - A position is a pair of reals (the layout is two-dimensional), an
      (n, 2) array is a [list vec], a square matrix a [list (list R)].
    - Node identifiers are natural numbers, an edge is a pair of them.
    - A Python [dict] is an association list in insertion order, read with
      [dict_get] and written with [dict_set] (which overwrites in place).
    - Calls to [np.random.random] take the drawn numbers as an argument, a
      function from the row of the array to the pair drawn for it.
    - A Python exception is the result [None]. *)

From Stdlib Require Import Reals Lra Lia List ZArith Bool Arith.
Import ListNotations.
Open Scope R_scope.

(** ** Planar vectors and numpy reductions *)

(** A point or vector of the plane, and an (n, 2) array of them. *)
Abbreviation vec := (R * R)%type (only parsing).
Abbreviation polyline := (list (R * R)) (only parsing).
(** A square matrix. *)
Abbreviation matrix := (list (list R)) (only parsing).

Definition vzero : vec := (0, 0).
Definition vadd (a b : vec) : vec := (fst a + fst b, snd a + snd b).
Definition vsub (a b : vec) : vec := (fst a - fst b, snd a - snd b).
Definition vneg (a : vec) : vec := (- fst a, - snd a).
(** [c * a] for a scalar [c]. *)
Definition vscale (c : R) (a : vec) : vec := (c * fst a, c * snd a).
(** [a * c] for a scalar [c]. *)
Definition vtimes (a : vec) (c : R) : vec := (fst a * c, snd a * c).
(** [a / c] for a scalar [c]. *)
Definition vdiv (a : vec) (c : R) : vec := (fst a / c, snd a / c).
(** [a * b] of two arrays: numpy multiplies elementwise. *)
Definition vmul (a b : vec) : vec := (fst a * fst b, snd a * snd b).
(** [np.dot(a, b)] and [np.sum(a * b)]. *)
Definition dot (a b : vec) : R := fst a * fst b + snd a * snd b.
(** [np.linalg.norm(a)]. *)
Definition norm (a : vec) : R := sqrt (fst a * fst a + snd a * snd a).

(** [np.sum(vectors, axis=0)]. *)
Definition vsum (l : list vec) : vec := fold_right vadd vzero l.
Definition rsum (l : list R) : R := fold_right Rplus 0 l.

(** [max(l)] and [min(l)] of a non-empty sequence. *)
Definition rmax_list (l : list R) : R :=
  match l with
  | [] => 0
  | x :: tl => fold_left Rmax tl x
  end.

Definition rmin_list (l : list R) : R :=
  match l with
  | [] => 0
  | x :: tl => fold_left Rmin tl x
  end.

(** [np.where(x < lo, v, x)]. *)
Definition where_lt (x lo v : R) : R := if Rlt_dec x lo then v else x.

(** [np.clip(x, lo, None)] and [np.clip(x, None, hi)]. *)
Definition clip_lo (x lo : R) : R := Rmax x lo.
Definition clip_hi (x hi : R) : R := Rmin x hi.

(** ** Dictionaries *)

Section Dict.
Context {K V : Type} (eqb : K -> K -> bool).

Fixpoint dict_get (d : list (K * V)) (k : K) : option V :=
  match d with
  | [] => None
  | (k', v) :: tl => if eqb k k' then Some v else dict_get tl k
  end.

Fixpoint dict_set (d : list (K * V)) (k : K) (v : V) : list (K * V) :=
  match d with
  | [] => [(k, v)]
  | (k', v') :: tl =>
      if eqb k k' then (k', v) :: tl else (k', v') :: dict_set tl k v
  end.

(** [d.update(items)]. *)
Definition dict_update (d items : list (K * V)) : list (K * V) :=
  fold_left (fun acc kv => dict_set acc (fst kv) (snd kv)) items d.

Definition dict_keys (d : list (K * V)) : list K := map fst d.

Definition dict_mem (d : list (K * V)) (k : K) : bool :=
  match dict_get d k with Some _ => true | None => false end.
End Dict.

Abbreviation node := nat (only parsing).
Abbreviation edge := (nat * nat)%type (only parsing).

Definition edge_eqb (e1 e2 : edge) : bool :=
  Nat.eqb (fst e1) (fst e2) && Nat.eqb (snd e1) (snd e2).

Definition mem_nat (i : nat) (l : list nat) : bool := existsb (Nat.eqb i) l.
Definition mem_edge (e : edge) (l : list edge) : bool := existsb (edge_eqb e) l.

(** ** The Fruchterman-Reingold layout of [src/netgraph.py] *)

Module FR.

(** [A[i, j]]. *)
Definition entry (A : matrix) (i j : nat) : R := nth j (nth i A []) 0.

(** [pos[i]]. *)
Definition row (pos : list vec) (i : nat) : vec := nth i pos vzero.

Definition xs (pos : list vec) : list R := map fst pos.
Definition ys (pos : list vec) : list R := map snd pos.

(** The force factor [k * k / distance**2 - A * distance / k] of a pair
    of nodes, with [a] the adjacency entry of the pair. *)
Definition force_factor (k a distance : R) : R :=
  k * k / distance ^ 2 - a * distance / k.

(** *** [_dense_fruchterman_reingold] *)

(** [delta = pos[:, np.newaxis, :] - pos[np.newaxis, :, :]]. *)
Definition delta (pos : list vec) (i j : nat) : vec :=
  vsub (row pos i) (row pos j).

(** [distance = np.linalg.norm(delta, axis=-1)] followed by
    [np.clip(distance, 0.01, None, out=distance)]. *)
Definition dense_distance (pos : list vec) (i j : nat) : R :=
  clip_lo (norm (delta pos i j)) 0.01.

(** [np.einsum('ijk,ij->ik', delta, k*k/distance**2 - A*distance/k)],
    row [i]. *)
Definition dense_displacement (A : matrix) (k : R) (pos : list vec)
  (i : nat) : vec :=
  vsum (map (fun j =>
               vscale (force_factor k (entry A i j) (dense_distance pos i j))
                      (delta pos i j))
            (seq 0 (length pos))).

(** [length = np.linalg.norm(displacement, axis=-1)] followed by
    [length = np.where(length < 0.01, 0.1, length)]. *)
Definition dense_length (A : matrix) (k : R) (pos : list vec) (i : nat) : R :=
  where_lt (norm (dense_displacement A k pos i)) 0.01 0.1.

(** [delta_pos = np.einsum('ij,i->ij', displacement, t / length)], then
    [delta_pos[fixed] = 0.0] when [fixed] is given. *)
Definition dense_delta_pos (A : matrix) (k t : R) (fixed : option (list nat))
  (pos : list vec) (i : nat) : vec :=
  let delta_pos :=
    vscale (t / dense_length A k pos i) (dense_displacement A k pos i) in
  match fixed with
  | Some f => if mem_nat i f then vzero else delta_pos
  | None => delta_pos
  end.

(** The body of the loop: [pos += delta_pos]. *)
Definition dense_step (A : matrix) (k t : R) (fixed : option (list nat))
  (pos : list vec) : list vec :=
  map (fun i => vadd (row pos i) (dense_delta_pos A k t fixed pos i))
      (seq 0 (length pos)).

(** [for iteration in range(iterations): ...; t -= dt]. *)
Fixpoint dense_loop (iterations : nat) (A : matrix) (k dt : R)
  (fixed : option (list nat)) (t : R) (pos : list vec) : list vec :=
  match iterations with
  | O => pos
  | S n => dense_loop n A k dt fixed (t - dt) (dense_step A k t fixed pos)
  end.

(** The optimal distance [k = np.sqrt(1.0/nnodes)] when none is given. *)
Definition default_k (k : option R) (nnodes : nat) : R :=
  match k with
  | Some k => k
  | None => sqrt (1 / INR nnodes)
  end.

(** The initial temperature of the dense solver. *)
Definition dense_t0 (pos : list vec) : R :=
  Rmax (rmax_list (xs pos) - rmin_list (xs pos))
       (rmax_list (ys pos) - rmin_list (ys pos)) * 0.1.

Definition _dense_fruchterman_reingold (A : matrix) (k : option R)
  (pos : option (list vec)) (fixed : option (list nat)) (iterations : nat)
  (rnd : nat -> vec) : list vec :=
  let nnodes := length A in
  let pos := match pos with
             | None => map rnd (seq 0 nnodes)
             | Some p => p
             end in
  let k := default_k k nnodes in
  let t := dense_t0 pos in
  let dt := t / INR (iterations + 1) in
  dense_loop iterations A k dt fixed t pos.

(** *** [_sparse_fruchterman_reingold] *)

(** [distance = np.sqrt((delta**2).sum(axis=0))] followed by
    [distance = np.where(distance < 0.01, 0.01, distance)]. *)
Definition sparse_distance (pos : list vec) (i j : nat) : R :=
  let d := delta pos i j in
  where_lt (sqrt (fst d ^ 2 + snd d ^ 2)) 0.01 0.01.

(** Column [i] of [displacement] after the loop over the rows: it was
    zeroed by [displacement *= 0] and a fixed row is skipped. *)
Definition sparse_displacement (A : matrix) (k : R) (fixed : list nat)
  (pos : list vec) (i : nat) : vec :=
  if mem_nat i fixed then vzero
  else
    vadd vzero
      (vsum (map (fun j =>
                    vscale (force_factor k (entry A i j)
                              (sparse_distance pos i j))
                           (delta pos i j))
                 (seq 0 (length pos)))).

(** [length = np.sqrt((displacement**2).sum(axis=0))] followed by
    [length = np.where(length < 0.01, 0.1, length)]. *)
Definition sparse_length (A : matrix) (k : R) (fixed : list nat)
  (pos : list vec) (i : nat) : R :=
  let d := sparse_displacement A k fixed pos i in
  where_lt (sqrt (fst d ^ 2 + snd d ^ 2)) 0.01 0.1.

(** [pos += (displacement * t / length).T]. *)
Definition sparse_delta_pos (A : matrix) (k t : R) (fixed : list nat)
  (pos : list vec) (i : nat) : vec :=
  let d := sparse_displacement A k fixed pos i in
  let l := sparse_length A k fixed pos i in
  (fst d * t / l, snd d * t / l).

Definition sparse_step (A : matrix) (k t : R) (fixed : list nat)
  (pos : list vec) : list vec :=
  map (fun i => vadd (row pos i) (sparse_delta_pos A k t fixed pos i))
      (seq 0 (length pos)).

Fixpoint sparse_loop (iterations : nat) (A : matrix) (k dt : R)
  (fixed : list nat) (t : R) (pos : list vec) : list vec :=
  match iterations with
  | O => pos
  | S n => sparse_loop n A k dt fixed (t - dt) (sparse_step A k t fixed pos)
  end.

Definition _sparse_fruchterman_reingold (A : matrix) (k : option R)
  (pos : option (list vec)) (fixed : option (list nat)) (iterations : nat)
  (rnd : nat -> vec) : list vec :=
  let nnodes := length A in
  let pos := match pos with
             | None => map rnd (seq 0 nnodes)
             | Some p => p
             end in
  let fixed := match fixed with None => [] | Some f => f end in
  let k := default_k k nnodes in
  let t := 0.1 in
  let dt := t / INR (iterations + 1) in
  sparse_loop iterations A k dt fixed t pos.

(** *** [_rescale_layout] *)

(** [pos[:, i].mean()]. *)
Definition mean (l : list R) : R := rsum l / INR (length l).

(** [pos[:, i] -= pos[:, i].mean()]. *)
Definition center_axis (l : list R) : list R :=
  map (fun x => x - mean l) l.

(** [abs(pos[:, i]).max()]. *)
Definition max_abs (l : list R) : R := rmax_list (map Rabs l).

(** The largest magnitude over both axes, accumulated from [lim = 0]. *)
Definition rescale_lim (pos : list vec) : R :=
  let lim := 0 in
  let lim := Rmax (max_abs (center_axis (xs pos))) lim in
  let lim := Rmax (max_abs (center_axis (ys pos))) lim in
  lim.

Definition _rescale_layout (pos : list vec) (scale : R) : list vec :=
  let cx := center_axis (xs pos) in
  let cy := center_axis (ys pos) in
  let lim := rescale_lim pos in
  if Rlt_dec 0 lim
  then combine (map (fun x => x * (scale / lim)) cx)
               (map (fun y => y * (scale / lim)) cy)
  else combine cx cy.

(** *** [_edge_list_to_sparse_matrix] and the layout itself *)

(** [np.unique]: the sorted distinct node identifiers of the edge list. *)
Definition flatten_edges (edge_list : list edge) : list node :=
  flat_map (fun e => [fst e; snd e]) edge_list.

Definition np_unique (l : list nat) : list nat :=
  filter (fun n => mem_nat n l) (seq 0 (S (list_max l))).

(** [node_to_idx[v]]; [None] is the [KeyError]. *)
Fixpoint index_of (v : node) (nodes : list node) : option nat :=
  match nodes with
  | [] => None
  | n :: tl =>
      if Nat.eqb v n then Some O
      else match index_of v tl with Some i => Some (S i) | None => None end
  end.

Fixpoint map_option {X Y : Type} (f : X -> option Y) (l : list X)
  : option (list Y) :=
  match l with
  | [] => Some []
  | x :: tl =>
      match f x, map_option f tl with
      | Some y, Some ys => Some (y :: ys)
      | _, _ => None
      end
  end.

(** The weights handed to [coo_matrix]: all ones unless a non-empty
    weight dictionary is given. *)
Definition coo_weights (edge_list : list edge)
  (edge_weights : option (list (edge * R))) : option (list R) :=
  match edge_weights with
  | None | Some [] => Some (map (fun _ => 1) edge_list)
  | Some w => map_option (dict_get edge_eqb w) edge_list
  end.

(** The dense form of [coo_matrix((weights, (sources, targets)))]:
    entries of repeated coordinates add up. *)
Definition coo_entry (coords : list (nat * nat * R)) (i j : nat) : R :=
  rsum (map (fun c => if Nat.eqb (fst (fst c)) i && Nat.eqb (snd (fst c)) j
                      then snd c else 0) coords).

Definition _edge_list_to_sparse_matrix (edge_list : list edge)
  (edge_weights : option (list (edge * R))) : option matrix :=
  let nodes := np_unique (flatten_edges edge_list) in
  match map_option (fun e => index_of (fst e) nodes) edge_list,
        map_option (fun e => index_of (snd e) nodes) edge_list,
        coo_weights edge_list edge_weights with
  | Some sources, Some targets, Some weights =>
      let coords := combine (combine sources targets) weights in
      let total_nodes := length nodes in
      Some (map (fun i => map (fun j => coo_entry coords i j)
                              (seq 0 total_nodes))
                (seq 0 total_nodes))
  | _, _, _ => None
  end.

(** [max(coord for pos_tup in pos.values() for coord in pos_tup)], with
    0 replaced by 1. *)
Definition domain_size (pos : list (node * vec)) : R :=
  let m := rmax_list (flat_map (fun kv => [fst (snd kv); snd (snd kv)]) pos) in
  if Req_dec_T m 0 then 1 else m.

(** [pos_arr]: random positions scaled to the domain, overwritten by the
    given ones. *)
Definition initial_pos_arr (nodes : list node) (pos : list (node * vec))
  (center : vec) (rnd : nat -> vec) : list vec :=
  map (fun i =>
         match dict_get Nat.eqb pos (nth i nodes O) with
         | Some p => p
         | None => vadd (vtimes (rnd i) (domain_size pos)) center
         end)
      (seq 0 (length nodes)).

(** [fixed = np.asarray([node_to_idx[v] for v in fixed])]; a fixed node
    that is no node of the edge list is a [KeyError]. *)
Definition fixed_indices (nodes : list node) (fixed : option (list node))
  : option (option (list nat)) :=
  match fixed with
  | Some f =>
      match map_option (fun v => index_of v nodes) f with
      | Some idx => Some (Some idx)
      | None => None
      end
  | None => Some None
  end.

(** The spring constant handed to the solver.  The maximum of an empty
    position dictionary is a [ValueError]; [domain_size] is not bound (a
    [NameError]) when [k] and [pos] are [None] and [fixed] is not. *)
Definition layout_k (k : option R) (pos : option (list (node * vec)))
  (fixed : option (list node)) (total_nodes : nat) : option (option R) :=
  match pos, k, fixed with
  | Some [], _, _ => None
  | Some p, None, Some _ => Some (Some (domain_size p / sqrt (INR total_nodes)))
  | None, None, Some _ => None
  | _, _, _ => Some k
  end.

(** The positions before the final rescaling, together with the node
    list: everything up to and including the call of a solver. *)
Definition solve (edge_list : list edge)
  (edge_weights : option (list (edge * R))) (k : option R)
  (pos : option (list (node * vec))) (fixed : option (list node))
  (iterations : nat) (center : vec) (rnd : nat -> vec)
  : option (list node * list vec) :=
  let nodes := np_unique (flatten_edges edge_list) in
  let total_nodes := length nodes in
  match fixed_indices nodes fixed with
  | None => None
  | Some fixed_idx =>
      let pos_arr :=
        match pos with
        | Some p => Some (initial_pos_arr nodes p center rnd)
        | None => None
        end in
      match layout_k k pos fixed total_nodes with
      | None => None
      | Some k =>
          match _edge_list_to_sparse_matrix edge_list edge_weights with
          | None => None
          | Some A =>
              Some (nodes,
                    if Nat.ltb 500 total_nodes
                    then _sparse_fruchterman_reingold
                           A k pos_arr fixed_idx iterations rnd
                    else _dense_fruchterman_reingold
                           A k pos_arr fixed_idx iterations rnd)
          end
      end
  end.

Definition _fruchterman_reingold_layout (edge_list : list edge)
  (edge_weights : option (list (edge * R))) (k : option R)
  (pos : option (list (node * vec))) (fixed : option (list node))
  (iterations : nat) (scale : R) (center : vec) (rnd : nat -> vec)
  : option (list (node * vec)) :=
  match solve edge_list edge_weights k pos fixed iterations center rnd with
  | None => None
  | Some (nodes, pos) =>
      let pos :=
        match fixed with
        | None => map (fun p => vadd p center) (_rescale_layout pos scale)
        | Some _ => pos
        end in
      Some (combine nodes pos)
  end.

End FR.


(** ** The older straight-edge router of [src/netgraph/_main.py] *)

Module Main.

(** The text of the warning names the ignored edge. *)
Inductive warning : Type :=
| SelfloopIgnored (e : edge).

(** [_shift_edge]: the parallel of a segment at distance [delta]. *)
Definition _shift_edge (x1 y1 x2 y2 delta : R) : R * R * R * R :=
  let v := (x2 - x1, y2 - y1) in
  let v := (- snd v, fst v) in
  let v := vdiv v (norm v) in
  let '(dx, dy) := vscale delta v in
  (x1 + dx, y1 + dy, x2 + dx, y2 + dy).

(** One turn of the loop of [_get_straight_edge_paths]. *)
Definition straight_edge_step (edge_list : list edge)
  (node_positions : node -> vec) (edge_width : edge -> R)
  (acc : list (edge * polyline) * list warning) (e : edge)
  : list (edge * polyline) * list warning :=
  let '(edge_paths, warnings) := acc in
  let '(source, target) := e in
  if Nat.eqb source target
  then (edge_paths, warnings ++ [SelfloopIgnored e])
  else
    let '(x1, y1) := node_positions source in
    let '(x2, y2) := node_positions target in
    let '(x1, y1, x2, y2) :=
      if mem_edge (target, source) edge_list
      then _shift_edge x1 y1 x2 y2 (-0.5 * edge_width (source, target))
      else (x1, y1, x2, y2) in
    (dict_set edge_eqb edge_paths (source, target) [(x1, y1); (x2, y2)],
     warnings).

Definition _get_straight_edge_paths (edge_list : list edge)
  (node_positions : node -> vec) (edge_width : edge -> R)
  : list (edge * polyline) * list warning :=
  fold_left (straight_edge_step edge_list node_positions edge_width)
            edge_list ([], []).

End Main.

(** ** Edge routing: [src/netgraph/_edge_layout.py] *)

Module EdgeLayout.

Inductive warning : Type :=
| SelfloopBundlingUnsupported.

(** An argument that is either one number or a dictionary of numbers. *)
Inductive numeric_arg : Type :=
| Scalar (x : R)
| PerEdge (d : list (edge * R)).

Definition adjacency : Type := list (node * list node).

Definition is_selfloop (e : edge) : bool := Nat.eqb (fst e) (snd e).

(** [[(source, target) for (source, target) in edges if source != target]]
    and its complement. *)
Definition nonloops_of (edges : list edge) : list edge :=
  filter (fun e => negb (is_selfloop e)) edges.
Definition selfloops_of (edges : list edge) : list edge :=
  filter is_selfloop edges.

Definition map2 {X Y Z : Type} (f : X -> Y -> Z) (l1 : list X) (l2 : list Y)
  : list Z :=
  map (fun p => f (fst p) (snd p)) (combine l1 l2).

(** [d[k]] where the key is present by construction. *)
Definition dict_at {V : Type} (d : list (edge * V)) (k : edge) (default : V)
  : V :=
  match dict_get edge_eqb d k with Some v => v | None => default end.

(** [np.linspace(start, stop, num)]. *)
Definition linspace (start stop : R) (num : nat) : list R :=
  map (fun j => start + INR j * ((stop - start) / INR (num - 1))) (seq 0 num).

(** [l[1:-1]]. *)
Definition interior {X : Type} (l : list X) : list X := removelast (tl l).

(** [int(x)]: truncation towards zero. *)
Definition py_int (x : R) : Z :=
  if Rle_dec 0 x then Zfloor x else (- Zfloor (- x))%Z.

(** [itertools.combinations(l, 2)]. *)
Fixpoint combinations2 {X : Type} (l : list X) : list (X * X) :=
  match l with
  | [] => []
  | x :: tl => map (fun y => (x, y)) tl ++ combinations2 tl
  end.

(** *** Segments and the compatibility scores of edge bundling *)

Record Segment : Type := {
  p0 : vec;
  p1 : vec;
  vector : vec;
  length : R;
  unit_vector : vec;
  midpoint : vec
}.

(** [Segment.__init__]. *)
Definition mkSegment (p0 p1 : vec) : Segment :=
  let vector := vsub p1 p0 in
  let length := norm vector in
  {| p0 := p0;
     p1 := p1;
     vector := vector;
     length := length;
     unit_vector := vdiv vector length;
     midpoint := vmul (vtimes p0 0.5) vector |}.

(** [Segment.get_orthogonal_projection_onto_segment]. *)
Definition get_orthogonal_projection_onto_segment (S : Segment) (point : vec)
  : vec :=
  let t := dot (vsub point (p0 S)) (vector S) / length S ^ 2 in
  vadd (p0 S) (vscale t (vector S)).

(** [np.clip(x, lo, hi)]. *)
Definition clip (x lo hi : R) : R := Rmin (Rmax x lo) hi.

Definition _get_angle_compatibility (P Q : Segment) : R :=
  Rabs (clip (dot (unit_vector P) (unit_vector Q)) (-1) 1).

Definition _get_scale_compatibility (P Q : Segment) : R :=
  let avg := 0.5 * (length P + length Q) in
  2 / (avg / Rmin (length P) (length Q) + Rmax (length P) (length Q) / avg).

Definition _get_position_compatibility (P Q : Segment) : R :=
  let avg := 0.5 * (length P + length Q) in
  let distance_between_midpoints := norm (vsub (midpoint Q) (midpoint P)) in
  avg / (avg + distance_between_midpoints).

(** The segment [I] of [_get_visibility]: the projection of [Q] onto the
    line of [P]. *)
Definition projected_interval (P Q : Segment) : Segment :=
  let I0 := get_orthogonal_projection_onto_segment P (p0 Q) in
  let I1 := get_orthogonal_projection_onto_segment P (p1 Q) in
  mkSegment I0 I1.

Definition _get_visibility (P Q : Segment) : R :=
  let I := projected_interval P Q in
  let distance_between_midpoints := norm (vsub (midpoint P) (midpoint I)) in
  let visibility := 1 - 2 * distance_between_midpoints / length I in
  Rmax visibility 0.

(** The position compatibility as the specification words it, to be
    compared with [_get_position_compatibility]: [avg / (avg + d)] with [d]
    the distance between the geometric midpoints of the segments. *)
Definition geometric_midpoint (p0 p1 : vec) : vec :=
  vadd p0 (vscale 0.5 (vsub p1 p0)).

Definition position_compatibility_spec (p0 p1 q0 q1 : vec) : R :=
  let avg := 0.5 * (norm (vsub p1 p0) + norm (vsub q1 q0)) in
  avg / (avg + norm (vsub (geometric_midpoint q0 q1)
                          (geometric_midpoint p0 p1))).

(** A divisor is protected when a positive floor bounds it from below. *)
Definition floored (divisor : R) : Prop :=
  exists floor, 0 < floor /\ floor <= divisor.

Definition _get_visibility_compatibility (P Q : Segment) : R :=
  Rmin (_get_visibility P Q) (_get_visibility Q P).

(** The score of one pair in [_get_edge_compatibility]: the running
    product, abandoned ([None], the [continue]) as soon as it falls below
    the threshold. *)
Definition pair_compatibility (threshold : R) (P Q : Segment) : option R :=
  let compatibility := 1 in
  let compatibility := compatibility * _get_scale_compatibility P Q in
  if Rlt_dec compatibility threshold then None else
  let compatibility := compatibility * _get_position_compatibility P Q in
  if Rlt_dec compatibility threshold then None else
  let compatibility := compatibility * _get_angle_compatibility P Q in
  if Rlt_dec compatibility threshold then None else
  let compatibility := compatibility * _get_visibility_compatibility P Q in
  if Rlt_dec compatibility threshold then None else
  Some compatibility.

(** Whether one of the two chains has to be read backwards. *)
Definition pair_reverse (P Q : Segment) : bool :=
  if Rlt_dec (Rmin (norm (vsub (p0 P) (p1 Q))) (norm (vsub (p1 P) (p0 Q))))
             (Rmin (norm (vsub (p0 P) (p0 Q))) (norm (vsub (p1 P) (p1 Q))))
  then true else false.

Definition _get_edge_compatibility (edges : list edge)
  (node_positions : node -> vec) (threshold : R)
  : list (edge * edge * R * bool) :=
  let edge_to_segment e :=
    mkSegment (node_positions (fst e)) (node_positions (snd e)) in
  flat_map (fun ee =>
              let P := edge_to_segment (fst ee) in
              let Q := edge_to_segment (snd ee) in
              match pair_compatibility threshold P Q with
              | None => []
              | Some compatibility =>
                  [(fst ee, snd ee, compatibility, pair_reverse P Q)]
              end)
           (combinations2 edges).

(** *** The force iteration of edge bundling *)

Definition _get_k (edges : list edge) (node_positions : node -> vec) (k : R)
  : list (edge * R) :=
  fold_left (fun d e =>
               dict_set edge_eqb d e
                 (k / norm (vsub (node_positions (snd e))
                                 (node_positions (fst e)))))
            edges [].

Definition _initialize_bundled_control_points (edges : list edge)
  (node_positions : node -> vec) : list (edge * polyline) :=
  fold_left (fun d e =>
               dict_set edge_eqb d e
                 [node_positions (fst e); node_positions (snd e)])
            edges [].

(** The new chain of [_expand_control_points]: the old points at the even
    places, the midpoints of neighbours at the odd ones.  (A chain has at
    least two points.) *)
Definition expand_chain (control_points_old : polyline) : polyline :=
  let total_control_points_old := List.length control_points_old in
  let total_control_points_new := (2 * (total_control_points_old - 1) + 1)%nat in
  map (fun ii =>
         if Nat.even ii
         then nth (ii / 2) control_points_old vzero
         else
           let p1 := nth ((ii - 1) / 2) control_points_old vzero in
           let p2 := nth ((ii + 1) / 2) control_points_old vzero in
           vadd (vscale 0.5 (vsub p2 p1)) p1)
      (seq 0 total_control_points_new).

Definition _expand_control_points (edge_to_control_points : list (edge * polyline))
  : list (edge * polyline) :=
  map (fun kv => (fst kv, expand_chain (snd kv))) edge_to_control_points.

(** [np.diff(control_points, axis=0)]. *)
Definition np_diff (l : polyline) : polyline :=
  map (fun i => vsub (nth (S i) l vzero) (nth i l vzero))
      (seq 0 (List.length l - 1)).

(** [delta] of [_get_Fs]: zero at both ends,
    [- diff[i-1] + diff[i]] in between. *)
Definition spring_delta (control_points : polyline) : polyline :=
  let diff := np_diff control_points in
  map (fun i =>
         if Nat.leb 1 i && Nat.ltb i (List.length control_points - 1)
         then vadd (vsub vzero (nth (i - 1) diff vzero)) (nth i diff vzero)
         else vzero)
      (seq 0 (List.length control_points)).

Definition _get_Fs (edge_to_control_points : list (edge * polyline))
  (k : list (edge * R)) : list (edge * polyline) :=
  map (fun kv =>
         let kp := dict_at k (fst kv) 0 / INR (List.length (snd kv) - 1) in
         (fst kv, map (vscale kp) (spring_delta (snd kv))))
      edge_to_control_points.

(** [displacement[0] = 0; displacement[-1] = 0]. *)
Definition zero_ends (displacement : polyline) : polyline :=
  map (fun i =>
         if Nat.eqb i 0 || Nat.eqb i (List.length displacement - 1)
         then vzero else nth i displacement vzero)
      (seq 0 (List.length displacement)).

(** The [displacement] of one compatible pair in [_get_Fe]. *)
Definition electrostatic_displacement (compatibility : R) (reverse : bool)
  (P Q : polyline) : polyline :=
  let delta := if reverse then map2 vsub (rev Q) P else map2 vsub Q P in
  let displacement :=
    map (fun d => vdiv (vscale compatibility d) (fst d ^ 2 + snd d ^ 2)) delta in
  zero_ends displacement.

Definition _get_Fe (edge_to_control_points : list (edge * polyline))
  (edge_compatibility : list (edge * edge * R * bool))
  (out : list (edge * polyline)) : list (edge * polyline) :=
  fold_left (fun out c =>
               let '(e1, e2, compatibility, reverse) := c in
               let P := dict_at edge_to_control_points e1 [] in
               let Q := dict_at edge_to_control_points e2 [] in
               let displacement :=
                 electrostatic_displacement compatibility reverse P Q in
               let out :=
                 dict_set edge_eqb out e1
                   (map2 vadd (dict_at out e1 []) displacement) in
               dict_set edge_eqb out e2
                 (map2 vsub (dict_at out e2 [])
                    (if reverse then rev displacement else displacement)))
            edge_compatibility out.

(** [np.linalg.norm] of an (n, 2) array: the Frobenius norm. *)
Definition frobenius (a : polyline) : R :=
  sqrt (rsum (map (fun p => fst p * fst p + snd p * snd p) a)).

(** The divisor in [_update_control_point_positions]. *)
Definition displacement_length (displacement : polyline) : R :=
  clip_lo (frobenius displacement) 1e-12.

(** The step applied to one chain. *)
Definition clamped_displacement (displacement : polyline) (step_size : R) : polyline :=
  let displacement_length := displacement_length displacement in
  map (fun p => vtimes (vdiv p displacement_length)
                       (clip_hi displacement_length step_size))
      displacement.

Definition _update_control_point_positions
  (edge_to_control_points F : list (edge * polyline)) (step_size : R)
  : list (edge * polyline) :=
  fold_left (fun e2cp kv =>
               dict_set edge_eqb e2cp (fst kv)
                 (map2 vadd (dict_at e2cp (fst kv) [])
                            (clamped_displacement (snd kv) step_size)))
            F edge_to_control_points.

(** The inner loop [for _ in range(total_iterations)]. *)
Fixpoint bundle_iterations (total_iterations : nat)
  (edge_to_k : list (edge * R))
  (edge_compatibility : list (edge * edge * R * bool)) (step_size : R)
  (edge_to_control_points : list (edge * polyline)) : list (edge * polyline) :=
  match total_iterations with
  | O => edge_to_control_points
  | S n =>
      let F := _get_Fs edge_to_control_points edge_to_k in
      let F := _get_Fe edge_to_control_points edge_compatibility F in
      bundle_iterations n edge_to_k edge_compatibility step_size
        (_update_control_point_positions edge_to_control_points F step_size)
  end.

(** The outer loop [for _ in range(total_cycles)]; [int(2/3 * n)] is the
    integer quotient of [2 * n] by 3. *)
Fixpoint bundle_cycles (total_cycles : nat) (edge_to_k : list (edge * R))
  (edge_compatibility : list (edge * edge * R * bool))
  (total_iterations : nat) (step_size : R)
  (edge_to_control_points : list (edge * polyline)) : list (edge * polyline) :=
  match total_cycles with
  | O => edge_to_control_points
  | S n =>
      let edge_to_control_points :=
        _expand_control_points edge_to_control_points in
      let edge_to_control_points :=
        bundle_iterations total_iterations edge_to_k edge_compatibility
          step_size edge_to_control_points in
      bundle_cycles n edge_to_k edge_compatibility
        (2 * total_iterations / 3)%nat (step_size / 2) edge_to_control_points
  end.

Definition _straighten_path (path : polyline) (straighten_by : R) : polyline :=
  let p0 := nth 0 path vzero in
  let p1 := last path vzero in
  let n := List.length path in
  map2 (fun p f =>
          vadd (vscale (1 - straighten_by) p)
               (vscale straighten_by (vadd p0 (vscale f (vsub p1 p0)))))
       path (linspace 0 1 n).

Definition _straighten_edges (edge_to_path : list (edge * polyline))
  (straighten_by : R) : list (edge * polyline) :=
  map (fun kv => (fst kv, _straighten_path (snd kv) straighten_by))
      edge_to_path.


(** *** Control points of curved edges *)

(** The number of control points of an edge in
    [_initialize_nonloop_control_points]. *)
Definition total_control_points (node_positions : node -> vec) (scale : vec)
  (e : edge) : Z :=
  let edge_length :=
    norm (vsub (node_positions (snd e)) (node_positions (fst e)))
    / norm scale in
  Z.min (Z.max (py_int (edge_length * 10)) 1) 5.

(** [uuid4()] is a supply of fresh identifiers: the next unused number is
    threaded through. *)
Definition _initialize_nonloop_control_points (edges : list edge)
  (node_positions : node -> vec) (scale : vec) (next : nat)
  : list (edge * list nat) * nat :=
  fold_left (fun acc e =>
               let n := Z.to_nat (total_control_points node_positions scale e) in
               (dict_set edge_eqb (fst acc) e (seq (snd acc) n),
                (snd acc + n)%nat))
            edges ([], next).

(** *** Functions that call helpers of [netgraph/_utils.py] or of scipy

    The helpers are not part of the sources: the functions below take
    them as parameters. *)

Section Helpers.

(** Helpers of [_utils]. *)
Variable _get_orthogonal_unit_vector : vec -> vec.
Variable _get_unit_vector : vec -> vec.
Variable _get_angle : R -> R -> R.
Variable _get_n_points_on_a_circle : vec -> R -> nat -> R -> polyline.
Variable _resample_spline : polyline -> nat -> polyline.
Variable _get_optimal_offsets : list vec -> list R -> list vec -> list vec.
Variable _normalize_numeric_argument :
  numeric_arg -> list edge -> option (list (edge * R)).
Variable _edge_list_to_adjacency_list : list edge -> bool -> adjacency.
Variable _get_connected_components : adjacency -> list (list node).
(** [UnivariateSpline(x, y, k=..., s=...)] of scipy, as the function that
    evaluates the fitted spline. *)
Variable UnivariateSpline : list R -> list R -> nat -> R -> R -> R.

(** The seeds of the control points of one edge in
    [_initialize_nonloop_control_point_positions]: [positions], shifted
    sideways when the edges are not bundled and the reverse edge is there. *)
Definition seed_positions (edge_to_control_points : list (edge * list nat))
  (node_positions : node -> vec) (bundle_parallel_edges : bool)
  (e : edge) (control_points : list nat) : polyline :=
  let '(source, target) := e in
  let delta := vsub (node_positions target) (node_positions source) in
  let fraction := interior (linspace 0 1 (List.length control_points + 2)) in
  let positions :=
    map (fun f => vadd (vscale f delta) (node_positions source)) fraction in
  if negb bundle_parallel_edges
     && dict_mem edge_eqb edge_to_control_points (target, source)
  then
    let offset :=
      vscale (1e-3 * norm delta) (_get_orthogonal_unit_vector delta) in
    map (fun p => vsub p offset) positions
  else positions.

Definition _initialize_nonloop_control_point_positions
  (edge_to_control_points : list (edge * list nat))
  (node_positions : node -> vec) (bundle_parallel_edges : bool)
  : list (nat * vec) :=
  fold_left (fun control_point_positions kv =>
               dict_update Nat.eqb control_point_positions
                 (combine (snd kv)
                    (seed_positions edge_to_control_points node_positions
                       bundle_parallel_edges (fst kv) (snd kv))))
            edge_to_control_points [].

(** *** Straight edges *)

Definition _get_straight_nonloop_edge_paths (edges : list edge)
  (node_positions : node -> vec) : list (edge * polyline) :=
  fold_left (fun edge_paths e =>
               let '(x1, y1) := node_positions (fst e) in
               let '(x2, y2) := node_positions (snd e) in
               dict_set edge_eqb edge_paths e [(x1, y1); (x2, y2)])
            edges [].

Definition _get_selfloop_path (source_position : vec) (radius angle : R)
  (total_points : nat) : polyline :=
  let unit_vector := _get_unit_vector (cos angle, sin angle) in
  let center := vadd source_position (vscale radius unit_vector) in
  tl (_get_n_points_on_a_circle center radius (total_points + 1)
        (_get_angle (fst unit_vector) (snd unit_vector) + PI)).

(** A missing radius or angle is a [KeyError]. *)
Definition _get_straight_selfloop_edge_paths (edges : list edge)
  (node_positions : node -> vec) (selfloop_radius selfloop_angle
                                  : list (edge * R))
  (total_points : nat) : option (list (edge * polyline)) :=
  fold_left (fun acc e =>
               match acc, dict_get edge_eqb selfloop_radius e,
                     dict_get edge_eqb selfloop_angle e with
               | Some edge_paths, Some radius, Some angle =>
                   Some (dict_set edge_eqb edge_paths e
                           (_get_selfloop_path (node_positions (fst e))
                              radius angle total_points))
               | _, _, _ => None
               end)
            edges (Some []).

(** [np.concatenate] of an empty list of arrays is a [ValueError]. *)
Definition _get_optimal_selfloop_angles (selfloops : list edge)
  (selfloop_radius : list (edge * R)) (node_positions : node -> vec)
  (edge_paths : list (edge * polyline)) (total_samples_per_edge : nat)
  : option (list (edge * R)) :=
  let anchors := map (fun e => node_positions (fst e)) selfloops in
  match FR.map_option (dict_get edge_eqb selfloop_radius) selfloops with
  | None => None
  | Some offsets =>
      match edge_paths with
      | [] => None
      | _ =>
          let avoid :=
            flat_map (fun kv => _resample_spline (snd kv)
                                  total_samples_per_edge) edge_paths in
          let selfloop_centers := _get_optimal_offsets anchors offsets avoid in
          let selfloop_angles :=
            map (fun c => _get_angle (fst c) (snd c)) selfloop_centers in
          Some (dict_update edge_eqb [] (combine selfloops selfloop_angles))
      end
  end.

(** [get_straight_edge_paths]; the function issues no warning, the list
    of warnings it surfaces is empty. *)
Definition get_straight_edge_paths (edges : list edge)
  (node_positions : node -> vec) (selfloop_radius : numeric_arg)
  (selfloop_angle : option numeric_arg)
  : option (list (edge * polyline) * list warning) :=
  let edge_paths := [] in
  let nonloops := nonloops_of edges in
  let nonloop_edge_paths :=
    _get_straight_nonloop_edge_paths nonloops node_positions in
  let edge_paths := dict_update edge_eqb edge_paths nonloop_edge_paths in
  let selfloops := selfloops_of edges in
  match selfloops with
  | [] => Some (edge_paths, [])
  | _ =>
      match _normalize_numeric_argument selfloop_radius selfloops with
      | None => None
      | Some selfloop_radius =>
          match (match selfloop_angle with
                 | Some a => _normalize_numeric_argument a selfloops
                 | None =>
                     _get_optimal_selfloop_angles selfloops selfloop_radius
                       node_positions nonloop_edge_paths 100
                 end) with
          | None => None
          | Some selfloop_angle =>
              match _get_straight_selfloop_edge_paths selfloops
                      node_positions selfloop_radius selfloop_angle 100 with
              | None => None
              | Some selfloop_edge_paths =>
                  Some (dict_update edge_eqb edge_paths selfloop_edge_paths,
                        [])
              end
          end
      end
  end.

(** *** Bundled edges *)

(** [np.cumsum]. *)
Fixpoint cumsum_from (acc : R) (l : list R) : list R :=
  match l with
  | [] => []
  | x :: tl => (acc + x) :: cumsum_from (acc + x) tl
  end.

Definition _smooth_path (path : polyline) : polyline :=
  let distance := cumsum_from 0 (map norm (np_diff path)) in
  let distance :=
    map (fun d => d / last distance 0) (0 :: distance) in
  let splines :=
    (UnivariateSpline distance (map fst path) 3 0.001,
     UnivariateSpline distance (map snd path) 3 0.001) in
  let alpha := linspace 0 1 100 in
  map (fun a => (fst splines a, snd splines a)) alpha.

Definition _smooth_edges (edge_to_path : list (edge * polyline))
  : list (edge * polyline) :=
  map (fun kv => (fst kv, _smooth_path (snd kv))) edge_to_path.

(** The canonical directions kept for the optimisation: an edge is kept
    unless its reverse was kept before it.  (Python keeps them in a set;
    the embedding lists them in the order of arrival.) *)
Definition unidirectional_of (edges : list edge) : list edge :=
  fold_left (fun unidirectional_edges e =>
               if mem_edge (snd e, fst e) unidirectional_edges
               then unidirectional_edges
               else if mem_edge e unidirectional_edges
                    then unidirectional_edges
                    else unidirectional_edges ++ [e])
            edges [].

(** [set(edges)], listed in the order of last occurrence. *)
Fixpoint distinct (l : list edge) : list edge :=
  match l with
  | [] => []
  | e :: tl => if mem_edge e tl then distinct tl else e :: distinct tl
  end.

(** [list(set(edges) - unidirectional_edges)]. *)
Definition reverse_of (edges unidirectional_edges : list edge) : list edge :=
  filter (fun e => negb (mem_edge e unidirectional_edges)) (distinct edges).

(** The body of [get_bundled_edge_paths]. *)
Definition bundled_edge_paths (edges : list edge)
  (node_positions : node -> vec) (k compatibility_threshold : R)
  (total_cycles total_iterations : nat) (step_size straighten_by : R)
  : list (edge * polyline) * list warning :=
  let warnings :=
    if existsb is_selfloop edges then [SelfloopBundlingUnsupported] else [] in
  let edges := if existsb is_selfloop edges then nonloops_of edges else edges in
  let unidirectional_edges := unidirectional_of edges in
  let reverse_edges := reverse_of edges unidirectional_edges in
  let edges := unidirectional_edges in
  let edge_to_k := _get_k edges node_positions k in
  let edge_compatibility :=
    _get_edge_compatibility edges node_positions compatibility_threshold in
  let edge_to_control_points :=
    _initialize_bundled_control_points edges node_positions in
  let edge_to_control_points :=
    bundle_cycles total_cycles edge_to_k edge_compatibility total_iterations
      step_size edge_to_control_points in
  let edge_to_control_points :=
    if Rlt_dec 0 straighten_by
    then _straighten_edges edge_to_control_points straighten_by
    else edge_to_control_points in
  let edge_to_control_points := _smooth_edges edge_to_control_points in
  let edge_to_control_points :=
    fold_left (fun d e =>
                 dict_set edge_eqb d e
                   (rev (dict_at d (snd e, fst e) [])))
              reverse_edges edge_to_control_points in
  (edge_to_control_points, warnings).

(** [_get_layout_for_multiple_components], for the bundled layout. *)
Definition _get_layout_for_multiple_components (edges : list edge)
  (node_positions : node -> vec) (components : list (list node))
  (layout_function :
     list edge -> (node -> vec) -> list (edge * polyline) * list warning)
  : list (edge * polyline) * list warning :=
  fold_left (fun acc component =>
               let component_edges :=
                 filter (fun e => mem_nat (fst e) component
                                  && mem_nat (snd e) component) edges in
               let r := layout_function component_edges node_positions in
               (dict_update edge_eqb (fst acc) (fst r), snd acc ++ snd r))
            components ([], []).

(** [get_bundled_edge_paths], with its decorator
    [_handle_multiple_components]. *)
Definition get_bundled_edge_paths (edges : list edge)
  (node_positions : node -> vec) (k compatibility_threshold : R)
  (total_cycles total_iterations : nat) (step_size straighten_by : R)
  : list (edge * polyline) * list warning :=
  let layout_function edges node_positions :=
    bundled_edge_paths edges node_positions k compatibility_threshold
      total_cycles total_iterations step_size straighten_by in
  let adjacency_list := _edge_list_to_adjacency_list edges false in
  let components := _get_connected_components adjacency_list in
  if Nat.ltb 1 (List.length components)
  then _get_layout_for_multiple_components edges node_positions components
         layout_function
  else layout_function edges node_positions.

End Helpers.

End EdgeLayout.

(** ** Models of the helpers that are not part of the sources

    The theorems on [EdgeLayout] hold for any helpers.  The definitions
    below instantiate them where a statement is made at a concrete input. *)

Module UtilsModel.

Import EdgeLayout.

(** Modelled from the spec: [_get_unit_vector] of [_utils], the vector
    divided by its length. *)
Definition get_unit_vector (v : vec) : vec := vdiv v (norm v).

(** Modelled from the spec: [_get_orthogonal_unit_vector] of [_utils], "the
    perpendicular unit vector"; the quarter turn is the one [_shift_edge]
    makes. *)
Definition get_orthogonal_unit_vector (v : vec) : vec :=
  vdiv (- snd v, fst v) (norm (- snd v, fst v)).

(** Modelled from the spec: [_get_angle] of [_utils], the direction of the
    vector [(dx, dy)] in radians. *)
Definition get_angle (dx dy : R) : R :=
  if Rlt_dec 0 dx then atan (dy / dx)
  else if Rlt_dec dx 0
       then (if Rle_dec 0 dy then atan (dy / dx) + PI else atan (dy / dx) - PI)
       else if Rlt_dec 0 dy then PI / 2
            else if Rlt_dec dy 0 then - (PI / 2) else 0.

(** Modelled from the spec: [_get_n_points_on_a_circle] of [_utils], [n]
    points at equal angles on "a circle of configurable radius", "anchored
    on a configurable starting angle". *)
Definition get_n_points_on_a_circle (xy : vec) (radius : R) (n : nat)
  (start_angle : R) : polyline :=
  map (fun i =>
         let angle := start_angle + INR i * (2 * PI / INR n) in
         vadd xy (vscale radius (cos angle, sin angle)))
      (seq 0 n).

(** Modelled from the spec: [_resample_spline] of [_utils], "sample points
    along" a path: [total_points] points at equal steps along the
    polyline. *)
Definition resample_spline (path : polyline) (total_points : nat) : polyline :=
  map (fun u =>
         let x := u * INR (List.length path - 1) in
         let i := Z.to_nat (Zfloor x) in
         let here := nth i path vzero in
         let there := nth (S i) path (last path vzero) in
         vadd here (vscale (x - IZR (Zfloor x)) (vsub there here)))
      (linspace 0 1 total_points).

(** Modelled from the spec: [_get_optimal_offsets] of [_utils], "choose,
    from a discretized candidate set, the angle whose resulting loop center
    is farthest from those sampled points". *)
Definition get_optimal_offsets (total_queries : nat) (anchors : list vec)
  (offsets : list R) (avoid : list vec) : list vec :=
  map2 (fun anchor offset =>
          let nearest o :=
            rmin_list (map (fun q => norm (vsub (vadd anchor o) q)) avoid) in
          let candidates :=
            get_n_points_on_a_circle vzero offset total_queries 0 in
          fold_left (fun best o =>
                       if Rlt_dec (nearest best) (nearest o) then o else best)
                    (tl candidates) (hd vzero candidates))
       anchors offsets.

(** [_normalize_numeric_argument], after the method of the same name in
    [_main.py]: a number stands for every key, a dictionary has to cover
    the keys. *)
Definition normalize_numeric_argument (numeric_or_dict : numeric_arg)
  (dict_keys : list edge) : option (list (edge * R)) :=
  match numeric_or_dict with
  | Scalar x => Some (fold_left (fun d key => dict_set edge_eqb d key x)
                                dict_keys [])
  | PerEdge d =>
      if forallb (dict_mem edge_eqb d) dict_keys then Some d else None
  end.

(** Modelled from the spec: [_edge_list_to_adjacency_list] of [_utils], the
    neighbours of every node, in both directions unless [directed]. *)
Definition edge_list_to_adjacency_list (edges : list edge) (directed : bool)
  : adjacency :=
  let nodes := FR.np_unique (FR.flatten_edges edges) in
  map (fun v =>
         (v, flat_map (fun e =>
                         (if Nat.eqb (fst e) v then [snd e] else [])
                         ++ (if negb directed && Nat.eqb (snd e) v
                             then [fst e] else []))
                      edges))
      nodes.

(** Modelled from the spec: [_get_connected_components] of [_utils], the
    connected components of "the induced undirected graph". *)
Fixpoint reachable (fuel : nat) (adj : adjacency) (seen : list node)
  : list node :=
  match fuel with
  | O => seen
  | S n =>
      reachable n adj
        (fold_left (fun acc w => if mem_nat w acc then acc else acc ++ [w])
           (flat_map (fun v => match dict_get Nat.eqb adj v with
                               | Some ws => ws
                               | None => []
                               end) seen)
           seen)
  end.

Fixpoint components_from (adj : adjacency) (nodes seen : list node)
  : list (list node) :=
  match nodes with
  | [] => []
  | v :: tl =>
      if mem_nat v seen then components_from adj tl seen
      else
        let c := reachable (List.length adj) adj [v] in
        c :: components_from adj tl (c ++ seen)
  end.

Definition get_connected_components (adj : adjacency) : list (list node) :=
  components_from adj (map fst adj) [].

(** A stand-in for the spline fit of scipy, which is outside the
    repository: the chord from the first to the last data value. *)
Definition chord (x y : list R) (k : nat) (s : R) (a : R) : R :=
  hd 0 y + a * (last y 0 - hd 0 y).

End UtilsModel.

(** ** Inputs and predicates of the statements *)

Module SolverInput.

(** One edge from node 0 to node 1, the nodes two units apart. *)
Definition A : matrix := [[0; 1]; [0; 0]].
Definition pos : list vec := [(0, 0); (2, 0)].

End SolverInput.

Module Predicates.

(** The identifiers of the control points of a dictionary. *)
Definition ids (d : list (edge * list nat)) : list nat := flat_map snd d.

(** A property of every entry of a dictionary of edges. *)
Definition entries_satisfy {V : Type} (P : edge -> V -> Prop)
  (d : list (edge * V)) : Prop :=
  Forall (fun kv => P (fst kv) (snd kv)) d.

(** The keys of the dictionary are the edges of the list. *)
Definition keys_are (edges : list edge) (d : list (edge * polyline)) : Prop :=
  forall k, dict_mem edge_eqb d k = mem_edge k edges.

(** The edge is one of the two of a scored pair. *)
Definition touches (k : edge) (c : edge * edge * R * bool) : bool :=
  edge_eqb k (fst (fst (fst c))) || edge_eqb k (snd (fst (fst c))).

(** The edges within a component, as [_get_layout_for_multiple_components]
    selects them. *)
Definition component_edges (edges : list edge) (component : list node)
  : list edge :=
  filter (fun e => mem_nat (fst e) component && mem_nat (snd e) component)
         edges.

(** The unit normal of [_shift_edge]. *)
Definition unit_normal (v : vec) : vec :=
  vdiv (- snd v, fst v) (norm (- snd v, fst v)).

(** The path that one turn of the loop of [_get_straight_edge_paths] in
    [_main.py] stores for an edge. *)
Definition main_path (edge_list : list edge) (node_positions : node -> vec)
  (edge_width : edge -> R) (e : edge) : polyline :=
  if mem_edge (snd e, fst e) edge_list
  then
    let offset :=
      vscale (-0.5 * edge_width e)
             (unit_normal (vsub (node_positions (snd e))
                                (node_positions (fst e)))) in
    [vadd (node_positions (fst e)) offset;
     vadd (node_positions (snd e)) offset]
  else [node_positions (fst e); node_positions (snd e)].


(** A chain of [L] points from the source of the edge to its target, and
    a force that is zero at both ends of a chain of [L] points. *)
Definition anchored (node_positions : node -> vec) (L : nat) (e : edge)
  (chain : polyline) : Prop :=
  List.length chain = L
  /\ nth 0 chain vzero = node_positions (fst e)
  /\ nth (L - 1) chain vzero = node_positions (snd e).

Definition zero_at_ends (L : nat) (f : polyline) : Prop :=
  List.length f = L
  /\ nth 0 f vzero = vzero
  /\ nth (L - 1) f vzero = vzero.

(** The dictionaries of chains and of forces of one bundling step. *)
Definition chains_ok (node_positions : node -> vec) (edges : list edge)
  (L : nat) (d : list (edge * polyline)) : Prop :=
  entries_satisfy (anchored node_positions L) d /\ keys_are edges d.

Definition forces_ok (edges : list edge) (L : nat)
  (F : list (edge * polyline)) : Prop :=
  entries_satisfy (fun _ f => zero_at_ends L f) F /\ keys_are edges F.

End Predicates.

(** ** Reading a graph: [_parse_adjacency_matrix] and [_is_directed] of
       [src/netgraph.py] *)

Module Parse.

(** The truth value of a number: [np.where] keeps the entries that are
    not zero. *)
Definition nonzero (x : R) : bool := if Req_dec_T x 0 then false else true.

(** [np.where(adjacency)], zipped: the indices of the entries that are not
    zero, row by row. *)
Definition np_where (adjacency : matrix) : list edge :=
  flat_map (fun i =>
              map (fun j => (i, j))
                  (filter (fun j => nonzero (FR.entry adjacency i j))
                          (seq 0 (length (nth i adjacency [])))))
           (seq 0 (length adjacency)).

Definition _parse_adjacency_matrix (adjacency : matrix)
  : list edge * option (list (edge * R)) :=
  let edge_list := np_where adjacency in
  let edge_weights :=
    fold_left (fun d e =>
                 dict_set edge_eqb d e (FR.entry adjacency (fst e) (snd e)))
              edge_list [] in
  if Nat.eqb (length (nodup Req_dec_T (map snd edge_weights))) 1
  then (edge_list, None)
  else (edge_list, Some edge_weights).

Definition _is_directed (edge_list : list edge) : bool :=
  existsb (fun e => mem_edge (snd e, fst e) edge_list) edge_list.

End Parse.

(** ** The scores where a divisor is zero

    The scores of [EdgeLayout] are over the real numbers.  Where the
    divisor of [_get_visibility] is zero the floating point division of
    the code does not fail: a positive number over zero is [inf], zero
    over zero is [nan].  The definitions of this module follow the code
    through these two cases, for segments with distinct end points. *)

Module ZeroDivisor.

(** A float that is a number, or [nan]. *)
Inductive score : Type :=
| Finite (x : R)
| NaN.

(** [_get_visibility]: [max(visibility, 0)] with
    [visibility = 1 - 2 * d / I.length].  For [I.length = 0] the quotient
    is [nan] when [2 * d = 0], and so is the result (every comparison with
    [nan] is false, and [max] keeps its first argument); otherwise the
    quotient is [inf], [visibility] is [-inf] and the result is [0]. *)
Definition _get_visibility (P Q : EdgeLayout.Segment) : score :=
  let I := EdgeLayout.projected_interval P Q in
  let distance_between_midpoints :=
    norm (vsub (EdgeLayout.midpoint P) (EdgeLayout.midpoint I)) in
  if Req_dec_T (EdgeLayout.length I) 0
  then if Req_dec_T (2 * distance_between_midpoints) 0
       then NaN
       else Finite 0
  else Finite (EdgeLayout._get_visibility P Q).

(** [min(a, b)] of Python: [b] when [b < a], else [a]. *)
Definition py_min (a b : score) : score :=
  match a, b with
  | Finite x, Finite y => if Rlt_dec y x then Finite y else Finite x
  | Finite x, NaN => Finite x
  | NaN, _ => NaN
  end.

Definition _get_visibility_compatibility (P Q : EdgeLayout.Segment) : score :=
  py_min (_get_visibility P Q) (_get_visibility Q P).

(** A number times a score. *)
Definition times (x : R) (s : score) : score :=
  match s with
  | Finite y => Finite (x * y)
  | NaN => NaN
  end.

(** The product of the four factors, in the order in which
    [_get_edge_compatibility] multiplies them. *)
Definition compatibility (P Q : EdgeLayout.Segment) : score :=
  times (1 * EdgeLayout._get_scale_compatibility P Q
         * EdgeLayout._get_position_compatibility P Q
         * EdgeLayout._get_angle_compatibility P Q)
        (_get_visibility_compatibility P Q).

(** The divisor [distance_squared] of one row of [_get_Fe]. *)
Definition distance_squared (delta : vec) : R := fst delta ^ 2 + snd delta ^ 2.

End ZeroDivisor.

(** ** The runs of edge bundling in which nothing is divided by zero *)

Module Regular.

(** scipy's [UnivariateSpline] with [k = 3] takes at least four data
    points and raises for fewer. *)
Definition spline_accepts (path : polyline) : bool :=
  Nat.leb 4 (length path).

(** The divisors of [_get_Fe] strictly inside the chains are not zero: no
    control point coincides with the one it is paired with. *)
Definition facing_points_apart
  (edge_to_control_points : list (edge * polyline))
  (edge_compatibility : list (edge * edge * R * bool)) : Prop :=
  forall e1 e2 compatibility reverse i,
    In (e1, e2, compatibility, reverse) edge_compatibility ->
    (0 < i < length (EdgeLayout.dict_at edge_to_control_points e1 []) - 1)%nat ->
    nth i (EdgeLayout.dict_at edge_to_control_points e1 []) vzero
    <> nth i (if reverse
              then rev (EdgeLayout.dict_at edge_to_control_points e2 [])
              else EdgeLayout.dict_at edge_to_control_points e2 [])
           vzero.

(** That holds at every turn of the inner loop of [bundle_iterations]. *)
Fixpoint iterations_regular (total_iterations : nat)
  (edge_to_k : list (edge * R))
  (edge_compatibility : list (edge * edge * R * bool)) (step_size : R)
  (edge_to_control_points : list (edge * polyline)) : Prop :=
  match total_iterations with
  | O => True
  | S n =>
      facing_points_apart edge_to_control_points edge_compatibility
      /\ iterations_regular n edge_to_k edge_compatibility step_size
           (EdgeLayout.bundle_iterations 1 edge_to_k edge_compatibility
              step_size edge_to_control_points)
  end.

(** And in every cycle of [bundle_cycles]. *)
Fixpoint cycles_regular (total_cycles : nat) (edge_to_k : list (edge * R))
  (edge_compatibility : list (edge * edge * R * bool))
  (total_iterations : nat) (step_size : R)
  (edge_to_control_points : list (edge * polyline)) : Prop :=
  match total_cycles with
  | O => True
  | S n =>
      let edge_to_control_points :=
        EdgeLayout._expand_control_points edge_to_control_points in
      iterations_regular total_iterations edge_to_k edge_compatibility
        step_size edge_to_control_points
      /\ cycles_regular n edge_to_k edge_compatibility
           (2 * total_iterations / 3)%nat (step_size / 2)
           (EdgeLayout.bundle_iterations total_iterations edge_to_k
              edge_compatibility step_size edge_to_control_points)
  end.

(** The chains that the body of [get_bundled_edge_paths] hands to
    [_smooth_edges]. *)
Definition bundled_control_points (edges : list edge)
  (node_positions : node -> vec) (k compatibility_threshold : R)
  (total_cycles total_iterations : nat) (step_size straighten_by : R)
  : list (edge * polyline) :=
  let edges :=
    if existsb EdgeLayout.is_selfloop edges
    then EdgeLayout.nonloops_of edges else edges in
  let edges := EdgeLayout.unidirectional_of edges in
  let edge_to_control_points :=
    EdgeLayout.bundle_cycles total_cycles
      (EdgeLayout._get_k edges node_positions k)
      (EdgeLayout._get_edge_compatibility edges node_positions
         compatibility_threshold)
      total_iterations step_size
      (EdgeLayout._initialize_bundled_control_points edges node_positions) in
  if Rlt_dec 0 straighten_by
  then EdgeLayout._straighten_edges edge_to_control_points straighten_by
  else edge_to_control_points.

(** One run of the body of [get_bundled_edge_paths] divides by no zero:
    the edges it routes join different positions, the threshold is
    positive (a pair of perpendicular edges is then dropped before its
    visibility is computed), and the control points that face each other
    stay apart. *)
Definition bundling_is_regular (edges : list edge)
  (node_positions : node -> vec) (k compatibility_threshold : R)
  (total_cycles total_iterations : nat) (step_size : R) : Prop :=
  let edges :=
    if existsb EdgeLayout.is_selfloop edges
    then EdgeLayout.nonloops_of edges else edges in
  let edges := EdgeLayout.unidirectional_of edges in
  (forall e, In e edges -> node_positions (fst e) <> node_positions (snd e))
  /\ 0 < compatibility_threshold
  /\ cycles_regular total_cycles
       (EdgeLayout._get_k edges node_positions k)
       (EdgeLayout._get_edge_compatibility edges node_positions
          compatibility_threshold)
       total_iterations step_size
       (EdgeLayout._initialize_bundled_control_points edges node_positions).

(** The edge lists that [get_bundled_edge_paths] routes: those of the
    components when there are several, else the whole list. *)
Definition routed_edge_lists
  (_edge_list_to_adjacency_list : list edge -> bool -> EdgeLayout.adjacency)
  (_get_connected_components : EdgeLayout.adjacency -> list (list node))
  (edges : list edge) : list (list edge) :=
  let components :=
    _get_connected_components (_edge_list_to_adjacency_list edges false) in
  if Nat.ltb 1 (length components)
  then map (Predicates.component_edges edges) components
  else [edges].

End Regular.

(** ** Further notions used in the statements *)

Module Notions.

(** The fixed rows as [_sparse_fruchterman_reingold] has them: none when
    [fixed] is [None]. *)
Definition fixed_list (fixed : option (list nat)) : list nat :=
  match fixed with None => [] | Some f => f end.

(** The sum of the temperatures of [n] iterations that start at [t] and
    cool by [dt]. *)
Definition total_temperature (n : nat) (t dt : R) : R :=
  INR n * t - dt * (INR n * (INR n - 1) / 2).

(** How often an edge occurs in an edge list. *)
Definition multiplicity (e : edge) (edge_list : list edge) : nat :=
  length (filter (edge_eqb e) edge_list).

(** The weight that [_edge_list_to_sparse_matrix] gives an edge: 1 unless
    a non-empty dictionary of weights is given. *)
Definition edge_weight (edge_weights : option (list (edge * R))) (e : edge)
  : R :=
  match edge_weights with
  | None | Some [] => 1
  | Some w => match dict_get edge_eqb w e with Some x => x | None => 0 end
  end.

(** A chain of [n + 1] points at equal steps on the segment from [a] to
    [b]. *)
Definition evenly_spaced (a b : vec) (n : nat) (chain : polyline) : Prop :=
  length chain = S n
  /\ forall i, (i <= n)%nat ->
                nth i chain vzero
                = vadd a (vscale (INR i / INR n) (vsub b a)).

(** Every chain of the dictionary runs at equal steps between the
    positions of its nodes. *)
Definition all_straight (node_positions : node -> vec) (n : nat)
  (d : list (edge * polyline)) : Prop :=
  Predicates.entries_satisfy
    (fun e chain =>
       evenly_spaced (node_positions (fst e)) (node_positions (snd e)) n chain)
    d.

(** The sum of the forces on all control points of all edges. *)
Definition total_force (F : list (edge * polyline)) : vec :=
  vsum (flat_map snd F).

(** Every chain of the dictionary has [L] points. *)
Definition chains_of_length (L : nat) (d : list (edge * polyline)) : Prop :=
  Predicates.entries_satisfy (fun _ chain => length chain = L) d.

End Notions.

(** * Properties *)

(** ** Vectors and lists *)

Lemma vadd_zero_r (a : vec) : vadd a vzero = a.
Proof. destruct a as [x y]; unfold vadd, vzero; simpl; f_equal; lra. Qed.

Lemma vsub_vadd_l (a b : vec) : vsub (vadd a b) a = b.
Proof. destruct a, b; unfold vsub, vadd; simpl; f_equal; lra. Qed.

Lemma norm_nonneg (a : vec) : 0 <= norm a.
Proof. apply sqrt_pos. Qed.

Lemma norm_vzero : norm vzero = 0.
Proof.
  unfold norm, vzero; simpl.
  replace (0 * 0 + 0 * 0) with 0 by lra. apply sqrt_0.
Qed.

Lemma norm_vscale (c : R) (a : vec) : norm (vscale c a) = Rabs c * norm a.
Proof.
  destruct a as [x y]; unfold norm, vscale; simpl.
  replace (c * x * (c * x) + c * y * (c * y))
    with (Rsqr c * (x * x + y * y)) by (unfold Rsqr; ring).
  rewrite sqrt_mult; [ | apply Rle_0_sqr | nra ].
  now rewrite sqrt_Rsqr_abs.
Qed.

Lemma norm_eq_0 (a : vec) : norm a = 0 -> a = vzero.
Proof.
  destruct a as [x y]; unfold norm, vzero; simpl; intros H.
  apply sqrt_eq_0 in H; [ | nra ].
  f_equal; nra.
Qed.


Lemma sqrt_pow2_sum (x y : R) : sqrt (x ^ 2 + y ^ 2) = norm (x, y).
Proof. unfold norm; simpl; f_equal; ring. Qed.

Lemma nth_map_seq {X : Type} (f : nat -> X) (n i : nat) (d : X) :
  (i < n)%nat -> nth i (map f (seq 0 n)) d = f i.
Proof.
  intros H.
  rewrite (nth_indep _ d (f O)) by (now rewrite length_map, length_seq).
  rewrite map_nth, seq_nth by assumption. reflexivity.
Qed.

Lemma nth_map_seq_default {X : Type} (f : nat -> X) (n i : nat) (d : X) :
  (n <= i)%nat -> nth i (map f (seq 0 n)) d = d.
Proof.
  intros H. apply nth_overflow. now rewrite length_map, length_seq.
Qed.

Lemma mem_nat_In (i : nat) (l : list nat) : mem_nat i l = true <-> In i l.
Proof.
  unfold mem_nat; rewrite existsb_exists; split.
  - intros [x [Hx E]]. apply Nat.eqb_eq in E. now subst.
  - intros H. exists i; split; [ assumption | apply Nat.eqb_refl ].
Qed.

Lemma edge_eqb_eq (a b : edge) : edge_eqb a b = true <-> a = b.
Proof.
  destruct a as [a1 a2], b as [b1 b2]; unfold edge_eqb; simpl.
  rewrite andb_true_iff, !Nat.eqb_eq. split.
  - intros [-> ->]; reflexivity.
  - intros E; inversion E; auto.
Qed.

Lemma edge_eqb_refl (a : edge) : edge_eqb a a = true.
Proof. now apply edge_eqb_eq. Qed.

Lemma edge_eqb_neq (a b : edge) : edge_eqb a b = false <-> a <> b.
Proof.
  split.
  - intros H E. apply edge_eqb_eq in E. congruence.
  - intros H. destruct (edge_eqb a b) eqn:E; [ | reflexivity ].
    apply edge_eqb_eq in E. contradiction.
Qed.

Lemma mem_edge_In (e : edge) (l : list edge) : mem_edge e l = true <-> In e l.
Proof.
  unfold mem_edge; rewrite existsb_exists; split.
  - intros [x [Hx E]]. apply edge_eqb_eq in E. now subst.
  - intros H. exists e; split; [ assumption | apply edge_eqb_refl ].
Qed.

(** ** The solvers: one iteration *)

Module FRFacts.

Import FR.

Lemma dense_step_length A k t fixed pos :
  length (dense_step A k t fixed pos) = length pos.
Proof. unfold dense_step. now rewrite length_map, length_seq. Qed.

Lemma sparse_step_length A k t fixed pos :
  length (sparse_step A k t fixed pos) = length pos.
Proof. unfold sparse_step. now rewrite length_map, length_seq. Qed.

Lemma dense_step_row A k t fixed pos i :
  (i < length pos)%nat ->
  row (dense_step A k t fixed pos) i
  = vadd (row pos i) (dense_delta_pos A k t fixed pos i).
Proof. intros H. unfold row at 1, dense_step. now rewrite nth_map_seq. Qed.

Lemma sparse_step_row A k t fixed pos i :
  (i < length pos)%nat ->
  row (sparse_step A k t fixed pos) i
  = vadd (row pos i) (sparse_delta_pos A k t fixed pos i).
Proof. intros H. unfold row at 1, sparse_step. now rewrite nth_map_seq. Qed.

Lemma dense_loop_length n A k dt fixed t pos :
  length (dense_loop n A k dt fixed t pos) = length pos.
Proof.
  revert t pos; induction n as [ | n IH]; intros t pos; simpl.
  - reflexivity.
  - now rewrite IH, dense_step_length.
Qed.

Lemma sparse_loop_length n A k dt fixed t pos :
  length (sparse_loop n A k dt fixed t pos) = length pos.
Proof.
  revert t pos; induction n as [ | n IH]; intros t pos; simpl.
  - reflexivity.
  - now rewrite IH, sparse_step_length.
Qed.

(** The length of a scaled displacement: [t] when the force is at least
    0.01 long, [t * L / 0.1] when its length [L] is below. *)
Lemma normalised_step (t : R) (d : vec) :
  0 <= t ->
  (0.01 <= norm d -> norm (vscale (t / where_lt (norm d) 0.01 0.1) d) = t)
  /\ (norm d < 0.01 ->
      norm (vscale (t / where_lt (norm d) 0.01 0.1) d) = t * norm d / 0.1).
Proof.
  intros Ht. rewrite norm_vscale. unfold where_lt.
  destruct (Rlt_dec (norm d) 0.01) as [Hlt | Hge]; split; intros H;
    try lra.
  - rewrite Rabs_right; [ field; lra | ].
    apply Rle_ge. apply Rmult_le_pos; [ assumption | ].
    apply Rlt_le, Rinv_0_lt_compat; lra.
  - rewrite Rabs_right; [ field; lra | ].
    apply Rle_ge. apply Rmult_le_pos; [ assumption | ].
    apply Rlt_le, Rinv_0_lt_compat; lra.
Qed.

Lemma sparse_delta_pos_vscale A k t fixed pos i :
  sparse_delta_pos A k t fixed pos i
  = vscale (t / where_lt (norm (sparse_displacement A k fixed pos i)) 0.01 0.1)
           (sparse_displacement A k fixed pos i).
Proof.
  unfold sparse_delta_pos, sparse_length.
  destruct (sparse_displacement A k fixed pos i) as [x y]; cbn [fst snd].
  rewrite sqrt_pow2_sum. unfold vscale; cbn [fst snd].
  f_equal; unfold Rdiv; ring.
Qed.

End FRFacts.

(** C10. In one iteration of either solver at temperature [t], a node that
    is not fixed and whose net force has length at least 0.01 moves by
    exactly [t] (the displacement is normalised to that length); when the
    force has a length [L] below 0.01 the node moves by [t * L / 0.1]. *)
Theorem step_is_normalised_to_temperature :
  forall (A : matrix) (k t : R) (pos : list vec) (i : nat),
    0 <= t ->
    (i < length pos)%nat ->
    (forall fixed : option (list nat),
        match fixed with Some f => mem_nat i f = false | None => True end ->
        let L := norm (FR.dense_displacement A k pos i) in
        let moved :=
          vsub (FR.row (FR.dense_step A k t fixed pos) i) (FR.row pos i) in
        (0.01 <= L -> norm moved = t)
        /\ (L < 0.01 -> norm moved = t * L / 0.1))
    /\ (forall fixed : list nat,
           mem_nat i fixed = false ->
           let L := norm (FR.sparse_displacement A k fixed pos i) in
           let moved :=
             vsub (FR.row (FR.sparse_step A k t fixed pos) i) (FR.row pos i) in
           (0.01 <= L -> norm moved = t)
           /\ (L < 0.01 -> norm moved = t * L / 0.1)).
Proof.
  intros A k t pos i Ht Hi. split.
  - intros fixed Hfree L moved. subst moved.
    rewrite FRFacts.dense_step_row by assumption.
    rewrite vsub_vadd_l.
    assert (E : FR.dense_delta_pos A k t fixed pos i
                = vscale (t / where_lt L 0.01 0.1)
                         (FR.dense_displacement A k pos i)).
    { unfold FR.dense_delta_pos, FR.dense_length.
      destruct fixed as [f | ]; [ now rewrite Hfree | reflexivity ]. }
    rewrite E. apply FRFacts.normalised_step; assumption.
  - intros fixed Hfree L moved. subst moved.
    rewrite FRFacts.sparse_step_row by assumption.
    rewrite vsub_vadd_l, FRFacts.sparse_delta_pos_vscale.
    apply FRFacts.normalised_step; assumption.
Qed.

Lemma step_is_normalised_witness :
  0 <= 0.1
  /\ (1 < length [(0, 0); (1, 0)])%nat
  /\ (forall fixed : option (list nat),
         match fixed with Some f => mem_nat 1 f = false | None => True end ->
         let L := norm (FR.dense_displacement [] 1 [(0, 0); (1, 0)] 1) in
         let moved :=
           vsub (FR.row (FR.dense_step [] 1 0.1 fixed [(0, 0); (1, 0)]) 1)
                (FR.row [(0, 0); (1, 0)] 1) in
         (0.01 <= L -> norm moved = 0.1)
         /\ (L < 0.01 -> norm moved = 0.1 * L / 0.1))
  /\ (forall fixed : list nat,
         mem_nat 1 fixed = false ->
         let L := norm (FR.sparse_displacement [] 1 fixed [(0, 0); (1, 0)] 1) in
         let moved :=
           vsub (FR.row (FR.sparse_step [] 1 0.1 fixed [(0, 0); (1, 0)]) 1)
                (FR.row [(0, 0); (1, 0)] 1) in
         (0.01 <= L -> norm moved = 0.1)
         /\ (L < 0.01 -> norm moved = 0.1 * L / 0.1)).
Proof.
  split; [ lra | ]. split; [ simpl; lia | ].
  apply (step_is_normalised_to_temperature [] 1 0.1 [(0, 0); (1, 0)] 1).
  - lra.
  - simpl; lia.
Defined.

(** ** The solvers: the temperature and the fixed nodes *)

Module FRLoop.

Import FR FRFacts.

(** The last of [n + 1] iterations runs at the temperature [t - n * dt]. *)
Lemma dense_loop_last n A k dt fixed t pos :
  dense_loop (S n) A k dt fixed t pos
  = dense_step A k (t - INR n * dt) fixed (dense_loop n A k dt fixed t pos).
Proof.
  revert t pos; induction n as [ | n IH]; intros t pos.
  - simpl. f_equal. lra.
  - change (dense_loop (S (S n)) A k dt fixed t pos)
      with (dense_loop (S n) A k dt fixed (t - dt) (dense_step A k t fixed pos)).
    rewrite IH. simpl dense_loop. f_equal. rewrite S_INR. lra.
Qed.

Lemma sparse_loop_last n A k dt fixed t pos :
  sparse_loop (S n) A k dt fixed t pos
  = sparse_step A k (t - INR n * dt) fixed (sparse_loop n A k dt fixed t pos).
Proof.
  revert t pos; induction n as [ | n IH]; intros t pos.
  - simpl. f_equal. lra.
  - change (sparse_loop (S (S n)) A k dt fixed t pos)
      with (sparse_loop (S n) A k dt fixed (t - dt)
              (sparse_step A k t fixed pos)).
    rewrite IH. simpl sparse_loop. f_equal. rewrite S_INR. lra.
Qed.

(** With the linear cooling [dt = t / (iterations + 1)] no iteration runs
    at a negative temperature. *)
Lemma cooling_nonneg (t : R) (iterations j : nat) :
  0 <= t -> (j <= iterations)%nat ->
  0 <= t - INR j * (t / INR (iterations + 1)).
Proof.
  intros Ht Hj.
  assert (Hpos : 0 < INR (iterations + 1)) by (apply lt_0_INR; lia).
  assert (Hle : INR j <= INR (iterations + 1)) by (apply le_INR; lia).
  replace (t - INR j * (t / INR (iterations + 1)))
    with (t * ((INR (iterations + 1) - INR j) / INR (iterations + 1)))
    by (field; lra).
  apply Rmult_le_pos; [ assumption | ].
  apply Rmult_le_pos; [ lra | ].
  apply Rlt_le, Rinv_0_lt_compat; assumption.
Qed.

Lemma fold_left_Rmax_ge (l : list R) (x : R) : x <= fold_left Rmax l x.
Proof.
  revert x; induction l as [ | y l IH]; intros x; simpl.
  - lra.
  - eapply Rle_trans; [ apply (Rmax_l x y) | apply IH ].
Qed.

Lemma fold_left_Rmin_le (l : list R) (x : R) : fold_left Rmin l x <= x.
Proof.
  revert x; induction l as [ | y l IH]; intros x; simpl.
  - lra.
  - eapply Rle_trans; [ apply IH | apply (Rmin_l x y) ].
Qed.

Lemma rmin_le_rmax (l : list R) : rmin_list l <= rmax_list l.
Proof.
  destruct l as [ | x l]; simpl; [ lra | ].
  eapply Rle_trans; [ apply fold_left_Rmin_le | apply fold_left_Rmax_ge ].
Qed.

Lemma dense_t0_nonneg (pos : list vec) : 0 <= dense_t0 pos.
Proof.
  unfold dense_t0.
  pose proof (rmin_le_rmax (xs pos)) as Hx.
  pose proof (Rmax_l (rmax_list (xs pos) - rmin_list (xs pos))
                     (rmax_list (ys pos) - rmin_list (ys pos))) as Hm.
  nra.
Qed.

(** A fixed row is left alone by one iteration, and so by all of them. *)
Lemma dense_step_fixed A k t f pos i :
  mem_nat i f = true ->
  row (dense_step A k t (Some f) pos) i = row pos i.
Proof.
  intros Hf. destruct (Nat.lt_ge_cases i (length pos)) as [Hi | Hi].
  - rewrite dense_step_row by assumption.
    unfold dense_delta_pos. rewrite Hf. apply vadd_zero_r.
  - unfold row. rewrite !nth_overflow; try reflexivity; try assumption.
    now rewrite dense_step_length.
Qed.

Lemma dense_loop_fixed n A k dt f t pos i :
  mem_nat i f = true ->
  row (dense_loop n A k dt (Some f) t pos) i = row pos i.
Proof.
  intros Hf. revert t pos; induction n as [ | n IH]; intros t pos; simpl.
  - reflexivity.
  - rewrite IH. now apply dense_step_fixed.
Qed.

Lemma sparse_delta_pos_fixed A k t f pos i :
  mem_nat i f = true -> sparse_delta_pos A k t f pos i = vzero.
Proof.
  intros Hf. unfold sparse_delta_pos, sparse_displacement. rewrite Hf.
  unfold vzero; cbn [fst snd]. f_equal; unfold Rdiv; ring.
Qed.

Lemma sparse_step_fixed A k t f pos i :
  mem_nat i f = true ->
  row (sparse_step A k t f pos) i = row pos i.
Proof.
  intros Hf. destruct (Nat.lt_ge_cases i (length pos)) as [Hi | Hi].
  - rewrite sparse_step_row by assumption.
    rewrite sparse_delta_pos_fixed by assumption. apply vadd_zero_r.
  - unfold row. rewrite !nth_overflow; try reflexivity; try assumption.
    now rewrite sparse_step_length.
Qed.

Lemma sparse_loop_fixed n A k dt f t pos i :
  mem_nat i f = true ->
  row (sparse_loop n A k dt f t pos) i = row pos i.
Proof.
  intros Hf. revert t pos; induction n as [ | n IH]; intros t pos; simpl.
  - reflexivity.
  - rewrite IH. now apply sparse_step_fixed.
Qed.

Lemma dense_solver_length A k pos fixed iterations rnd :
  length (_dense_fruchterman_reingold A k (Some pos) fixed iterations rnd)
  = length pos.
Proof. unfold _dense_fruchterman_reingold. apply dense_loop_length. Qed.

Lemma sparse_solver_length A k pos fixed iterations rnd :
  length (_sparse_fruchterman_reingold A k (Some pos) fixed iterations rnd)
  = length pos.
Proof. unfold _sparse_fruchterman_reingold. apply sparse_loop_length. Qed.

End FRLoop.

(** ** The layout function *)

Module LayoutFacts.

Import FR FRFacts FRLoop.

Lemma np_unique_In (l : list nat) (v : nat) : In v (np_unique l) <-> In v l.
Proof.
  unfold np_unique. rewrite filter_In, in_seq, mem_nat_In. split.
  - tauto.
  - intros H. split; [ | assumption ].
    pose proof (proj1 (list_max_le l (list_max l)) (Nat.le_refl _)) as Hall.
    rewrite Forall_forall in Hall. specialize (Hall v H). lia.
Qed.

Lemma index_of_In (v : node) (nodes : list node) :
  In v nodes -> exists i, index_of v nodes = Some i.
Proof.
  induction nodes as [ | n nodes IH]; simpl; [ tauto | ].
  intros H. destruct (Nat.eqb v n) eqn:E; [ now exists O | ].
  destruct H as [H | H]; [ subst; rewrite Nat.eqb_refl in E; discriminate | ].
  destruct (IH H) as [i Hi]. rewrite Hi. now exists (S i).
Qed.

Lemma index_of_spec (v : node) (nodes : list node) (i : nat) :
  index_of v nodes = Some i -> (i < length nodes)%nat /\ nth i nodes O = v.
Proof.
  revert i; induction nodes as [ | n nodes IH]; simpl; intros i H;
    [ discriminate | ].
  destruct (Nat.eqb v n) eqn:E.
  - inversion H; subst. apply Nat.eqb_eq in E. split; [ lia | now subst ].
  - destruct (index_of v nodes) as [j | ]; [ | discriminate ].
    inversion H; subst. destruct (IH j eq_refl) as [Hj Hn].
    split; [ lia | assumption ].
Qed.

(** [dict(zip(nodes, pos))[v]] is the row of [v]. *)
Lemma zip_lookup (v : node) (nodes : list node) (out : list vec) (i : nat) :
  index_of v nodes = Some i -> (i < length out)%nat ->
  dict_get Nat.eqb (combine nodes out) v = Some (row out i).
Proof.
  revert out i; induction nodes as [ | n nodes IH]; simpl; intros out i H Hi;
    [ discriminate | ].
  destruct out as [ | p out]; [ simpl in Hi; lia | ]. simpl.
  destruct (Nat.eqb v n) eqn:E.
  - inversion H; subst. reflexivity.
  - destruct (index_of v nodes) as [j | ] eqn:Ej; [ | discriminate ].
    inversion H; subst. simpl in Hi.
    rewrite (IH out j eq_refl) by lia. reflexivity.
Qed.

Lemma map_option_all {X Y : Type} (f : X -> option Y) (l : list X) :
  (forall x, In x l -> exists y, f x = Some y) ->
  exists ys, map_option f l = Some ys /\ length ys = length l.
Proof.
  induction l as [ | x l IH]; simpl; intros H.
  - now exists [].
  - destruct (H x (or_introl eq_refl)) as [y Hy]. rewrite Hy.
    destruct IH as [ys [Hys Hlen]]; [ intros; apply H; now right | ].
    rewrite Hys. exists (y :: ys). simpl. now rewrite Hlen.
Qed.

Lemma map_option_In {X Y : Type} (f : X -> option Y) (l : list X)
  (ys : list Y) (x : X) :
  map_option f l = Some ys -> In x l -> exists y, f x = Some y /\ In y ys.
Proof.
  revert ys; induction l as [ | a l IH]; simpl; intros ys H Hin; [ tauto | ].
  destruct (f a) as [b | ] eqn:Ea; [ | discriminate ].
  destruct (map_option f l) as [bs | ]; [ | discriminate ].
  inversion H; subst. destruct Hin as [-> | Hin].
  - exists b. split; [ assumption | now left ].
  - destruct (IH bs eq_refl Hin) as [y [Hy Hy']].
    exists y. split; [ assumption | now right ].
Qed.

Lemma initial_pos_arr_length nodes pos center rnd :
  length (initial_pos_arr nodes pos center rnd) = length nodes.
Proof. unfold initial_pos_arr. now rewrite length_map, length_seq. Qed.

(** A node with a given position starts there. *)
Lemma initial_pos_arr_given nodes pos center rnd v i p :
  index_of v nodes = Some i ->
  dict_get Nat.eqb pos v = Some p ->
  row (initial_pos_arr nodes pos center rnd) i = p.
Proof.
  intros Hi Hp. destruct (index_of_spec v nodes i Hi) as [Hlt Hnth].
  unfold row, initial_pos_arr. rewrite nth_map_seq by assumption.
  now rewrite Hnth, Hp.
Qed.

Lemma sparse_matrix_length edge_list edge_weights A :
  _edge_list_to_sparse_matrix edge_list edge_weights = Some A ->
  length A = length (np_unique (flatten_edges edge_list)).
Proof.
  unfold _edge_list_to_sparse_matrix. intros H.
  destruct (map_option (fun e => index_of (fst e) _) edge_list)
    as [sources | ]; [ | discriminate ].
  destruct (map_option (fun e => index_of (snd e) _) edge_list)
    as [targets | ]; [ | discriminate ].
  destruct (coo_weights edge_list edge_weights) as [weights | ];
    [ | discriminate ].
  inversion H; subst. now rewrite length_map, length_seq.
Qed.

(** The end points of the edges are nodes, so their indices are found. *)
Lemma sparse_matrix_total edge_list edge_weights :
  coo_weights edge_list edge_weights <> None ->
  exists A, _edge_list_to_sparse_matrix edge_list edge_weights = Some A.
Proof.
  intros Hw. unfold _edge_list_to_sparse_matrix.
  set (nodes := np_unique (flatten_edges edge_list)).
  assert (Hin : forall e, In e edge_list ->
                          In (fst e) nodes /\ In (snd e) nodes).
  { intros e He. unfold nodes. rewrite !np_unique_In.
    unfold flatten_edges. rewrite !in_flat_map.
    split; exists e; simpl; auto. }
  destruct (map_option_all (fun e => index_of (fst e) nodes) edge_list)
    as [sources [Hs _]].
  { intros e He. apply index_of_In. now apply Hin. }
  destruct (map_option_all (fun e => index_of (snd e) nodes) edge_list)
    as [targets [Ht _]].
  { intros e He. apply index_of_In. now apply Hin. }
  rewrite Hs, Ht.
  destruct (coo_weights edge_list edge_weights) as [weights | ];
    [ eauto | contradiction ].
Qed.

(** The solver called by the layout returns one row per node. *)
Lemma solve_length edge_list edge_weights k pos fixed iterations center rnd
  nodes raw :
  solve edge_list edge_weights k pos fixed iterations center rnd
  = Some (nodes, raw) ->
  nodes = np_unique (flatten_edges edge_list) /\ length raw = length nodes.
Proof.
  unfold solve. intros H.
  destruct (fixed_indices _ fixed) as [fixed_idx | ]; [ | discriminate ].
  destruct (layout_k k pos fixed _) as [k' | ]; [ | discriminate ].
  destruct (_edge_list_to_sparse_matrix edge_list edge_weights) as [A | ] eqn:EA;
    [ | discriminate ].
  apply sparse_matrix_length in EA.
  inversion H; subst nodes raw; clear H. split; [ reflexivity | ].
  destruct (Nat.ltb 500 _); destruct pos as [p | ].
  - now rewrite sparse_solver_length, initial_pos_arr_length.
  - unfold _sparse_fruchterman_reingold.
    now rewrite sparse_loop_length, length_map, length_seq.
  - now rewrite dense_solver_length, initial_pos_arr_length.
  - unfold _dense_fruchterman_reingold.
    now rewrite dense_loop_length, length_map, length_seq.
Qed.

End LayoutFacts.

(** C6. A fixed node whose position is given keeps exactly that position:
    no iteration of the dense or of the sparse solver moves a fixed row,
    and the layout, which neither rescales nor recentres when fixed nodes
    are given, returns the position it was given for the node. *)
Theorem fixed_nodes_keep_their_position :
  (forall A k pos fixed iterations rnd i,
      mem_nat i fixed = true ->
      FR.row (FR._dense_fruchterman_reingold A k (Some pos) (Some fixed)
                iterations rnd) i = FR.row pos i
      /\ FR.row (FR._sparse_fruchterman_reingold A k (Some pos) (Some fixed)
                   iterations rnd) i = FR.row pos i)
  /\ (forall edge_list edge_weights k pos fixed iterations scale center rnd
             v p,
         In v fixed ->
         dict_get Nat.eqb pos v = Some p ->
         (forall u, In u fixed -> In u (FR.flatten_edges edge_list)) ->
         FR.coo_weights edge_list edge_weights <> None ->
         exists result,
           FR._fruchterman_reingold_layout edge_list edge_weights k
             (Some pos) (Some fixed) iterations scale center rnd
           = Some result
           /\ dict_get Nat.eqb result v = Some p).
Proof.
  split.
  - intros A k pos fixed iterations rnd i Hf. split.
    + unfold FR._dense_fruchterman_reingold.
      now apply FRLoop.dense_loop_fixed.
    + unfold FR._sparse_fruchterman_reingold.
      now apply FRLoop.sparse_loop_fixed.
  - intros edge_list edge_weights k pos fixed iterations scale center rnd
           v p Hv Hp Hnodes Hw.
    set (nodes := FR.np_unique (FR.flatten_edges edge_list)).
    destruct (LayoutFacts.map_option_all
                (fun u => FR.index_of u nodes) fixed) as [idx [Hidx _]].
    { intros u Hu. apply LayoutFacts.index_of_In.
      unfold nodes. rewrite LayoutFacts.np_unique_In. now apply Hnodes. }
    destruct (LayoutFacts.map_option_In _ _ _ v Hidx Hv) as [i [Hi Hin]].
    destruct (LayoutFacts.sparse_matrix_total edge_list edge_weights Hw)
      as [A HA].
    assert (Hpos : pos <> []) by (intros ->; discriminate).
    assert (Hk : exists k', FR.layout_k k (Some pos) (Some fixed)
                              (length nodes) = Some k').
    { unfold FR.layout_k. destruct pos; [ contradiction | ].
      destruct k; eauto. }
    destruct Hk as [k' Hk].
    unfold FR._fruchterman_reingold_layout, FR.solve, FR.fixed_indices.
    fold nodes. rewrite Hidx, Hk, HA.
    eexists. split; [ reflexivity | ].
    destruct (LayoutFacts.index_of_spec v nodes i Hi) as [Hlt _].
    apply mem_nat_In in Hin.
    destruct (Nat.ltb 500 (length nodes)).
    + rewrite (LayoutFacts.zip_lookup v nodes _ i Hi)
        by (now rewrite FRLoop.sparse_solver_length,
              LayoutFacts.initial_pos_arr_length).
      f_equal. unfold FR._sparse_fruchterman_reingold.
      rewrite FRLoop.sparse_loop_fixed by assumption.
      now apply (LayoutFacts.initial_pos_arr_given nodes pos center rnd v).
    + rewrite (LayoutFacts.zip_lookup v nodes _ i Hi)
        by (now rewrite FRLoop.dense_solver_length,
              LayoutFacts.initial_pos_arr_length).
      f_equal. unfold FR._dense_fruchterman_reingold.
      rewrite FRLoop.dense_loop_fixed by assumption.
      now apply (LayoutFacts.initial_pos_arr_given nodes pos center rnd v).
Qed.

Lemma fixed_nodes_keep_their_position_witness :
  exists result,
    FR._fruchterman_reingold_layout [(0, 1); (1, 2)]%nat None None
      (Some [(0%nat, (0, 0)); (1%nat, (1, 0)); (2%nat, (1, 1))])
      (Some [0%nat; 2%nat]) 50 1 vzero (fun _ => vzero)
    = Some result
    /\ dict_get Nat.eqb result 2%nat = Some (1, 1).
Proof.
  apply (proj2 fixed_nodes_keep_their_position).
  - simpl; auto.
  - reflexivity.
  - simpl; intuition.
  - discriminate.
Defined.

(** ** Rescaling *)

Module RescaleFacts.

Import FR.

Lemma fold_left_Rmax_In (l : list R) (x : R) :
  In (fold_left Rmax l x) (x :: l).
Proof.
  revert x; induction l as [ | y l IH]; intros x; simpl.
  - now left.
  - destruct (IH (Rmax x y)) as [H | H].
    + rewrite <- H. unfold Rmax. destruct (Rle_dec x y); auto.
    + auto.
Qed.

Lemma fold_left_Rmax_upper (l : list R) (x y : R) :
  In y (x :: l) -> y <= fold_left Rmax l x.
Proof.
  revert x; induction l as [ | z l IH]; intros x H; simpl.
  - destruct H as [-> | []]. lra.
  - destruct H as [-> | [-> | H]].
    + eapply Rle_trans; [ apply (Rmax_l y z) | ].
      apply FRLoop.fold_left_Rmax_ge.
    + eapply Rle_trans; [ apply (Rmax_r x y) | ].
      apply FRLoop.fold_left_Rmax_ge.
    + apply IH. now right.
Qed.

(** The maximum of a non-empty list is one of its elements and bounds them
    all. *)
Lemma rmax_list_In (l : list R) : l <> [] -> In (rmax_list l) l.
Proof.
  destruct l as [ | x l]; [ congruence | ]. intros _.
  apply fold_left_Rmax_In.
Qed.

Lemma rmax_list_upper (l : list R) (y : R) : In y l -> y <= rmax_list l.
Proof.
  destruct l as [ | x l]; [ intros [] | ]. apply fold_left_Rmax_upper.
Qed.

Lemma max_abs_upper (l : list R) (x : R) : In x l -> Rabs x <= max_abs l.
Proof.
  intros H. unfold max_abs. apply rmax_list_upper. now apply in_map.
Qed.

Lemma max_abs_attained (l : list R) :
  l <> [] -> exists x, In x l /\ Rabs x = max_abs l.
Proof.
  intros H. unfold max_abs.
  assert (Hm : map Rabs l <> []) by (destruct l; simpl; congruence).
  apply rmax_list_In in Hm. apply in_map_iff in Hm.
  destruct Hm as [x [E Hx]]. eauto.
Qed.

Lemma max_abs_nonneg (l : list R) : 0 <= max_abs l.
Proof.
  destruct l as [ | x l].
  - unfold max_abs; simpl; lra.
  - eapply Rle_trans; [ apply (Rabs_pos x) | ].
    apply max_abs_upper. now left.
Qed.

Lemma rescale_lim_nonneg (pos : list vec) : 0 <= rescale_lim pos.
Proof.
  unfold rescale_lim.
  eapply Rle_trans; [ apply (Rmax_r (max_abs (center_axis (xs pos))) 0) | ].
  apply Rmax_r.
Qed.

Lemma rescale_lim_x (pos : list vec) (x : R) :
  In x (center_axis (xs pos)) -> Rabs x <= rescale_lim pos.
Proof.
  intros H. unfold rescale_lim.
  eapply Rle_trans; [ apply (max_abs_upper _ _ H) | ].
  eapply Rle_trans; [ apply Rmax_l | apply Rmax_r ].
Qed.

Lemma rescale_lim_y (pos : list vec) (y : R) :
  In y (center_axis (ys pos)) -> Rabs y <= rescale_lim pos.
Proof.
  intros H. unfold rescale_lim.
  eapply Rle_trans; [ apply (max_abs_upper _ _ H) | apply Rmax_l ].
Qed.

(** The limit is the magnitude of a centred coordinate as soon as it is
    positive. *)
Lemma rescale_lim_attained (pos : list vec) :
  0 < rescale_lim pos ->
  (exists x, In x (center_axis (xs pos)) /\ Rabs x = rescale_lim pos)
  \/ (exists y, In y (center_axis (ys pos)) /\ Rabs y = rescale_lim pos).
Proof.
  intros H.
  assert (Hne : pos <> []).
  { intros ->. unfold rescale_lim, max_abs in H; simpl in H.
    unfold Rmax in H. repeat destruct (Rle_dec _ _) in H; lra. }
  assert (Hx : center_axis (xs pos) <> []).
  { destruct pos; [ congruence | discriminate ]. }
  assert (Hy : center_axis (ys pos) <> []).
  { destruct pos; [ congruence | discriminate ]. }
  destruct (max_abs_attained _ Hx) as [x [Hxin Hxe]].
  destruct (max_abs_attained _ Hy) as [y [Hyin Hye]].
  assert (E : rescale_lim pos
              = Rmax (max_abs (center_axis (ys pos)))
                     (Rmax (max_abs (center_axis (xs pos))) 0))
    by reflexivity.
  destruct (Rle_dec (max_abs (center_axis (ys pos)))
                    (Rmax (max_abs (center_axis (xs pos))) 0)) as [Hle | Hgt].
  - rewrite Rmax_right in E by assumption.
    destruct (Rle_dec (max_abs (center_axis (xs pos))) 0) as [Hle0 | Hgt0].
    + rewrite Rmax_right in E by assumption. lra.
    + rewrite Rmax_left in E by lra. left. exists x. split; [ assumption | ].
      congruence.
  - rewrite Rmax_left in E by lra. right. exists y. split; [ assumption | ].
    congruence.
Qed.

Lemma scaled_within (x lim scale : R) :
  0 <= scale -> 0 < lim -> Rabs x <= lim -> Rabs (x * (scale / lim)) <= scale.
Proof.
  intros Hs Hl Hx. rewrite Rabs_mult.
  rewrite (Rabs_right (scale / lim)).
  - apply Rle_trans with (lim * (scale / lim)).
    + apply Rmult_le_compat_r; [ | assumption ].
      apply Rmult_le_pos; [ assumption | ].
      apply Rlt_le, Rinv_0_lt_compat; assumption.
    + right. field. lra.
  - apply Rle_ge. apply Rmult_le_pos; [ assumption | ].
    apply Rlt_le, Rinv_0_lt_compat; assumption.
Qed.

Lemma scaled_attains (x lim scale : R) :
  0 <= scale -> 0 < lim -> Rabs x = lim -> Rabs (x * (scale / lim)) = scale.
Proof.
  intros Hs Hl Hx. rewrite Rabs_mult, Hx.
  rewrite (Rabs_right (scale / lim)).
  - field. lra.
  - apply Rle_ge. apply Rmult_le_pos; [ assumption | ].
    apply Rlt_le, Rinv_0_lt_compat; assumption.
Qed.

Lemma center_axis_length (l : list R) : length (center_axis l) = length l.
Proof. unfold center_axis. apply length_map. Qed.

Lemma _rescale_layout_length (pos : list vec) (scale : R) :
  length (_rescale_layout pos scale) = length pos.
Proof.
  unfold _rescale_layout. cbv zeta.
  destruct (Rlt_dec 0 (rescale_lim pos));
    rewrite length_combine, ?length_map, !center_axis_length;
    unfold xs, ys; rewrite !length_map; lia.
Qed.

(** Every coordinate of the rescaled array is within the scale. *)
Lemma _rescale_layout_within (pos : list vec) (scale x y : R) :
  0 <= scale ->
  In (x, y) (_rescale_layout pos scale) -> Rabs x <= scale /\ Rabs y <= scale.
Proof.
  intros Hs H. unfold _rescale_layout in H. cbv zeta in H.
  destruct (Rlt_dec 0 (rescale_lim pos)) as [Hl | Hl].
  - pose proof (in_combine_l _ _ _ _ H) as Hx.
    pose proof (in_combine_r _ _ _ _ H) as Hy.
    apply in_map_iff in Hx. destruct Hx as [cx [<- Hcx]].
    apply in_map_iff in Hy. destruct Hy as [cy [<- Hcy]].
    split; apply scaled_within; try assumption.
    + now apply rescale_lim_x.
    + now apply rescale_lim_y.
  - pose proof (rescale_lim_nonneg pos) as H0.
    assert (E : rescale_lim pos = 0) by lra.
    pose proof (in_combine_l _ _ _ _ H) as Hx.
    pose proof (in_combine_r _ _ _ _ H) as Hy.
    apply rescale_lim_x in Hx. apply rescale_lim_y in Hy.
    pose proof (Rabs_pos x). pose proof (Rabs_pos y). lra.
Qed.

Lemma in_combine_both {X Y : Type} (l1 : list X) (l2 : list Y) (i : nat)
  (d1 : X) (d2 : Y) :
  (i < length l1)%nat -> (i < length l2)%nat ->
  In (nth i l1 d1, nth i l2 d2) (combine l1 l2).
Proof.
  revert l2 i; induction l1 as [ | a l1 IH]; intros l2 i H1 H2;
    [ simpl in H1; lia | ].
  destruct l2 as [ | b l2]; [ simpl in H2; lia | ].
  destruct i as [ | i]; simpl.
  - now left.
  - right. apply IH; simpl in *; lia.
Qed.

(** When the limit is positive some coordinate of the rescaled array has
    the magnitude [scale]. *)
Lemma _rescale_layout_attains (pos : list vec) (scale : R) :
  0 <= scale -> 0 < rescale_lim pos ->
  exists i, (i < length pos)%nat
            /\ (Rabs (fst (row (_rescale_layout pos scale) i)) = scale
                \/ Rabs (snd (row (_rescale_layout pos scale) i)) = scale).
Proof.
  intros Hs Hl.
  assert (Hrow : forall i, (i < length pos)%nat ->
                 row (_rescale_layout pos scale) i
                 = (nth i (center_axis (xs pos)) 0 * (scale / rescale_lim pos),
                    nth i (center_axis (ys pos)) 0 * (scale / rescale_lim pos))).
  { intros i Hi. unfold row, _rescale_layout. cbv zeta.
    destruct (Rlt_dec 0 (rescale_lim pos)); [ | contradiction ].
    unfold vzero. rewrite combine_nth
      by (rewrite !length_map, !center_axis_length; unfold xs, ys;
          now rewrite !length_map).
    f_equal.
    - rewrite (nth_indep _ 0 (0 * (scale / rescale_lim pos)))
        by (rewrite length_map, center_axis_length; unfold xs;
            now rewrite length_map).
      apply (map_nth (fun x => x * (scale / rescale_lim pos))).
    - rewrite (nth_indep _ 0 (0 * (scale / rescale_lim pos)))
        by (rewrite length_map, center_axis_length; unfold ys;
            now rewrite length_map).
      apply (map_nth (fun x => x * (scale / rescale_lim pos))). }
  destruct (rescale_lim_attained pos Hl) as [[x [Hx Ex]] | [y [Hy Ey]]].
  - destruct (In_nth _ _ 0 Hx) as [i [Hi Hn]].
    rewrite center_axis_length in Hi. unfold xs in Hi.
    rewrite length_map in Hi.
    exists i. split; [ assumption | left ].
    rewrite Hrow by assumption. cbn [fst]. rewrite Hn.
    now apply scaled_attains.
  - destruct (In_nth _ _ 0 Hy) as [i [Hi Hn]].
    rewrite center_axis_length in Hi. unfold ys in Hi.
    rewrite length_map in Hi.
    exists i. split; [ assumption | right ].
    rewrite Hrow by assumption. cbn [snd]. rewrite Hn.
    now apply scaled_attains.
Qed.

End RescaleFacts.

Module RescaleDegenerate.

Import FR RescaleFacts.

Lemma centred_zero_is_mean (l : list R) (i : nat) :
  (i < length l)%nat ->
  (forall c, In c (center_axis l) -> Rabs c <= 0) ->
  nth i l 0 = mean l.
Proof.
  intros Hi H.
  assert (Hin : In (nth i l 0 - mean l) (center_axis l)).
  { unfold center_axis. apply in_map_iff. exists (nth i l 0).
    split; [ reflexivity | now apply nth_In ]. }
  specialize (H _ Hin).
  pose proof (Rabs_pos (nth i l 0 - mean l)) as Hp.
  assert (E : Rabs (nth i l 0 - mean l) = 0) by lra.
  destruct (Req_dec (nth i l 0 - mean l) 0) as [E0 | N0]; [ lra | ].
  apply Rabs_no_R0 in N0. contradiction.
Qed.

(** When the limit is not positive all rows coincide. *)
Lemma rescale_lim_zero_coincident (pos : list vec) (i j : nat) :
  ~ 0 < rescale_lim pos ->
  (i < length pos)%nat -> (j < length pos)%nat ->
  row pos i = row pos j.
Proof.
  intros Hl Hi Hj.
  pose proof (rescale_lim_nonneg pos) as H0.
  assert (Hx : forall c, In c (center_axis (xs pos)) -> Rabs c <= 0).
  { intros c Hc. apply rescale_lim_x in Hc. lra. }
  assert (Hy : forall c, In c (center_axis (ys pos)) -> Rabs c <= 0).
  { intros c Hc. apply rescale_lim_y in Hc. lra. }
  assert (Hfst : forall n, (n < length pos)%nat ->
                           fst (row pos n) = mean (xs pos)).
  { intros n Hn. rewrite <- (centred_zero_is_mean (xs pos) n);
      [ | unfold xs; now rewrite length_map | assumption ].
    unfold xs, row. change 0 with (fst vzero). now rewrite map_nth. }
  assert (Hsnd : forall n, (n < length pos)%nat ->
                           snd (row pos n) = mean (ys pos)).
  { intros n Hn. rewrite <- (centred_zero_is_mean (ys pos) n);
      [ | unfold ys; now rewrite length_map | assumption ].
    unfold ys, row. change 0 with (snd vzero). now rewrite map_nth. }
  rewrite (surjective_pairing (row pos i)), (surjective_pairing (row pos j)).
  now rewrite !Hfst, !Hsnd by assumption.
Qed.

End RescaleDegenerate.

(** C7. Without fixed nodes and with the centre at the origin every
    coordinate of the layout is at most [scale] in absolute value; and when
    the positions computed by the solver do not all coincide, some
    coordinate has exactly the absolute value [scale], which is then the
    largest one over both axes. *)
Theorem unconstrained_layout_is_scaled :
  forall edge_list edge_weights k pos iterations scale rnd nodes raw,
    0 <= scale ->
    FR.solve edge_list edge_weights k pos None iterations vzero rnd
    = Some (nodes, raw) ->
    exists result,
      FR._fruchterman_reingold_layout edge_list edge_weights k pos None
        iterations scale vzero rnd = Some result
      /\ (forall v x y, In (v, (x, y)) result ->
                        Rabs x <= scale /\ Rabs y <= scale)
      /\ ((exists i j, (i < length raw)%nat /\ (j < length raw)%nat
                       /\ FR.row raw i <> FR.row raw j) ->
          exists v x y, In (v, (x, y)) result
                        /\ (Rabs x = scale \/ Rabs y = scale)).
Proof.
  intros edge_list edge_weights k pos iterations scale rnd nodes raw Hs Hsolve.
  unfold FR._fruchterman_reingold_layout. rewrite Hsolve.
  eexists. split; [ reflexivity | ].
  assert (Hid : map (fun p : vec => vadd p vzero) (FR._rescale_layout raw scale)
                = FR._rescale_layout raw scale).
  { rewrite <- (map_id (FR._rescale_layout raw scale)) at 2.
    apply map_ext. intros p. apply vadd_zero_r. }
  rewrite Hid. split.
  - intros v x y H. apply in_combine_r in H.
    now apply (RescaleFacts._rescale_layout_within raw scale).
  - intros [i [j [Hi [Hj Hne]]]].
    destruct (Rlt_dec 0 (FR.rescale_lim raw)) as [Hl | Hl].
    + destruct (RescaleFacts._rescale_layout_attains raw scale Hs Hl)
        as [n [Hn Hmax]].
      destruct (LayoutFacts.solve_length _ _ _ _ _ _ _ _ _ _ Hsolve)
        as [_ Hlen].
      exists (nth n nodes O),
             (fst (FR.row (FR._rescale_layout raw scale) n)),
             (snd (FR.row (FR._rescale_layout raw scale) n)).
      split; [ | assumption ].
      rewrite <- surjective_pairing. unfold FR.row.
      apply RescaleFacts.in_combine_both.
      * lia.
      * now rewrite RescaleFacts._rescale_layout_length.
    + exfalso. apply Hne.
      now apply RescaleDegenerate.rescale_lim_zero_coincident.
Qed.

Lemma unconstrained_layout_is_scaled_witness :
  0 <= 1
  /\ FR.solve [(0, 1)]%nat None None
       (Some [(0%nat, (0, 0)); (1%nat, (2, 0))]) None 0 vzero (fun _ => vzero)
     = Some ([0; 1]%nat, [(0, 0); (2, 0)])
  /\ exists result,
      FR._fruchterman_reingold_layout [(0, 1)]%nat None None
        (Some [(0%nat, (0, 0)); (1%nat, (2, 0))]) None 0 1 vzero
        (fun _ => vzero) = Some result
      /\ (forall v x y, In (v, (x, y)) result -> Rabs x <= 1 /\ Rabs y <= 1)
      /\ ((exists i j, (i < length [(0, 0); (2, 0)])%nat
                       /\ (j < length [(0, 0); (2, 0)])%nat
                       /\ FR.row [(0, 0); (2, 0)] i
                          <> FR.row [(0, 0); (2, 0)] j) ->
          exists v x y, In (v, (x, y)) result
                        /\ (Rabs x = 1 \/ Rabs y = 1)).
Proof.
  split; [ lra | ]. split; [ reflexivity | ].
  apply (unconstrained_layout_is_scaled [(0, 1)]%nat None None
           (Some [(0%nat, (0, 0)); (1%nat, (2, 0))]) 0 1 (fun _ => vzero)
           [0; 1]%nat [(0, 0); (2, 0)]).
  - lra.
  - reflexivity.
Defined.

(** ** The two solvers on one input *)

Lemma vec_eq (a b c d : R) : a = c -> b = d -> (a, b) = (c, d).
Proof. intros -> ->; reflexivity. Qed.

Lemma norm_of_square (x y r : R) :
  0 <= r -> x * x + y * y = r * r -> norm (x, y) = r.
Proof.
  intros Hr E. unfold norm; cbn [fst snd]. rewrite E. now apply sqrt_square.
Qed.

Module SolverExample.

Import FR.
Import SolverInput.

Lemma dense_t0_pos : dense_t0 pos = 0.2.
Proof.
  unfold dense_t0, pos, xs, ys, rmax_list, rmin_list. simpl.
  unfold Rmax, Rmin. repeat (destruct (Rle_dec _ _)); lra.
Qed.

Lemma dense_displacement_0 : dense_displacement A 1 pos 0 = (3.5, 0).
Proof.
  unfold dense_displacement, pos. cbn [length seq map vsum fold_right].
  unfold dense_distance, delta, row, entry, A. cbn [nth].
  unfold vsub. cbn [fst snd].
  rewrite (norm_of_square (0 - 0) (0 - 0) 0) by lra.
  rewrite (norm_of_square (0 - 2) (0 - 0) 2) by lra.
  unfold clip_lo, Rmax. repeat (destruct (Rle_dec _ _)); try lra.
  unfold force_factor, vscale, vadd, vzero. cbn [fst snd].
  apply vec_eq; lra.
Qed.

Lemma dense_displacement_1 : dense_displacement A 1 pos 1 = (0.5, 0).
Proof.
  unfold dense_displacement, pos. cbn [length seq map vsum fold_right].
  unfold dense_distance, delta, row, entry, A. cbn [nth].
  unfold vsub. cbn [fst snd].
  rewrite (norm_of_square (2 - 2) (0 - 0) 0) by lra.
  rewrite (norm_of_square (2 - 0) (0 - 0) 2) by lra.
  unfold clip_lo, Rmax. repeat (destruct (Rle_dec _ _)); try lra.
  unfold force_factor, vscale, vadd, vzero. cbn [fst snd].
  apply vec_eq; lra.
Qed.

Lemma sparse_displacement_0 : sparse_displacement A 1 [] pos 0 = (3.5, 0).
Proof.
  unfold sparse_displacement, pos. cbn [mem_nat existsb].
  cbn [length seq map vsum fold_right].
  unfold sparse_distance, delta, row, entry, A. cbn [nth].
  unfold vsub. cbn [fst snd]. rewrite !sqrt_pow2_sum.
  rewrite (norm_of_square (0 - 0) (0 - 0) 0) by lra.
  rewrite (norm_of_square (0 - 2) (0 - 0) 2) by lra.
  unfold where_lt. repeat (destruct (Rlt_dec _ _)); try lra.
  unfold force_factor, vscale, vadd, vzero. cbn [fst snd].
  apply vec_eq; lra.
Qed.

Lemma sparse_displacement_1 : sparse_displacement A 1 [] pos 1 = (0.5, 0).
Proof.
  unfold sparse_displacement, pos. cbn [mem_nat existsb].
  cbn [length seq map vsum fold_right].
  unfold sparse_distance, delta, row, entry, A. cbn [nth].
  unfold vsub. cbn [fst snd]. rewrite !sqrt_pow2_sum.
  rewrite (norm_of_square (2 - 2) (0 - 0) 0) by lra.
  rewrite (norm_of_square (2 - 0) (0 - 0) 2) by lra.
  unfold where_lt. repeat (destruct (Rlt_dec _ _)); try lra.
  unfold force_factor, vscale, vadd, vzero. cbn [fst snd].
  apply vec_eq; lra.
Qed.

Lemma dense_result :
  _dense_fruchterman_reingold A (Some 1) (Some pos) None 1 (fun _ => vzero)
  = [(0.2, 0); (2.2, 0)].
Proof.
  unfold _dense_fruchterman_reingold. cbn [default_k dense_loop].
  rewrite dense_t0_pos. unfold dense_step. change (length pos) with 2%nat.
  cbn [seq map]. unfold dense_delta_pos, dense_length.
  rewrite dense_displacement_0, dense_displacement_1.
  rewrite (norm_of_square 3.5 0 3.5) by lra.
  rewrite (norm_of_square 0.5 0 0.5) by lra.
  unfold where_lt. repeat (destruct (Rlt_dec _ _)); try lra.
  unfold row, pos. cbn [nth]. unfold vadd, vscale. cbn [fst snd].
  f_equal; [ apply vec_eq; lra | f_equal; apply vec_eq; lra ].
Qed.

Lemma sparse_result :
  _sparse_fruchterman_reingold A (Some 1) (Some pos) None 1 (fun _ => vzero)
  = [(0.1, 0); (2.1, 0)].
Proof.
  unfold _sparse_fruchterman_reingold. cbn [default_k sparse_loop].
  unfold sparse_step. change (length pos) with 2%nat.
  cbn [seq map]. unfold sparse_delta_pos, sparse_length.
  rewrite sparse_displacement_0, sparse_displacement_1.
  cbn [fst snd]. rewrite !sqrt_pow2_sum.
  rewrite (norm_of_square 3.5 0 3.5) by lra.
  rewrite (norm_of_square 0.5 0 0.5) by lra.
  unfold where_lt. repeat (destruct (Rlt_dec _ _)); try lra.
  unfold row, pos. cbn [nth]. unfold vadd. cbn [fst snd].
  f_equal; [ apply vec_eq; lra | f_equal; apply vec_eq; lra ].
Qed.

End SolverExample.

(** C2. The dense and the sparse solver do not agree: on the adjacency
    matrix of one edge between two nodes two units apart, with [k = 1] and
    one iteration, the dense solver starts at the temperature 0.2 (a tenth
    of the extent of the positions) and moves both nodes by 0.2, the sparse
    solver starts at the fixed temperature 0.1 and moves them by 0.1. *)
Theorem dense_and_sparse_solvers_differ :
  FR._dense_fruchterman_reingold SolverInput.A (Some 1)
    (Some SolverInput.pos) None 1 (fun _ => vzero)
  = [(0.2, 0); (2.2, 0)]
  /\ FR._sparse_fruchterman_reingold SolverInput.A (Some 1)
       (Some SolverInput.pos) None 1 (fun _ => vzero)
     = [(0.1, 0); (2.1, 0)]
  /\ FR._dense_fruchterman_reingold SolverInput.A (Some 1)
       (Some SolverInput.pos) None 1 (fun _ => vzero)
     <> FR._sparse_fruchterman_reingold SolverInput.A (Some 1)
          (Some SolverInput.pos) None 1 (fun _ => vzero).
Proof.
  rewrite SolverExample.dense_result, SolverExample.sparse_result.
  repeat split. intros E. inversion E as [[E1 E2]]. lra.
Qed.

(** ** Segments and compatibility scores *)

Module SegmentFacts.

Import EdgeLayout.







Lemma vsub_eq_vzero (a b : vec) : vsub a b = vzero <-> a = b.
Proof.
  destruct a as [a1 a2], b as [b1 b2]; unfold vsub, vzero; cbn [fst snd].
  split; intros E; inversion E; f_equal; lra.
Qed.

(** A segment has length zero exactly when its end points coincide. *)
Lemma length_zero_iff (a b : vec) : length (mkSegment a b) = 0 <-> a = b.
Proof.
  cbn [length mkSegment]. split.
  - intros H. apply norm_eq_0 in H.
    apply (proj1 (vsub_eq_vzero b a)) in H. congruence.
  - intros ->. replace (vsub b b) with vzero; [ apply norm_vzero | ].
    symmetry. now apply (proj2 (vsub_eq_vzero b b)).
Qed.

(** The projection of [Q] onto the line of [P] is the vector of [P]
    scaled by [(q1 - q0) . (p1 - p0) / |p1 - p0|^2]. *)
Lemma projected_interval_vector (a b c d : vec) :
  a <> b ->
  vector (projected_interval (mkSegment a b) (mkSegment c d))
  = vscale (dot (vsub d c) (vsub b a) / (norm (vsub b a)) ^ 2) (vsub b a).
Proof.
  intros Hab.
  assert (Hn : norm (vsub b a) <> 0).
  { intros E. apply Hab. now apply (proj1 (length_zero_iff a b)). }
  destruct a as [a1 a2], b as [b1 b2], c as [c1 c2], d as [d1 d2].
  unfold projected_interval, get_orthogonal_projection_onto_segment.
  cbn [vector mkSegment p0 p1 length].
  unfold vsub, vadd, vscale, dot in *; cbn [fst snd] in *.
  apply vec_eq; field; assumption.
Qed.

Lemma projected_interval_degenerate (a b c d : vec) :
  a <> b ->
  length (projected_interval (mkSegment a b) (mkSegment c d)) = 0
  <-> dot (vsub d c) (vsub b a) = 0.
Proof.
  intros Hab.
  assert (Hn : norm (vsub b a) <> 0).
  { intros E. apply Hab. now apply (proj1 (length_zero_iff a b)). }
  assert (Hv : vsub b a <> vzero).
  { intros E. apply Hab. symmetry. now apply (proj1 (vsub_eq_vzero b a)). }
  change (length (projected_interval (mkSegment a b) (mkSegment c d)))
    with (norm (vector (projected_interval (mkSegment a b) (mkSegment c d)))).
  rewrite projected_interval_vector by assumption.
  rewrite norm_vscale. split.
  - intros H. apply Rmult_integral in H. destruct H as [H | H];
      [ | contradiction ].
    destruct (Req_dec (dot (vsub d c) (vsub b a)) 0) as [E | N];
      [ assumption | ].
    exfalso. revert H. apply Rabs_no_R0.
    unfold Rdiv. apply Rmult_integral_contrapositive_currified;
      [ assumption | ].
    apply Rinv_neq_0_compat. now apply pow_nonzero.
  - intros ->. unfold Rdiv. rewrite Rmult_0_l, Rabs_R0. ring.
Qed.

End SegmentFacts.

Ltac norm_is r :=
  match goal with
  | |- context [norm (?x, ?y)] => rewrite (norm_of_square x y r) by lra
  end.

(** C3. The position compatibility of the code is not [avg / (avg + d)]
    with [d] the distance between the geometric midpoints: the [midpoint]
    of a segment is computed as the product [p0 * 0.5 * vector].  For the
    segments from (1, 1) to (4, 5) and from (1, 2) to (4, 6), both of
    length 5 and with midpoints one unit apart, the code returns 5/7 where
    the formula gives 5/6. *)
Theorem position_compatibility_uses_product_midpoint :
  EdgeLayout._get_position_compatibility
    (EdgeLayout.mkSegment (1, 1) (4, 5)) (EdgeLayout.mkSegment (1, 2) (4, 6))
  = 5 / 7
  /\ EdgeLayout.position_compatibility_spec (1, 1) (4, 5) (1, 2) (4, 6)
     = 5 / 6.
Proof.
  split.
  - unfold EdgeLayout._get_position_compatibility.
    cbn [EdgeLayout.length EdgeLayout.midpoint EdgeLayout.mkSegment].
    unfold vmul, vtimes, vsub; cbn [fst snd].
    norm_is 5. norm_is 5. norm_is 2. lra.
  - unfold EdgeLayout.position_compatibility_spec,
      EdgeLayout.geometric_midpoint.
    unfold vadd, vscale, vsub; cbn [fst snd].
    norm_is 5. norm_is 5. norm_is 1. lra.
Qed.

(** ** The scores of perpendicular segments *)

Module ZeroDivisorFacts.

Import EdgeLayout.





End ZeroDivisorFacts.




Lemma distance_squared_zero (p q : vec) :
  ZeroDivisor.distance_squared (vsub q p) = 0 <-> p = q.
Proof.
  unfold ZeroDivisor.distance_squared, vsub. cbn [fst snd]. split.
  - intros H. rewrite <- !Rsqr_pow2 in H.
    apply Rplus_sqr_eq_0 in H. destruct H as [Hx Hy].
    destruct p as [px py], q as [qx qy]. cbn [fst snd] in *.
    apply vec_eq; lra.
  - intros ->. ring.
Qed.

(** C9, as the code has it.  The divisors that are floored are those of
    the control point update (clamped to at least 1e-12) and of the two
    Fruchterman-Reingold solvers (distances floored at 0.01, displacement
    lengths below 0.01 replaced by 0.1).  Three divisors are not
    protected.  The length of a segment is zero exactly when its end
    points coincide.  The length of the interval projected in the
    visibility score is, for a segment with distinct end points, zero
    exactly when the two segments are perpendicular; the score of the
    code is then [nan] or 0.  The squared distance by which [_get_Fe]
    divides the displacement of a control point is zero exactly when the
    control point coincides with the one it is paired with. *)
Theorem floored_and_unfloored_divisors :
  (forall displacement,
      1e-12 <= EdgeLayout.displacement_length displacement)
  /\ (forall pos i j, 0.01 <= FR.dense_distance pos i j)
  /\ (forall pos i j, 0.01 <= FR.sparse_distance pos i j)
  /\ (forall A k pos i, 0.01 <= FR.dense_length A k pos i)
  /\ (forall A k fixed pos i, 0.01 <= FR.sparse_length A k fixed pos i)
  /\ (forall a b, EdgeLayout.length (EdgeLayout.mkSegment a b) = 0 <-> a = b)
  /\ (forall a b c d,
         a <> b ->
         EdgeLayout.length
           (EdgeLayout.projected_interval (EdgeLayout.mkSegment a b)
                                          (EdgeLayout.mkSegment c d)) = 0
         <-> dot (vsub d c) (vsub b a) = 0)
  /\ (forall a b c d,
         a <> b ->
         dot (vsub d c) (vsub b a) = 0 ->
         let P := EdgeLayout.mkSegment a b in
         let Q := EdgeLayout.mkSegment c d in
         ZeroDivisor._get_visibility P Q = ZeroDivisor.NaN
         \/ ZeroDivisor._get_visibility P Q = ZeroDivisor.Finite 0)
  /\ (forall compatibility reverse P Q,
         EdgeLayout.electrostatic_displacement compatibility reverse P Q
         = EdgeLayout.zero_ends
             (map (fun delta =>
                     vdiv (vscale compatibility delta)
                          (ZeroDivisor.distance_squared delta))
                  (if reverse
                   then EdgeLayout.map2 vsub (rev Q) P
                   else EdgeLayout.map2 vsub Q P)))
  /\ (forall p q, ZeroDivisor.distance_squared (vsub q p) = 0 <-> p = q).
Proof.
  repeat match goal with |- _ /\ _ => split end.
  - intros displacement.
    unfold EdgeLayout.displacement_length, clip_lo. apply Rmax_r.
  - intros pos i j. unfold FR.dense_distance, clip_lo. apply Rmax_r.
  - intros pos i j. unfold FR.sparse_distance, where_lt.
    destruct (Rlt_dec _ _); lra.
  - intros A k pos i. unfold FR.dense_length, where_lt.
    destruct (Rlt_dec _ _); lra.
  - intros A k fixed pos i. unfold FR.sparse_length, where_lt.
    destruct (Rlt_dec _ _); lra.
  - intros a b. apply SegmentFacts.length_zero_iff.
  - intros a b c d Hab. now apply SegmentFacts.projected_interval_degenerate.
  - intros a b c d Hab Hdot P Q.
    assert (H : EdgeLayout.length (EdgeLayout.projected_interval P Q) = 0)
      by now apply SegmentFacts.projected_interval_degenerate.
    unfold ZeroDivisor._get_visibility. cbv zeta.
    destruct (Req_dec_T _ 0) as [_ | N]; [ | contradiction ].
    destruct (Req_dec_T _ 0); [ now left | now right ].
  - intros compatibility reverse P Q. reflexivity.
  - intros p q. apply distance_squared_zero.
Qed.

(** C9, as stated, fails: the divisor of [Segment.__init__] is zero for a
    segment from (1, 1) to (1, 1), and the divisor of [_get_visibility] is
    zero for the perpendicular segments from (0, 0) to (1, 0) and from
    (0, 0) to (0, 1); no positive floor bounds them. *)
Lemma segment_divisors_are_not_floored :
  ~ EdgeLayout.floored
      (EdgeLayout.length (EdgeLayout.mkSegment (1, 1) (1, 1)))
  /\ ~ EdgeLayout.floored
         (EdgeLayout.length
            (EdgeLayout.projected_interval
               (EdgeLayout.mkSegment (0, 0) (1, 0))
               (EdgeLayout.mkSegment (0, 0) (0, 1)))).
Proof.
  split.
  - rewrite (proj2 (SegmentFacts.length_zero_iff (1, 1) (1, 1)) eq_refl).
    intros [floor [Hpos Hle]]. lra.
  - rewrite (proj2 (SegmentFacts.projected_interval_degenerate
                      (0, 0) (1, 0) (0, 0) (0, 1)
                      ltac:(intros E; inversion E; lra))).
    + intros [floor [Hpos Hle]]. lra.
    + unfold dot, vsub; cbn [fst snd]. lra.
Qed.

(** ** Dictionaries *)

Section DictFacts.
Context {K V : Type} (eqb : K -> K -> bool).
Hypothesis eqb_spec : forall a b, eqb a b = true <-> a = b.

Lemma eqb_same (a : K) : eqb a a = true.
Proof. now apply eqb_spec. Qed.

Lemma eqb_diff (a b : K) : a <> b -> eqb a b = false.
Proof.
  intros H. destruct (eqb a b) eqn:E; [ | reflexivity ].
  apply eqb_spec in E. contradiction.
Qed.

Lemma dict_get_set_same (d : list (K * V)) (k : K) (v : V) :
  dict_get eqb (dict_set eqb d k v) k = Some v.
Proof.
  induction d as [ | [k' v'] d IH]; simpl.
  - now rewrite eqb_same.
  - destruct (eqb k k') eqn:E; simpl; rewrite E; [ reflexivity | exact IH ].
Qed.

Lemma dict_get_set_other (d : list (K * V)) (k k' : K) (v : V) :
  k' <> k -> dict_get eqb (dict_set eqb d k v) k' = dict_get eqb d k'.
Proof.
  intros H. induction d as [ | [k0 v0] d IH]; simpl.
  - now rewrite (eqb_diff k' k H).
  - destruct (eqb k k0) eqn:E; simpl.
    + apply eqb_spec in E. subst k0. now rewrite (eqb_diff k' k H).
    + now rewrite IH.
Qed.

Lemma dict_mem_set (d : list (K * V)) (k k' : K) (v : V) :
  dict_mem eqb (dict_set eqb d k v) k' = eqb k' k || dict_mem eqb d k'.
Proof.
  unfold dict_mem. destruct (eqb k' k) eqn:E.
  - apply eqb_spec in E. subst k'. now rewrite dict_get_set_same.
  - rewrite dict_get_set_other; [ reflexivity | ].
    intros ->. now rewrite eqb_same in E.
Qed.

Lemma dict_mem_In (d : list (K * V)) (k : K) :
  dict_mem eqb d k = true <-> In k (dict_keys d).
Proof.
  unfold dict_mem, dict_keys.
  induction d as [ | [k' v'] d IH]; simpl.
  - split; [ discriminate | tauto ].
  - destruct (eqb k k') eqn:E.
    + apply eqb_spec in E. subst k'. split; auto.
    + rewrite IH. split; [ auto | ].
      intros [-> | H]; [ now rewrite eqb_same in E | assumption ].
Qed.

(** An update leaves alone the keys it does not mention. *)
Lemma dict_get_update_other (d items : list (K * V)) (k : K) :
  ~ In k (map fst items) ->
  dict_get eqb (dict_update eqb d items) k = dict_get eqb d k.
Proof.
  unfold dict_update. revert d.
  induction items as [ | [k' v'] items IH]; intros d H; simpl.
  - reflexivity.
  - rewrite IH by (intros N; apply H; now right).
    apply dict_get_set_other. intros ->. apply H. now left.
Qed.

(** An update by [zip(keys, values)] with distinct keys maps the key at a
    place to the value at that place. *)
Lemma dict_get_update_zip (d : list (K * V)) (ks : list K) (vs : list V)
  (j : nat) (dk : K) (dv : V) :
  NoDup ks -> (j < length ks)%nat -> (j < length vs)%nat ->
  dict_get eqb (dict_update eqb d (combine ks vs)) (nth j ks dk)
  = Some (nth j vs dv).
Proof.
  unfold dict_update. revert d vs j.
  induction ks as [ | k ks IH]; intros d vs j Hnd Hj Hv;
    [ simpl in Hj; lia | ].
  destruct vs as [ | v vs]; [ simpl in Hv; lia | ].
  inversion Hnd as [ | ? ? Hnotin Hnd']; subst.
  destruct j as [ | j]; simpl.
  - change (fold_left (fun acc kv => dict_set eqb acc (fst kv) (snd kv))
              (combine ks vs) (dict_set eqb d k v))
      with (dict_update eqb (dict_set eqb d k v) (combine ks vs)).
    rewrite dict_get_update_other.
    + apply dict_get_set_same.
    + intros N. apply Hnotin. apply in_map_iff in N.
      destruct N as [[k' v'] [E N]]. simpl in E. subst k'.
      now apply in_combine_l in N.
  - apply IH; simpl in *; try assumption; lia.
Qed.

End DictFacts.

Lemma nat_eqb_spec (a b : nat) : Nat.eqb a b = true <-> a = b.
Proof. apply Nat.eqb_eq. Qed.

(** ** Control points of curved edges *)

Module CurvedFacts.

Import Predicates.

Lemma interior_linspace (n : nat) :
  EdgeLayout.interior (EdgeLayout.linspace 0 1 (n + 2))
  = map (fun j => INR j / INR (n + 1)) (seq 1 n).
Proof.
  unfold EdgeLayout.interior, EdgeLayout.linspace.
  replace (n + 2)%nat with (S (S n)) by lia.
  replace (S (S n) - 1)%nat with (n + 1)%nat by lia.
  change (seq 0 (S (S n))) with (0%nat :: seq 1 (S n)).
  cbn [map tl]. rewrite seq_S, map_app. cbn [map].
  rewrite removelast_last. apply map_ext. intros j.
  unfold Rdiv. ring.
Qed.

Lemma nth_map_seq_from {X : Type} (f : nat -> X) (s n j : nat) (d : X) :
  (j < n)%nat -> nth j (map f (seq s n)) d = f (s + j)%nat.
Proof.
  intros H.
  rewrite (nth_indep _ d (f O)) by (now rewrite length_map, length_seq).
  rewrite map_nth, seq_nth by assumption. reflexivity.
Qed.

(** The point at the fraction [j / (n + 1)] of the way from [source] to
    [target]. *)
Lemma fraction_strictly_inside (n j : nat) :
  (j < n)%nat -> 0 < INR (j + 1) / INR (n + 1) < 1.
Proof.
  intros H.
  assert (Hn : 0 < INR (n + 1)) by (apply lt_0_INR; lia).
  assert (Hj : 0 < INR (j + 1)) by (apply lt_0_INR; lia).
  assert (Hlt : INR (j + 1) < INR (n + 1)) by (apply lt_INR; lia).
  split.
  - apply Rmult_lt_0_compat; [ assumption | now apply Rinv_0_lt_compat ].
  - apply Rmult_lt_reg_r with (INR (n + 1)); [ assumption | ].
    unfold Rdiv. rewrite Rmult_assoc, Rinv_l by lra. lra.
Qed.

Section Seeds.
Variable orth : vec -> vec.

Lemma seed_positions_length e2cp node_positions bundle e cps :
  List.length (EdgeLayout.seed_positions orth e2cp node_positions bundle e cps)
  = List.length cps.
Proof.
  unfold EdgeLayout.seed_positions. destruct e as [source target].
  rewrite interior_linspace.
  destruct (negb bundle && _); now rewrite ?length_map, length_seq.
Qed.

(** The seed at place [j]. *)
Lemma seed_positions_nth e2cp node_positions bundle source target cps j :
  (j < List.length cps)%nat ->
  let delta := vsub (node_positions target) (node_positions source) in
  let on_line :=
    vadd (vscale (INR (j + 1) / INR (List.length cps + 1)) delta)
         (node_positions source) in
  nth j (EdgeLayout.seed_positions orth e2cp node_positions bundle
           (source, target) cps) vzero
  = if negb bundle && dict_mem edge_eqb e2cp (target, source)
    then vsub on_line (vscale (1e-3 * norm delta) (orth delta))
    else on_line.
Proof.
  intros Hj delta on_line. unfold EdgeLayout.seed_positions.
  rewrite interior_linspace, !map_map.
  destruct (negb bundle && dict_mem edge_eqb e2cp (target, source)).
  - rewrite nth_map_seq_from by assumption.
    subst on_line delta. now replace (1 + j)%nat with (j + 1)%nat by lia.
  - rewrite nth_map_seq_from by assumption.
    subst on_line delta. now replace (1 + j)%nat with (j + 1)%nat by lia.
Qed.

End Seeds.

(** *** The identifiers of the control points are fresh *)

Lemma NoDup_app_disjoint {X : Type} (l1 l2 : list X) (x : X) :
  NoDup (l1 ++ l2) -> In x l1 -> ~ In x l2.
Proof.
  induction l1 as [ | a l1 IH]; simpl; intros H Hin; [ tauto | ].
  inversion H as [ | ? ? Hnotin Hnd]; subst.
  destruct Hin as [-> | Hin].
  - intros N. apply Hnotin. apply in_or_app. now right.
  - now apply IH.
Qed.

Lemma ids_set_In d k v id :
  In id (ids (dict_set edge_eqb d k v)) -> In id v \/ In id (ids d).
Proof.
  unfold ids. induction d as [ | [k' v'] d IH]; simpl.
  - rewrite app_nil_r. auto.
  - destruct (edge_eqb k k'); simpl; rewrite !in_app_iff.
    + tauto.
    + intros [H | H]; [ tauto | ]. destruct (IH H); tauto.
Qed.

Lemma ids_set_NoDup d k v :
  NoDup (ids d) -> NoDup v -> (forall id, In id v -> ~ In id (ids d)) ->
  NoDup (ids (dict_set edge_eqb d k v)).
Proof.
  unfold ids. induction d as [ | [k' v'] d IH]; simpl; intros Hd Hv Hdis.
  - now rewrite app_nil_r.
  - destruct (edge_eqb k k'); simpl.
    + apply NoDup_app.
      * assumption.
      * now apply NoDup_app_remove_l in Hd.
      * intros id Hid N. apply (Hdis id Hid). apply in_or_app. now right.
    + apply NoDup_app.
      * now apply NoDup_app_remove_r in Hd.
      * apply IH.
        -- now apply NoDup_app_remove_l in Hd.
        -- assumption.
        -- intros id Hid N. apply (Hdis id Hid). apply in_or_app. now right.
      * intros id Hid N. apply ids_set_In in N. destruct N as [N | N].
        -- apply (Hdis id N). apply in_or_app. now left.
        -- now apply (NoDup_app_disjoint v' (flat_map snd d) id Hd).
Qed.

Section Init.
Variables (node_positions : node -> vec) (scale : vec).

Let count (e : edge) : nat :=
  Z.to_nat (EdgeLayout.total_control_points node_positions scale e).

Let step (acc : list (edge * list nat) * nat) (e : edge) :=
  (dict_set edge_eqb (fst acc) e (seq (snd acc) (count e)),
   (snd acc + count e)%nat).

Lemma init_is_fold edges next :
  EdgeLayout._initialize_nonloop_control_points edges node_positions scale next
  = fold_left step edges ([], next).
Proof. reflexivity. Qed.

(** Every edge of the list ends with a run of [count e] identifiers. *)
Lemma fold_step_get edges d next e :
  In e edges \/ (exists s, dict_get edge_eqb d e = Some (seq s (count e))) ->
  exists s, dict_get edge_eqb (fst (fold_left step edges (d, next))) e
            = Some (seq s (count e)).
Proof.
  revert d next; induction edges as [ | a edges IH]; intros d next H.
  - simpl. destruct H as [[] | H]; exact H.
  - simpl. apply IH.
    destruct (edge_eqb e a) eqn:E.
    + apply edge_eqb_eq in E. subst a. right. exists next.
      unfold step; cbn [fst snd].
      apply (dict_get_set_same edge_eqb edge_eqb_eq).
    + apply edge_eqb_neq in E. destruct H as [[-> | H] | [s H]].
      * contradiction.
      * now left.
      * right. exists s. unfold step; cbn [fst snd].
        now rewrite (dict_get_set_other edge_eqb edge_eqb_eq).
Qed.

(** The identifiers in the dictionary are distinct and below the next
    fresh one. *)
Lemma fold_step_fresh edges d next :
  NoDup (ids d) -> (forall id, In id (ids d) -> (id < next)%nat) ->
  NoDup (ids (fst (fold_left step edges (d, next)))).
Proof.
  revert d next; induction edges as [ | a edges IH]; intros d next Hnd Hlt.
  - exact Hnd.
  - simpl. apply IH; unfold step; cbn [fst snd].
    + apply ids_set_NoDup; [ assumption | apply seq_NoDup | ].
      intros id Hid N. apply in_seq in Hid. specialize (Hlt id N). lia.
    + intros id Hid. apply ids_set_In in Hid. destruct Hid as [Hid | Hid].
      * apply in_seq in Hid. lia.
      * specialize (Hlt id Hid). lia.
Qed.

End Init.

(** *** The positions given to the control points *)

Lemma dict_get_split (d : list (edge * list nat)) (e : edge) (cps : list nat) :
  dict_get edge_eqb d e = Some cps ->
  exists l1 l2, d = l1 ++ (e, cps) :: l2.
Proof.
  induction d as [ | [k v] d IH]; simpl; [ discriminate | ].
  destruct (edge_eqb e k) eqn:E.
  - intros H. inversion H; subst. apply edge_eqb_eq in E. subst.
    now exists [], d.
  - intros H. destruct (IH H) as [l1 [l2 ->]].
    now exists ((k, v) :: l1), l2.
Qed.

Section Positions.
Variables (orth : vec -> vec) (node_positions : node -> vec) (bundle : bool).
Variable e2cp : list (edge * list nat).

Let place (control_point_positions : list (nat * vec))
  (kv : edge * list nat) :=
  dict_update Nat.eqb control_point_positions
    (combine (snd kv)
       (EdgeLayout.seed_positions orth e2cp node_positions bundle
          (fst kv) (snd kv))).

Lemma fold_place_other items d c :
  ~ In c (ids items) ->
  dict_get Nat.eqb (fold_left place items d) c = dict_get Nat.eqb d c.
Proof.
  revert d; induction items as [ | kv items IH]; intros d H; simpl.
  - reflexivity.
  - rewrite IH by (intros N; apply H; unfold ids; simpl;
                   apply in_or_app; now right).
    unfold place. apply (dict_get_update_other Nat.eqb nat_eqb_spec).
    intros N. apply H. unfold ids; simpl. apply in_or_app. left.
    apply in_map_iff in N. destruct N as [[c' p] [E N]]. simpl in E. subst c'.
    now apply in_combine_l in N.
Qed.

(** With distinct identifiers, a control point gets the seed of its
    place. *)
Lemma fold_place_get l1 l2 e cps j :
  NoDup (ids (l1 ++ (e, cps) :: l2)) ->
  (j < List.length cps)%nat ->
  dict_get Nat.eqb (fold_left place (l1 ++ (e, cps) :: l2) []) (nth j cps O)
  = Some (nth j (EdgeLayout.seed_positions orth e2cp node_positions bundle
                   e cps) vzero).
Proof.
  intros Hnd Hj. rewrite fold_left_app. simpl.
  unfold ids in Hnd. rewrite flat_map_app in Hnd. simpl in Hnd.
  apply NoDup_app_remove_l in Hnd.
  rewrite fold_place_other.
  - unfold place; cbn [fst snd].
    apply (dict_get_update_zip Nat.eqb nat_eqb_spec).
    + now apply NoDup_app_remove_r in Hnd.
    + assumption.
    + now rewrite seed_positions_length.
  - apply (NoDup_app_disjoint cps (flat_map snd l2)); [ assumption | ].
    now apply nth_In.
Qed.

End Positions.

(** The number of control points of an edge and the seed of each of them,
    for any helper [_get_orthogonal_unit_vector]. *)
Lemma control_points_seeded
  (orth : vec -> vec) (edges : list edge) (node_positions : node -> vec)
  (scale : vec) (next : nat) (bundle : bool) (source target : node) :
  norm scale <> 0 ->
  In (source, target) edges ->
  let e2cp :=
    fst (EdgeLayout._initialize_nonloop_control_points edges node_positions
           scale next) in
  let cpp :=
    EdgeLayout._initialize_nonloop_control_point_positions orth e2cp
      node_positions bundle in
  let delta := vsub (node_positions target) (node_positions source) in
  exists cps,
    dict_get edge_eqb e2cp (source, target) = Some cps
    /\ Z.of_nat (List.length cps)
       = Z.min (Z.max (Zfloor (10 * norm delta / norm scale)) 1) 5
    /\ (1 <= List.length cps <= 5)%nat
    /\ forall j, (j < List.length cps)%nat ->
         let f := INR (j + 1) / INR (List.length cps + 1) in
         let on_line := vadd (vscale f delta) (node_positions source) in
         0 < f < 1
         /\ dict_get Nat.eqb cpp (nth j cps O)
            = Some (if negb bundle
                       && dict_mem edge_eqb e2cp (target, source)
                    then vsub on_line
                           (vscale (1e-3 * norm delta) (orth delta))
                    else on_line).
Proof.
  intros Hscale Hin. cbv zeta.
  set (delta := vsub (node_positions target) (node_positions source)).
  remember (fst (EdgeLayout._initialize_nonloop_control_points edges
                   node_positions scale next)) as e2cp eqn:He.
  set (total := EdgeLayout.total_control_points node_positions scale
                  (source, target)).
  assert (Hnonneg : 0 <= norm delta / norm scale * 10).
  { pose proof (norm_nonneg delta). pose proof (norm_nonneg scale).
    assert (0 < / norm scale) by (apply Rinv_0_lt_compat; lra).
    unfold Rdiv. nra. }
  assert (Htotal : total = Z.min (Z.max (Zfloor (10 * norm delta / norm scale))
                                        1) 5).
  { unfold total, EdgeLayout.total_control_points, EdgeLayout.py_int.
    cbn [fst snd]. fold delta.
    destruct (Rle_dec 0 (norm delta / norm scale * 10)); [ | contradiction ].
    do 3 f_equal. unfold Rdiv. ring. }
  destruct (fold_step_get node_positions scale edges [] next (source, target)
              (or_introl Hin)) as [s Hs].
  assert (Hget : dict_get edge_eqb e2cp (source, target)
                 = Some (seq s (Z.to_nat total)))
    by (rewrite He; exact Hs).
  assert (Hnd : NoDup (ids e2cp)).
  { rewrite He.
    refine (fold_step_fresh node_positions scale edges [] next _ _).
    - constructor.
    - intros id []. }
  exists (seq s (Z.to_nat total)).
  assert (Hlen : List.length (seq s (Z.to_nat total)) = Z.to_nat total)
    by apply length_seq.
  split; [ exact Hget | ]. split; [ rewrite Hlen; lia | ].
  split; [ rewrite Hlen; lia | ].
  intros j Hj. split.
  - now apply fraction_strictly_inside.
  - destruct (dict_get_split _ _ _ Hget) as [l1 [l2 Hsplit]].
    assert (Hnd' : NoDup (ids (l1 ++ ((source, target),
                                      seq s (Z.to_nat total)) :: l2)))
      by (now rewrite <- Hsplit).
    pose proof (fold_place_get orth node_positions bundle e2cp l1 l2
                  (source, target) (seq s (Z.to_nat total)) j Hnd' Hj)
      as Hplace.
    rewrite <- Hsplit in Hplace.
    unfold EdgeLayout._initialize_nonloop_control_point_positions.
    etransitivity; [ exact Hplace | ].
    f_equal. now apply seed_positions_nth.
Qed.

End CurvedFacts.

(** C8, as the code has it.  Every edge handed to the curved router gets
    [min(max(floor(10 * length / norm(scale)), 1), 5)] control points,
    between 1 and 5.  The control point at place [j] is seeded at the
    fraction [(j + 1) / (n + 1)] of the way from the source to the target,
    strictly between the two; it lies on the straight line between them
    unless parallel edges are not bundled and the reverse edge is routed
    too, in which case it is moved off the line by [1e-3] times the length
    of the edge along the orthogonal unit vector. *)
Theorem curved_control_points_are_seeded :
  forall (orth : vec -> vec) (edges : list edge) (node_positions : node -> vec)
         (scale : vec) (next : nat) (bundle : bool) (source target : node),
    norm scale <> 0 ->
    In (source, target) edges ->
    let e2cp :=
      fst (EdgeLayout._initialize_nonloop_control_points edges node_positions
             scale next) in
    let cpp :=
      EdgeLayout._initialize_nonloop_control_point_positions orth e2cp
        node_positions bundle in
    let delta := vsub (node_positions target) (node_positions source) in
    exists cps,
      dict_get edge_eqb e2cp (source, target) = Some cps
      /\ Z.of_nat (List.length cps)
         = Z.min (Z.max (Zfloor (10 * norm delta / norm scale)) 1) 5
      /\ (1 <= List.length cps <= 5)%nat
      /\ forall j, (j < List.length cps)%nat ->
           let f := INR (j + 1) / INR (List.length cps + 1) in
           let on_line := vadd (vscale f delta) (node_positions source) in
           0 < f < 1
           /\ dict_get Nat.eqb cpp (nth j cps O)
              = Some (if negb bundle
                         && dict_mem edge_eqb e2cp (target, source)
                      then vsub on_line
                             (vscale (1e-3 * norm delta) (orth delta))
                      else on_line).
Proof.
  intros orth edges node_positions scale next bundle source target Hs Hin.
  exact (CurvedFacts.control_points_seeded orth edges node_positions scale
           next bundle source target Hs Hin).
Qed.

Lemma norm_3_4 : norm (3, 4) = 5.
Proof. apply norm_of_square; lra. Qed.

Lemma curved_control_points_witness :
  norm (3, 4) <> 0
  /\ In (0, 1)%nat [(0, 1)%nat]
  /\ exists cps,
      dict_get edge_eqb
        (fst (EdgeLayout._initialize_nonloop_control_points [(0, 1)%nat]
                (fun n => if Nat.eqb n 0 then (0, 0) else (1, 0)) (3, 4) 0))
        (0, 1)%nat = Some cps
      /\ (1 <= List.length cps <= 5)%nat.
Proof.
  assert (H1 : norm (3, 4) <> 0) by (rewrite norm_3_4; lra).
  assert (H2 : In (0, 1)%nat [(0, 1)%nat]) by (now left).
  split; [ exact H1 | ]. split; [ exact H2 | ].
  destruct (curved_control_points_are_seeded
              UtilsModel.get_orthogonal_unit_vector [(0, 1)%nat]
              (fun n => if Nat.eqb n 0 then (0, 0) else (1, 0)) (3, 4) 0 true
              0%nat 1%nat H1 H2) as [cps [Hget [_ [Hlen _]]]].
  exists cps. split; [ exact Hget | exact Hlen ].
Defined.

(** C8, as stated, fails.  With the edges (0, 1) and (1, 0) between the
    nodes at (0, 0) and (1, 0), a canvas of scale (3, 4) and parallel edges
    not bundled, the first control point of the edge (0, 1) is seeded at a
    point that is on no place of the straight line through the two
    nodes. *)
Lemma seed_is_off_the_line :
  exists cps p,
    dict_get edge_eqb
      (fst (EdgeLayout._initialize_nonloop_control_points
              [(0, 1)%nat; (1, 0)%nat]
              (fun n => if Nat.eqb n 0 then (0, 0) else (1, 0)) (3, 4) 0))
      (0, 1)%nat = Some cps
    /\ dict_get Nat.eqb
         (EdgeLayout._initialize_nonloop_control_point_positions
            UtilsModel.get_orthogonal_unit_vector
            (fst (EdgeLayout._initialize_nonloop_control_points
                    [(0, 1)%nat; (1, 0)%nat]
                    (fun n => if Nat.eqb n 0 then (0, 0) else (1, 0))
                    (3, 4) 0))
            (fun n => if Nat.eqb n 0 then (0, 0) else (1, 0)) false)
         (nth 0 cps O) = Some p
    /\ forall f, p <> vadd (vscale f (vsub (1, 0) (0, 0))) (0, 0).
Proof.
  assert (H1 : norm (3, 4) <> 0) by (rewrite norm_3_4; lra).
  destruct (CurvedFacts.control_points_seeded
              UtilsModel.get_orthogonal_unit_vector
              [(0, 1)%nat; (1, 0)%nat]
              (fun n => if Nat.eqb n 0 then (0, 0) else (1, 0)) (3, 4) 0 false
              0%nat 1%nat H1 (or_introl eq_refl))
    as [cps [Hget [_ [Hlen Hseed]]]].
  destruct (CurvedFacts.control_points_seeded
              UtilsModel.get_orthogonal_unit_vector
              [(0, 1)%nat; (1, 0)%nat]
              (fun n => if Nat.eqb n 0 then (0, 0) else (1, 0)) (3, 4) 0 false
              1%nat 0%nat H1 (or_intror (or_introl eq_refl)))
    as [cps' [Hget' _]].
  destruct (Hseed 0%nat ltac:(lia)) as [_ Hp].
  cbv zeta in Hp. cbn [Nat.eqb negb andb] in Hp.
  unfold dict_mem in Hp. rewrite Hget' in Hp.
  eexists cps, _. split; [ exact Hget | ]. split; [ exact Hp | ].
  intros f E. apply (f_equal snd) in E. revert E.
  unfold UtilsModel.get_orthogonal_unit_vector, vsub, vadd, vscale, vdiv.
  cbn [fst snd].
  rewrite (norm_of_square (1 - 0) (0 - 0) 1) by lra.
  rewrite (norm_of_square (- (0 - 0)) (1 - 0) 1) by lra.
  lra.
Qed.

(** ** The keys of the dictionaries of paths *)

Module KeyFacts.

Lemma dict_mem_set_edge {V : Type} (d : list (edge * V)) (k k' : edge) (v : V) :
  dict_mem edge_eqb (dict_set edge_eqb d k v) k'
  = edge_eqb k' k || dict_mem edge_eqb d k'.
Proof. apply (dict_mem_set edge_eqb edge_eqb_eq). Qed.

(** A loop that assigns one key per item adds the keys of the items. *)
Lemma dict_mem_fold_set {X V : Type} (key : X -> edge)
  (val : list (edge * V) -> X -> V) (l : list X) (d : list (edge * V))
  (k : edge) :
  dict_mem edge_eqb
    (fold_left (fun d x => dict_set edge_eqb d (key x) (val d x)) l d) k
  = dict_mem edge_eqb d k || existsb (fun x => edge_eqb k (key x)) l.
Proof.
  revert d; induction l as [ | x l IH]; intros d; simpl.
  - now rewrite orb_false_r.
  - rewrite IH, dict_mem_set_edge.
    destruct (edge_eqb k (key x)), (dict_mem edge_eqb d k); reflexivity.
Qed.

Lemma dict_mem_existsb {V : Type} (d : list (edge * V)) (k : edge) :
  dict_mem edge_eqb d k = existsb (fun kv => edge_eqb k (fst kv)) d.
Proof.
  unfold dict_mem. induction d as [ | [k' v] d IH]; simpl.
  - reflexivity.
  - destruct (edge_eqb k k'); [ reflexivity | exact IH ].
Qed.

Lemma dict_mem_update {V : Type} (d items : list (edge * V)) (k : edge) :
  dict_mem edge_eqb (dict_update edge_eqb d items) k
  = dict_mem edge_eqb d k || dict_mem edge_eqb items k.
Proof.
  unfold dict_update.
  rewrite (dict_mem_fold_set fst (fun _ kv => snd kv)).
  now rewrite <- dict_mem_existsb.
Qed.

(** Rewriting the values keeps the keys. *)
Lemma dict_mem_map_values {V W : Type} (g : edge * V -> W)
  (d : list (edge * V)) (k : edge) :
  dict_mem edge_eqb (map (fun kv => (fst kv, g kv)) d) k
  = dict_mem edge_eqb d k.
Proof.
  rewrite !dict_mem_existsb.
  induction d as [ | kv d IH]; simpl; [ reflexivity | now rewrite IH ].
Qed.

Lemma existsb_edge_In (k : edge) (l : list edge) :
  existsb (fun e => edge_eqb k e) l = mem_edge k l.
Proof. reflexivity. Qed.

Lemma mem_edge_filter (f : edge -> bool) (l : list edge) (k : edge) :
  mem_edge k (filter f l) = mem_edge k l && f k.
Proof.
  apply eq_true_iff_eq.
  rewrite andb_true_iff, !mem_edge_In, filter_In. tauto.
Qed.

Lemma dict_mem_get {V : Type} (d : list (edge * V)) (k : edge) :
  dict_mem edge_eqb d k = true <-> exists v, dict_get edge_eqb d k = Some v.
Proof.
  unfold dict_mem. destruct (dict_get edge_eqb d k) as [v | ].
  - split; eauto.
  - split; [ discriminate | intros [v H]; discriminate ].
Qed.

Lemma dict_mem_false {V : Type} (d : list (edge * V)) (k : edge) :
  dict_mem edge_eqb d k = false <-> dict_get edge_eqb d k = None.
Proof.
  unfold dict_mem. destruct (dict_get edge_eqb d k) as [v | ].
  - split; discriminate.
  - split; reflexivity.
Qed.

End KeyFacts.

(** ** Straight edges *)

Module StraightFacts.

Import KeyFacts.

(** *** The router of [_main.py] *)

Lemma main_step_paths edge_list node_positions edge_width acc e k :
  dict_mem edge_eqb
    (fst (Main.straight_edge_step edge_list node_positions edge_width acc e)) k
  = dict_mem edge_eqb (fst acc) k
    || (edge_eqb k e && negb (Nat.eqb (fst e) (snd e))).
Proof.
  unfold Main.straight_edge_step.
  destruct acc as [edge_paths warnings], e as [source target].
  cbn [fst snd]. destruct (Nat.eqb source target).
  - cbn [fst]. now rewrite andb_false_r, orb_false_r.
  - destruct (node_positions source) as [x1 y1],
             (node_positions target) as [x2 y2].
    destruct (mem_edge (target, source) edge_list).
    + unfold Main._shift_edge.
      destruct (vscale _ _) as [dx dy]. cbn [fst].
      rewrite dict_mem_set_edge, andb_true_r. apply orb_comm.
    + cbn [fst]. rewrite dict_mem_set_edge, andb_true_r. apply orb_comm.
Qed.

Lemma main_step_warnings edge_list node_positions edge_width acc e :
  snd (Main.straight_edge_step edge_list node_positions edge_width acc e)
  = snd acc ++ (if Nat.eqb (fst e) (snd e)
                then [Main.SelfloopIgnored e] else []).
Proof.
  unfold Main.straight_edge_step.
  destruct acc as [edge_paths warnings], e as [source target].
  cbn [fst snd]. destruct (Nat.eqb source target).
  - reflexivity.
  - destruct (node_positions source) as [x1 y1],
             (node_positions target) as [x2 y2].
    destruct (mem_edge (target, source) edge_list).
    + unfold Main._shift_edge.
      destruct (vscale _ _) as [dx dy]. cbn [snd]. now rewrite app_nil_r.
    + cbn [snd]. now rewrite app_nil_r.
Qed.

Lemma main_fold edge_list node_positions edge_width l acc :
  let r := fold_left
             (Main.straight_edge_step edge_list node_positions edge_width)
             l acc in
  (forall k, dict_mem edge_eqb (fst r) k
             = dict_mem edge_eqb (fst acc) k
               || (mem_edge k l && negb (Nat.eqb (fst k) (snd k))))
  /\ (forall e, In e l -> Nat.eqb (fst e) (snd e) = true ->
                In (Main.SelfloopIgnored e) (snd r))
  /\ (forall w, In w (snd acc) -> In w (snd r)).
Proof.
  revert acc; induction l as [ | e l IH]; intros acc; cbn zeta.
  - simpl. repeat split; try tauto.
    intros k. now rewrite orb_false_r.
  - simpl fold_left.
    destruct (IH (Main.straight_edge_step edge_list node_positions
                    edge_width acc e)) as [IH1 [IH2 IH3]].
    repeat split.
    + intros k. rewrite IH1, main_step_paths. cbn [mem_edge existsb].
      fold (mem_edge k l).
      destruct (edge_eqb k e) eqn:E.
      * apply edge_eqb_eq in E. subst k.
        destruct (dict_mem edge_eqb (fst acc) e),
          (negb (Nat.eqb (fst e) (snd e))), (mem_edge e l); reflexivity.
      * destruct (dict_mem edge_eqb (fst acc) k),
          (negb (Nat.eqb (fst k) (snd k))), (mem_edge k l); reflexivity.
    + intros e' [-> | Hin] Hloop.
      * apply IH3. rewrite main_step_warnings, Hloop.
        apply in_or_app. right. now left.
      * now apply IH2.
    + intros w Hw. apply IH3. rewrite main_step_warnings.
      apply in_or_app. now left.
Qed.

(** The router of [_main.py] drops every self-loop with a warning and
    routes every other edge. *)
Lemma main_straight_drops_selfloops edge_list node_positions edge_width :
  let r := Main._get_straight_edge_paths edge_list node_positions edge_width in
  (forall e, In e edge_list -> Nat.eqb (fst e) (snd e) = true ->
             dict_get edge_eqb (fst r) e = None
             /\ In (Main.SelfloopIgnored e) (snd r))
  /\ (forall e, In e edge_list -> Nat.eqb (fst e) (snd e) = false ->
                exists p, dict_get edge_eqb (fst r) e = Some p).
Proof.
  cbn zeta. unfold Main._get_straight_edge_paths.
  destruct (main_fold edge_list node_positions edge_width edge_list ([], []))
    as [H1 [H2 _]].
  split.
  - intros e Hin Hloop. split; [ | now apply H2 ].
    apply dict_mem_false. rewrite H1, Hloop.
    cbn [negb]. now rewrite andb_false_r.
  - intros e Hin Hloop. apply dict_mem_get. rewrite H1, Hloop.
    apply (proj2 (mem_edge_In e edge_list)) in Hin. now rewrite Hin.
Qed.

End StraightFacts.

Module EdgeLayoutStraightFacts.

Import KeyFacts.

Lemma nonloops_or_selfloops (edges : list edge) (k : edge) :
  mem_edge k (EdgeLayout.nonloops_of edges)
  || mem_edge k (EdgeLayout.selfloops_of edges)
  = mem_edge k edges.
Proof.
  unfold EdgeLayout.nonloops_of, EdgeLayout.selfloops_of.
  rewrite !mem_edge_filter.
  destruct (mem_edge k edges), (EdgeLayout.is_selfloop k); reflexivity.
Qed.

Lemma nonloop_fold_mem (node_positions : node -> vec) (l : list edge)
  (d : list (edge * polyline)) (k : edge) :
  dict_mem edge_eqb
    (fold_left (fun edge_paths e =>
                  let '(x1, y1) := node_positions (fst e) in
                  let '(x2, y2) := node_positions (snd e) in
                  dict_set edge_eqb edge_paths e [(x1, y1); (x2, y2)])
               l d) k
  = dict_mem edge_eqb d k || mem_edge k l.
Proof.
  revert d; induction l as [ | e l IH]; intros d; simpl.
  - now rewrite orb_false_r.
  - rewrite IH.
    destruct (node_positions (fst e)) as [x1 y1],
             (node_positions (snd e)) as [x2 y2].
    rewrite dict_mem_set_edge.
    destruct (edge_eqb k e), (dict_mem edge_eqb d k); reflexivity.
Qed.

Lemma _get_straight_nonloop_edge_paths_mem edges node_positions k :
  dict_mem edge_eqb
    (EdgeLayout._get_straight_nonloop_edge_paths edges node_positions) k
  = mem_edge k edges.
Proof.
  unfold EdgeLayout._get_straight_nonloop_edge_paths.
  now rewrite nonloop_fold_mem.
Qed.

Section Helpers.
Variable _get_unit_vector : vec -> vec.
Variable _get_angle : R -> R -> R.
Variable _get_n_points_on_a_circle : vec -> R -> nat -> R -> polyline.
Variable _resample_spline : polyline -> nat -> polyline.
Variable _get_optimal_offsets : list vec -> list R -> list vec -> list vec.
Variable _normalize_numeric_argument :
  EdgeLayout.numeric_arg -> list edge -> option (list (edge * R)).

Lemma selfloop_fold_mem node_positions selfloop_radius selfloop_angle
  total_points (l : list edge) acc d :
  fold_left (fun acc e =>
               match acc, dict_get edge_eqb selfloop_radius e,
                     dict_get edge_eqb selfloop_angle e with
               | Some edge_paths, Some radius, Some angle =>
                   Some (dict_set edge_eqb edge_paths e
                           (EdgeLayout._get_selfloop_path _get_unit_vector
                              _get_angle _get_n_points_on_a_circle
                              (node_positions (fst e)) radius angle
                              total_points))
               | _, _, _ => None
               end)
            l acc = Some d ->
  exists d0, acc = Some d0
             /\ forall k, dict_mem edge_eqb d k
                          = dict_mem edge_eqb d0 k || mem_edge k l.
Proof.
  revert acc; induction l as [ | e l IH]; intros acc H; simpl in H.
  - exists d. split; [ assumption | ].
    intros k. now rewrite orb_false_r.
  - destruct (IH _ H) as [d1 [E1 Hd1]].
    destruct acc as [d0 | ]; [ | discriminate ].
    destruct (dict_get edge_eqb selfloop_radius e) as [radius | ];
      [ | discriminate ].
    destruct (dict_get edge_eqb selfloop_angle e) as [angle | ];
      [ | discriminate ].
    inversion E1; subst d1. exists d0. split; [ reflexivity | ].
    intros k. rewrite Hd1, dict_mem_set_edge. cbn [mem_edge existsb].
    fold (mem_edge k l).
    destruct (edge_eqb k e), (dict_mem edge_eqb d0 k); reflexivity.
Qed.

(** Whenever [get_straight_edge_paths] returns, every edge of the list,
    self-loops included, has a path, and no warning was issued. *)
Lemma straight_routes_every_edge edges node_positions selfloop_radius
  selfloop_angle r :
  EdgeLayout.get_straight_edge_paths _get_unit_vector _get_angle
    _get_n_points_on_a_circle _resample_spline _get_optimal_offsets
    _normalize_numeric_argument edges node_positions selfloop_radius
    selfloop_angle = Some r ->
  (forall e, In e edges -> exists p, dict_get edge_eqb (fst r) e = Some p)
  /\ snd r = [].
Proof.
  unfold EdgeLayout.get_straight_edge_paths. intros H.
  assert (Hkeys : forall k, dict_mem edge_eqb (fst r) k = mem_edge k edges
                            /\ snd r = []).
  { intros k. rewrite <- (nonloops_or_selfloops edges k).
    destruct (EdgeLayout.selfloops_of edges) as [ | s selfloops] eqn:Es.
    - inversion H; subst r. cbn [fst snd]. split; [ | reflexivity ].
      rewrite dict_mem_update, _get_straight_nonloop_edge_paths_mem.
      change (mem_edge k []) with false. now rewrite orb_false_r.
    - destruct (_normalize_numeric_argument selfloop_radius (s :: selfloops))
        as [radius | ]; [ | discriminate ].
      destruct (match selfloop_angle with
                | Some a => _normalize_numeric_argument a (s :: selfloops)
                | None => _
                end) as [angle | ]; [ | discriminate ].
      destruct (EdgeLayout._get_straight_selfloop_edge_paths _ _ _ _ _ _ _ _)
        as [selfloop_edge_paths | ] eqn:Ep; [ | discriminate ].
      inversion H; subst r. cbn [fst snd]. split; [ | reflexivity ].
      unfold EdgeLayout._get_straight_selfloop_edge_paths in Ep.
      apply selfloop_fold_mem in Ep. destruct Ep as [d0 [E0 Hmem]].
      inversion E0; subst d0.
      rewrite !dict_mem_update, _get_straight_nonloop_edge_paths_mem, Hmem.
      reflexivity. }
  split; [ | exact (proj2 (Hkeys (0%nat, 0%nat))) ].
  intros e Hin. apply dict_mem_get. rewrite (proj1 (Hkeys e)).
  now apply mem_edge_In.
Qed.

End Helpers.

End EdgeLayoutStraightFacts.

(** ** Bundled edges *)

Module BundledFacts.

Import KeyFacts.
Import Predicates.

Lemma combinations2_In {X : Type} (l : list X) (x y : X) :
  In (x, y) (EdgeLayout.combinations2 l) -> In x l /\ In y l.
Proof.
  induction l as [ | a l IH]; simpl; [ tauto | ].
  rewrite in_app_iff, in_map_iff. intros [[z [E Hz]] | H].
  - inversion E; subst. auto.
  - destruct (IH H). auto.
Qed.

(** The pairs scored by [_get_edge_compatibility] are pairs of edges of
    the list. *)
Lemma _get_edge_compatibility_edges edges node_positions threshold c :
  In c (EdgeLayout._get_edge_compatibility edges node_positions threshold) ->
  In (fst (fst (fst c))) edges /\ In (snd (fst (fst c))) edges.
Proof.
  unfold EdgeLayout._get_edge_compatibility. rewrite in_flat_map.
  intros [[e1 e2] [Hin Hc]]. cbn [fst snd] in Hc.
  destruct (EdgeLayout.pair_compatibility _ _ _); [ | destruct Hc ].
  destruct Hc as [<- | []]. cbn [fst snd].
  now apply combinations2_In.
Qed.

Lemma _get_Fe_mem e2cp compat out k :
  dict_mem edge_eqb (EdgeLayout._get_Fe e2cp compat out) k
  = dict_mem edge_eqb out k || existsb (touches k) compat.
Proof.
  unfold EdgeLayout._get_Fe. revert out.
  induction compat as [ | [[[e1 e2] compatibility] reverse] compat IH];
    intros out; simpl.
  - now rewrite orb_false_r.
  - rewrite IH, !dict_mem_set_edge. unfold touches; cbn [fst snd].
    destruct (edge_eqb k e1), (edge_eqb k e2), (dict_mem edge_eqb out k);
      reflexivity.
Qed.

Lemma _get_Fs_mem e2cp edge_to_k k :
  dict_mem edge_eqb (EdgeLayout._get_Fs e2cp edge_to_k) k
  = dict_mem edge_eqb e2cp k.
Proof. unfold EdgeLayout._get_Fs. apply dict_mem_map_values. Qed.

Lemma _update_control_point_positions_mem e2cp F step_size k :
  dict_mem edge_eqb
    (EdgeLayout._update_control_point_positions e2cp F step_size) k
  = dict_mem edge_eqb e2cp k || dict_mem edge_eqb F k.
Proof.
  unfold EdgeLayout._update_control_point_positions.
  rewrite (dict_mem_fold_set fst
             (fun e2cp kv =>
                EdgeLayout.map2 vadd (EdgeLayout.dict_at e2cp (fst kv) [])
                  (EdgeLayout.clamped_displacement (snd kv) step_size))).
  now rewrite <- dict_mem_existsb.
Qed.

Section Keys.
Variables (edges : list edge) (edge_to_k : list (edge * R)).
Variable compat : list (edge * edge * R * bool).
Hypothesis compat_edges :
  forall c, In c compat ->
            In (fst (fst (fst c))) edges /\ In (snd (fst (fst c))) edges.

Lemma touches_edges k : existsb (touches k) compat = true -> mem_edge k edges = true.
Proof.
  rewrite existsb_exists. intros [c [Hc Ht]].
  destruct (compat_edges c Hc) as [H1 H2].
  unfold touches in Ht. apply orb_true_iff in Ht.
  apply mem_edge_In.
  destruct Ht as [Ht | Ht]; apply edge_eqb_eq in Ht; now subst k.
Qed.

Lemma bundle_iterations_keys n step_size d :
  keys_are edges d ->
  keys_are edges (EdgeLayout.bundle_iterations n edge_to_k compat step_size d).
Proof.
  revert d; induction n as [ | n IH]; intros d Hd; simpl.
  - exact Hd.
  - apply IH. intros k.
    rewrite _update_control_point_positions_mem, _get_Fe_mem, _get_Fs_mem, Hd.
    destruct (mem_edge k edges) eqn:E; [ reflexivity | ].
    destruct (existsb (touches k) compat) eqn:T; [ | reflexivity ].
    apply touches_edges in T. congruence.
Qed.

Lemma bundle_cycles_keys cycles n step_size d :
  keys_are edges d ->
  keys_are edges (EdgeLayout.bundle_cycles cycles edge_to_k compat n step_size d).
Proof.
  revert n step_size d; induction cycles as [ | cycles IH];
    intros n step_size d Hd; simpl.
  - exact Hd.
  - apply IH. apply bundle_iterations_keys. intros k.
    unfold EdgeLayout._expand_control_points.
    now rewrite dict_mem_map_values.
Qed.

End Keys.

Lemma _initialize_bundled_control_points_mem edges node_positions k :
  dict_mem edge_eqb
    (EdgeLayout._initialize_bundled_control_points edges node_positions) k
  = mem_edge k edges.
Proof.
  unfold EdgeLayout._initialize_bundled_control_points.
  rewrite (dict_mem_fold_set (fun e : edge => e)
             (fun _ e => [node_positions (fst e); node_positions (snd e)])).
  reflexivity.
Qed.

(** The canonical directions are edges of the list. *)
Lemma unidirectional_of_In (edges : list edge) (k : edge) :
  In k (EdgeLayout.unidirectional_of edges) -> In k edges.
Proof.
  unfold EdgeLayout.unidirectional_of.
  assert (H : forall l acc,
             In k (fold_left
                     (fun unidirectional_edges e =>
                        if mem_edge (snd e, fst e) unidirectional_edges
                        then unidirectional_edges
                        else if mem_edge e unidirectional_edges
                             then unidirectional_edges
                             else unidirectional_edges ++ [e]) l acc) ->
             In k acc \/ In k l).
  { induction l as [ | e l IH]; intros acc Hk; simpl in *; [ now left | ].
    apply IH in Hk. destruct Hk as [Hk | Hk]; [ | tauto ].
    destruct (mem_edge (snd e, fst e) acc); [ tauto | ].
    destruct (mem_edge e acc); [ tauto | ].
    apply in_app_iff in Hk. destruct Hk as [Hk | [-> | []]]; tauto. }
  intros Hk. destruct (H edges [] Hk) as [[] | Hin]. exact Hin.
Qed.

Lemma distinct_In (l : list edge) (k : edge) :
  In k (EdgeLayout.distinct l) <-> In k l.
Proof.
  induction l as [ | e l IH]; simpl; [ tauto | ].
  destruct (mem_edge e l) eqn:E.
  - rewrite IH. apply mem_edge_In in E. split; [ tauto | ].
    intros [-> | H]; assumption.
  - simpl. rewrite IH. tauto.
Qed.

Lemma reverse_of_mem (edges uni : list edge) (k : edge) :
  mem_edge k (EdgeLayout.reverse_of edges uni)
  = mem_edge k edges && negb (mem_edge k uni).
Proof.
  unfold EdgeLayout.reverse_of. rewrite mem_edge_filter. f_equal.
  apply eq_true_iff_eq. rewrite !mem_edge_In. apply distinct_In.
Qed.

Section Bundled.
Variable UnivariateSpline : list R -> list R -> nat -> R -> R -> R.

(** The paths returned by the body of [get_bundled_edge_paths] are those
    of the edges that are no self-loops, and the warning is issued as soon
    as there is a self-loop. *)
Lemma bundled_edge_paths_keys edges node_positions k th cycles iters step
  straighten e :
  dict_mem edge_eqb
    (fst (EdgeLayout.bundled_edge_paths UnivariateSpline edges node_positions
            k th cycles iters step straighten)) e
  = mem_edge e edges && negb (EdgeLayout.is_selfloop e).
Proof.
  unfold EdgeLayout.bundled_edge_paths. cbn [fst].
  set (edges' := if existsb EdgeLayout.is_selfloop edges
                 then EdgeLayout.nonloops_of edges else edges).
  set (uni := EdgeLayout.unidirectional_of edges').
  assert (Hedges' : mem_edge e edges'
                    = mem_edge e edges && negb (EdgeLayout.is_selfloop e)).
  { unfold edges'. destruct (existsb EdgeLayout.is_selfloop edges) eqn:Ex.
    - unfold EdgeLayout.nonloops_of. apply mem_edge_filter.
    - destruct (mem_edge e edges) eqn:Em; [ | reflexivity ].
      apply mem_edge_In in Em.
      destruct (EdgeLayout.is_selfloop e) eqn:El; [ | reflexivity ].
      assert (existsb EdgeLayout.is_selfloop edges = true)
        by (apply existsb_exists; eauto).
      congruence. }
  rewrite (dict_mem_fold_set (fun e : edge => e)
             (fun d e => rev (EdgeLayout.dict_at d (snd e, fst e) []))).
  change (existsb (fun x : edge => edge_eqb e x)
            (EdgeLayout.reverse_of edges' uni))
    with (mem_edge e (EdgeLayout.reverse_of edges' uni)).
  rewrite reverse_of_mem.
  unfold EdgeLayout._smooth_edges. rewrite dict_mem_map_values.
  assert (Hcycles :
            keys_are uni
              (EdgeLayout.bundle_cycles cycles
                 (EdgeLayout._get_k uni node_positions k)
                 (EdgeLayout._get_edge_compatibility uni node_positions th)
                 iters step
                 (EdgeLayout._initialize_bundled_control_points uni
                    node_positions))).
  { apply bundle_cycles_keys.
    - apply _get_edge_compatibility_edges.
    - intros x. apply _initialize_bundled_control_points_mem. }
  assert (Hstr : dict_mem edge_eqb
                   (if Rlt_dec 0 straighten
                    then EdgeLayout._straighten_edges
                           (EdgeLayout.bundle_cycles cycles
                              (EdgeLayout._get_k uni node_positions k)
                              (EdgeLayout._get_edge_compatibility uni
                                 node_positions th)
                              iters step
                              (EdgeLayout._initialize_bundled_control_points
                                 uni node_positions)) straighten
                    else EdgeLayout.bundle_cycles cycles
                           (EdgeLayout._get_k uni node_positions k)
                           (EdgeLayout._get_edge_compatibility uni
                              node_positions th)
                           iters step
                           (EdgeLayout._initialize_bundled_control_points
                              uni node_positions)) e
                 = mem_edge e uni).
  { destruct (Rlt_dec 0 straighten).
    - unfold EdgeLayout._straighten_edges. rewrite dict_mem_map_values.
      apply Hcycles.
    - apply Hcycles. }
  rewrite Hstr, <- Hedges'.
  destruct (mem_edge e uni) eqn:Eu.
  - apply mem_edge_In, unidirectional_of_In, mem_edge_In in Eu.
    now rewrite Eu.
  - cbn [negb orb]. now rewrite andb_true_r.
Qed.

Lemma bundled_edge_paths_warnings edges node_positions k th cycles iters step
  straighten :
  snd (EdgeLayout.bundled_edge_paths UnivariateSpline edges node_positions
         k th cycles iters step straighten)
  = if existsb EdgeLayout.is_selfloop edges
    then [EdgeLayout.SelfloopBundlingUnsupported] else [].
Proof. reflexivity. Qed.

End Bundled.

End BundledFacts.

Module ComponentFacts.

Import KeyFacts.
Import Predicates.

Section Layout.
Variable layout_function :
  list edge -> (node -> vec) -> list (edge * polyline) * list EdgeLayout.warning.
Variables (edges : list edge) (node_positions : node -> vec).

Lemma multiple_components_fold components acc :
  let r :=
    fold_left (fun acc component =>
                 let component_edges :=
                   filter (fun e => mem_nat (fst e) component
                                    && mem_nat (snd e) component) edges in
                 let r := layout_function component_edges node_positions in
                 (dict_update edge_eqb (fst acc) (fst r), snd acc ++ snd r))
              components acc in
  (forall k, dict_mem edge_eqb (fst r) k
             = dict_mem edge_eqb (fst acc) k
               || existsb (fun c =>
                             dict_mem edge_eqb
                               (fst (layout_function (component_edges edges c)
                                       node_positions)) k) components)
  /\ (forall w, In w (snd acc) -> In w (snd r))
  /\ (forall w c, In c components ->
                  In w (snd (layout_function (component_edges edges c)
                               node_positions)) ->
                  In w (snd r)).
Proof.
  revert acc; induction components as [ | c components IH]; intros acc;
    cbn zeta; simpl fold_left.
  - repeat split; try tauto.
    + intros k. simpl. now rewrite orb_false_r.
    + intros w c [].
  - destruct (IH (dict_update edge_eqb (fst acc)
                    (fst (layout_function (component_edges edges c) node_positions)),
                  snd acc ++ snd (layout_function (component_edges edges c)
                                    node_positions)))
      as [IH1 [IH2 IH3]].
    cbn [fst snd] in *. repeat split.
    + intros k. unfold component_edges in *.
      rewrite IH1, dict_mem_update. simpl. now rewrite orb_assoc.
    + intros w Hw. apply IH2. apply in_or_app. now left.
    + intros w c' [-> | Hc] Hw.
      * apply IH2. apply in_or_app. now right.
      * now apply (IH3 w c').
Qed.

End Layout.

Section Decorated.
Variable _edge_list_to_adjacency_list : list edge -> bool -> EdgeLayout.adjacency.
Variable _get_connected_components : EdgeLayout.adjacency -> list (list node).
Variable UnivariateSpline : list R -> list R -> nat -> R -> R -> R.

(** With a self-loop in the list, and every edge within one of the
    components, the bundled router leaves out the self-loops, issues its
    warning and returns a path for every other edge. *)
Lemma bundled_drops_selfloops edges node_positions k th cycles iters step
  straighten :
  existsb EdgeLayout.is_selfloop edges = true ->
  (forall e, In e edges ->
             exists c,
               In c (_get_connected_components
                       (_edge_list_to_adjacency_list edges false))
               /\ In (fst e) c /\ In (snd e) c) ->
  let r :=
    EdgeLayout.get_bundled_edge_paths _edge_list_to_adjacency_list
      _get_connected_components UnivariateSpline edges node_positions
      k th cycles iters step straighten in
  (forall e, In e edges -> EdgeLayout.is_selfloop e = true ->
             dict_get edge_eqb (fst r) e = None)
  /\ In EdgeLayout.SelfloopBundlingUnsupported (snd r)
  /\ (forall e, In e edges -> EdgeLayout.is_selfloop e = false ->
                exists p, dict_get edge_eqb (fst r) e = Some p).
Proof.
  intros Hloop Hcover. cbn zeta. unfold EdgeLayout.get_bundled_edge_paths.
  set (components := _get_connected_components
                       (_edge_list_to_adjacency_list edges false)) in *.
  destruct (Nat.ltb 1 (List.length components)).
  - unfold EdgeLayout._get_layout_for_multiple_components.
    destruct (multiple_components_fold
                (fun edges node_positions =>
                   EdgeLayout.bundled_edge_paths UnivariateSpline edges
                     node_positions k th cycles iters step straighten)
                edges node_positions components ([], []))
      as [H1 [_ H3]].
    cbn zeta in H1, H3. split; [ | split ].
    + intros e Hin He. apply dict_mem_false. rewrite H1.
      change (dict_mem edge_eqb (fst ([], [])) e) with false. cbn [orb].
      apply not_true_is_false. intros N. apply existsb_exists in N.
      destruct N as [c [_ N]].
      rewrite BundledFacts.bundled_edge_paths_keys, He in N.
      cbn [negb] in N. rewrite andb_false_r in N. discriminate.
    + apply existsb_exists in Hloop. destruct Hloop as [e [Hin He]].
      destruct (Hcover e Hin) as [c [Hc [Hs Ht]]].
      apply (H3 _ c Hc).
      rewrite BundledFacts.bundled_edge_paths_warnings.
      assert (Hex : existsb EdgeLayout.is_selfloop
                      (component_edges edges c) = true).
      { apply existsb_exists. exists e. split; [ | assumption ].
        unfold component_edges. apply filter_In. split; [ assumption | ].
        apply andb_true_iff. split; now apply mem_nat_In. }
      rewrite Hex. now left.
    + intros e Hin He. apply dict_mem_get. rewrite H1.
      change (dict_mem edge_eqb (fst ([], [])) e) with false. cbn [orb].
      destruct (Hcover e Hin) as [c [Hc [Hs Ht]]].
      apply existsb_exists. exists c. split; [ assumption | ].
      rewrite BundledFacts.bundled_edge_paths_keys, He.
      cbn [negb]. rewrite andb_true_r. apply mem_edge_In.
      unfold component_edges. apply filter_In. split; [ assumption | ].
      apply andb_true_iff. split; now apply mem_nat_In.
  - split; [ | split ].
    + intros e Hin He. apply dict_mem_false.
      rewrite BundledFacts.bundled_edge_paths_keys, He.
      cbn [negb]. apply andb_false_r.
    + rewrite BundledFacts.bundled_edge_paths_warnings, Hloop. now left.
    + intros e Hin He. apply dict_mem_get.
      rewrite BundledFacts.bundled_edge_paths_keys, He.
      cbn [negb]. rewrite andb_true_r. now apply mem_edge_In.
Qed.

End Decorated.

End ComponentFacts.

(** C5, as stated, fails for the straight router of [_edge_layout.py]: for
    the edges (0, 1) and (1, 1), with the radius 0.1 and the starting angle
    0 of the self-loop given, the call returns, the self-loop (1, 1) has a
    path among the returned ones, and no warning is issued. *)
Lemma straight_router_keeps_the_selfloop :
  exists r,
    EdgeLayout.get_straight_edge_paths UtilsModel.get_unit_vector
      UtilsModel.get_angle UtilsModel.get_n_points_on_a_circle
      UtilsModel.resample_spline (UtilsModel.get_optimal_offsets 360)
      UtilsModel.normalize_numeric_argument
      [(0, 1); (1, 1)]%nat (fun n => if Nat.eqb n 0 then (0, 0) else (1, 0))
      (EdgeLayout.Scalar 0.1) (Some (EdgeLayout.Scalar 0)) = Some r
    /\ (exists p, dict_get edge_eqb (fst r) (1, 1)%nat = Some p)
    /\ snd r = [].
Proof.
  eexists. split; [ reflexivity | ]. split; [ | reflexivity ].
  eexists. reflexivity.
Qed.

(** ** The end points of the paths *)

Module EntryFacts.

Import Predicates.

Lemma entries_set {V : Type} (P : edge -> V -> Prop) d k v :
  entries_satisfy P d -> P k v ->
  entries_satisfy P (dict_set edge_eqb d k v).
Proof.
  unfold entries_satisfy. intros Hd Hv.
  induction d as [ | [k' v'] d IH]; simpl.
  - constructor; [ exact Hv | constructor ].
  - inversion Hd as [ | ? ? Hhd Htl]; subst.
    destruct (edge_eqb k k') eqn:E.
    + apply edge_eqb_eq in E. subst k'. constructor; assumption.
    + constructor; [ assumption | now apply IH ].
Qed.


Lemma entries_get {V : Type} (P : edge -> V -> Prop) d k v :
  entries_satisfy P d -> dict_get edge_eqb d k = Some v -> P k v.
Proof.
  unfold entries_satisfy. intros Hd.
  induction d as [ | [k' v'] d IH]; simpl; [ discriminate | ].
  inversion Hd as [ | ? ? Hhd Htl]; subst.
  destruct (edge_eqb k k') eqn:E.
  - apply edge_eqb_eq in E. subst k'. intros H. inversion H; subst.
    exact Hhd.
  - now apply IH.
Qed.

Lemma entries_weaken {V : Type} (P Q : edge -> V -> Prop) d :
  (forall k v, P k v -> Q k v) -> entries_satisfy P d -> entries_satisfy Q d.
Proof.
  unfold entries_satisfy. intros H Hd.
  eapply Forall_impl; [ | exact Hd ]. intros [k v]; apply H.
Qed.

Lemma entries_map_values {V W : Type} (P : edge -> V -> Prop)
  (Q : edge -> W -> Prop) (g : edge * V -> W) d :
  (forall k v, P k v -> Q k (g (k, v))) ->
  entries_satisfy P d ->
  entries_satisfy Q (map (fun kv => (fst kv, g kv)) d).
Proof.
  unfold entries_satisfy. intros H Hd.
  induction Hd as [ | [k v] d Hkv Hd IH]; simpl; constructor.
  - cbn [fst snd]. now apply H.
  - exact IH.
Qed.

(** The value of a key that is there. *)
Lemma entries_at {V : Type} (P : edge -> V -> Prop) d k default :
  entries_satisfy P d -> dict_mem edge_eqb d k = true ->
  P k (EdgeLayout.dict_at d k default).
Proof.
  intros Hd Hmem. apply KeyFacts.dict_mem_get in Hmem.
  destruct Hmem as [v Hv]. unfold EdgeLayout.dict_at. rewrite Hv.
  now apply (entries_get P d).
Qed.

End EntryFacts.

Module EndpointFacts.

Import EntryFacts.
Import Predicates.

(** *** Straight edges of [_edge_layout.py] *)


Section Helpers.
Variable _get_unit_vector : vec -> vec.
Variable _get_angle : R -> R -> R.
Variable _get_n_points_on_a_circle : vec -> R -> nat -> R -> polyline.
Variable _resample_spline : polyline -> nat -> polyline.
Variable _get_optimal_offsets : list vec -> list R -> list vec -> list vec.
Variable _normalize_numeric_argument :
  EdgeLayout.numeric_arg -> list edge -> option (list (edge * R)).



End Helpers.

(** *** Straight edges of [_main.py] *)

Lemma main_step_entries edge_list node_positions edge_width acc e :
  entries_satisfy
    (fun k v => v = main_path edge_list node_positions edge_width k)
    (fst acc) ->
  entries_satisfy
    (fun k v => v = main_path edge_list node_positions edge_width k)
    (fst (Main.straight_edge_step edge_list node_positions edge_width acc e)).
Proof.
  intros Hacc. unfold Main.straight_edge_step.
  destruct acc as [edge_paths warnings], e as [source target].
  cbn [fst snd] in *. destruct (Nat.eqb source target); [ exact Hacc | ].
  destruct (node_positions source) as [x1 y1] eqn:E1,
           (node_positions target) as [x2 y2] eqn:E2.
  destruct (mem_edge (target, source) edge_list) eqn:Em.
  - unfold Main._shift_edge. unfold vscale at 1. cbn [fst snd].
    apply entries_set; [ exact Hacc | ].
    unfold main_path. cbn [fst snd]. rewrite Em, E1, E2.
    unfold unit_normal, vsub, vadd, vscale, vdiv. cbn [fst snd].
    reflexivity.
  - cbn [fst]. apply entries_set; [ exact Hacc | ].
    unfold main_path. cbn [fst snd]. now rewrite Em, E1, E2.
Qed.

Lemma main_fold_entries edge_list node_positions edge_width l acc :
  entries_satisfy
    (fun k v => v = main_path edge_list node_positions edge_width k)
    (fst acc) ->
  entries_satisfy
    (fun k v => v = main_path edge_list node_positions edge_width k)
    (fst (fold_left
            (Main.straight_edge_step edge_list node_positions edge_width)
            l acc)).
Proof.
  revert acc; induction l as [ | e l IH]; intros acc Hacc; simpl.
  - exact Hacc.
  - apply IH. now apply main_step_entries.
Qed.

(** The path of an edge that is no self-loop: the positions of its nodes,
    both moved by half the edge width along the unit normal of the edge
    when the reverse edge is in the list. *)
Lemma main_straight_path edge_list node_positions edge_width e :
  In e edge_list -> Nat.eqb (fst e) (snd e) = false ->
  dict_get edge_eqb
    (fst (Main._get_straight_edge_paths edge_list node_positions edge_width)) e
  = Some (main_path edge_list node_positions edge_width e).
Proof.
  intros Hin He.
  destruct (StraightFacts.main_straight_drops_selfloops edge_list
              node_positions edge_width) as [_ Hall].
  destruct (Hall e Hin He) as [p Hp]. rewrite Hp. f_equal.
  apply (entries_get
           (fun k v => v = main_path edge_list node_positions edge_width k)
           (fst (Main._get_straight_edge_paths edge_list node_positions
                   edge_width)) e p); [ | exact Hp ].
  unfold Main._get_straight_edge_paths. apply main_fold_entries. constructor.
Qed.

(** *** Paths through control points *)



End EndpointFacts.

(** ** Smoothing *)

Module SmoothFacts.

Import Predicates.





Section Smooth.
Variable UnivariateSpline : list R -> list R -> nat -> R -> R -> R.


End Smooth.

End SmoothFacts.

(** ** The chains of control points of edge bundling *)

Module ChainFacts.

Import EntryFacts.
Import Predicates.

Lemma nth_map_lt {X Y : Type} (f : X -> Y) (l : list X) (i : nat)
  (d : X) (d' : Y) :
  (i < List.length l)%nat -> nth i (map f l) d' = f (nth i l d).
Proof.
  intros H. rewrite (nth_indep _ d' (f d)) by (now rewrite length_map).
  apply map_nth.
Qed.

Lemma map2_length {X Y Z : Type} (f : X -> Y -> Z) l1 l2 :
  List.length (EdgeLayout.map2 f l1 l2)
  = Nat.min (List.length l1) (List.length l2).
Proof. unfold EdgeLayout.map2. now rewrite length_map, length_combine. Qed.

Lemma combine_nth_lt {X Y : Type} (l1 : list X) (l2 : list Y) (i : nat)
  (d1 : X) (d2 : Y) :
  (i < List.length l1)%nat -> (i < List.length l2)%nat ->
  nth i (combine l1 l2) (d1, d2) = (nth i l1 d1, nth i l2 d2).
Proof.
  revert l2 i; induction l1 as [ | a l1 IH]; intros l2 i H1 H2;
    [ simpl in H1; lia | ].
  destruct l2 as [ | b l2]; [ simpl in H2; lia | ].
  destruct i as [ | i]; simpl; [ reflexivity | ].
  apply IH; simpl in *; lia.
Qed.

Lemma nth_map2 {X Y Z : Type} (f : X -> Y -> Z) l1 l2 (i : nat)
  (d1 : X) (d2 : Y) (d : Z) :
  (i < List.length l1)%nat -> (i < List.length l2)%nat ->
  nth i (EdgeLayout.map2 f l1 l2) d = f (nth i l1 d1) (nth i l2 d2).
Proof.
  intros H1 H2. unfold EdgeLayout.map2.
  rewrite (nth_map_lt _ _ _ (d1, d2)) by (rewrite length_combine; lia).
  rewrite combine_nth_lt by assumption. reflexivity.
Qed.

Lemma last_as_nth {X : Type} (l : list X) (d : X) :
  last l d = nth (List.length l - 1) l d.
Proof.
  induction l as [ | a l IH]; [ reflexivity | ].
  destruct l as [ | b l]; [ reflexivity | ].
  change (last (a :: b :: l) d) with (last (b :: l) d). rewrite IH.
  simpl. now rewrite Nat.sub_0_r.
Qed.

Lemma hd_as_nth {X : Type} (l : list X) (d : X) : hd d l = nth 0 l d.
Proof. destruct l; reflexivity. Qed.

Section Chains.
Variable node_positions : node -> vec.

Lemma expand_chain_anchored L e chain :
  (2 <= L)%nat -> anchored node_positions L e chain ->
  anchored node_positions (2 * (L - 1) + 1) e (EdgeLayout.expand_chain chain).
Proof.
  intros HL [Hlen [H0 H1]]. unfold anchored, EdgeLayout.expand_chain.
  rewrite Hlen. rewrite length_map, length_seq.
  split; [ reflexivity | ]. split.
  - rewrite nth_map_seq by lia. cbn [Nat.even Nat.div]. exact H0.
  - rewrite nth_map_seq by lia.
    replace (2 * (L - 1) + 1 - 1)%nat with ((L - 1) * 2)%nat by lia.
    assert (Hev : Nat.even ((L - 1) * 2) = true).
    { rewrite Nat.even_mul. apply orb_true_r. }
    rewrite Hev, Nat.div_mul by lia. exact H1.
Qed.

Lemma vscale_vzero (c : R) : vscale c vzero = vzero.
Proof. unfold vscale, vzero; cbn [fst snd]. apply vec_eq; ring. Qed.

Lemma spring_force_zero_at_ends L kp chain :
  (2 <= L)%nat -> List.length chain = L ->
  zero_at_ends L (map (vscale kp) (EdgeLayout.spring_delta chain)).
Proof.
  intros HL Hlen.
  assert (Hd : List.length (EdgeLayout.spring_delta chain) = L).
  { unfold EdgeLayout.spring_delta. now rewrite length_map, length_seq. }
  unfold zero_at_ends. rewrite length_map, Hd.
  split; [ reflexivity | ]. split.
  - rewrite (nth_map_lt _ _ _ vzero) by lia.
    unfold EdgeLayout.spring_delta. rewrite nth_map_seq by lia.
    cbn [Nat.leb andb]. apply vscale_vzero.
  - rewrite (nth_map_lt _ _ _ vzero) by lia.
    unfold EdgeLayout.spring_delta. rewrite nth_map_seq by lia.
    rewrite Hlen, Nat.ltb_irrefl, andb_false_r. apply vscale_vzero.
Qed.

Lemma zero_ends_zero_at_ends L displacement :
  (1 <= L)%nat -> List.length displacement = L ->
  zero_at_ends L (EdgeLayout.zero_ends displacement).
Proof.
  intros HL Hlen. unfold zero_at_ends, EdgeLayout.zero_ends.
  rewrite length_map, length_seq, Hlen.
  split; [ reflexivity | ]. split.
  - rewrite nth_map_seq by lia. reflexivity.
  - rewrite nth_map_seq by lia. now rewrite Nat.eqb_refl, orb_true_r.
Qed.

Lemma electrostatic_zero_at_ends L compatibility reverse P Q :
  (1 <= L)%nat -> List.length P = L -> List.length Q = L ->
  zero_at_ends L
    (EdgeLayout.electrostatic_displacement compatibility reverse P Q).
Proof.
  intros HL HP HQ. unfold EdgeLayout.electrostatic_displacement.
  apply zero_ends_zero_at_ends; [ assumption | ].
  rewrite length_map.
  destruct reverse; rewrite map2_length, ?length_rev, HP, HQ; lia.
Qed.

Lemma rev_zero_at_ends L f : zero_at_ends L f -> zero_at_ends L (rev f).
Proof.
  intros [Hlen [H0 H1]]. unfold zero_at_ends. rewrite length_rev.
  split; [ assumption | ].
  destruct (Nat.eq_dec L 0) as [-> | HL].
  - destruct f; [ | discriminate ]. simpl. auto.
  - split.
    + rewrite rev_nth by lia. rewrite Hlen.
      now replace (L - 1)%nat with (L - 1)%nat in H1.
    + rewrite rev_nth by lia. rewrite Hlen.
      replace (L - S (L - 1))%nat with 0%nat by lia. exact H0.
Qed.

Lemma vadd_vzero_vzero : vadd vzero vzero = vzero.
Proof. apply vadd_zero_r. Qed.

Lemma vsub_vzero_vzero : vsub vzero vzero = vzero.
Proof. unfold vsub, vzero; cbn [fst snd]. apply vec_eq; ring. Qed.

Lemma map2_zero_at_ends (op : vec -> vec -> vec) L f g :
  op vzero vzero = vzero -> (1 <= L)%nat ->
  zero_at_ends L f -> zero_at_ends L g ->
  zero_at_ends L (EdgeLayout.map2 op f g).
Proof.
  intros Hop HL [Hf [Hf0 Hf1]] [Hg [Hg0 Hg1]]. unfold zero_at_ends.
  rewrite map2_length, Hf, Hg, Nat.min_id.
  split; [ reflexivity | ]. split.
  - rewrite (nth_map2 _ _ _ _ vzero vzero) by lia. now rewrite Hf0, Hg0.
  - rewrite (nth_map2 _ _ _ _ vzero vzero) by lia. now rewrite Hf1, Hg1.
Qed.

Lemma clamped_zero_at_ends L f step_size :
  (1 <= L)%nat -> zero_at_ends L f ->
  zero_at_ends L (EdgeLayout.clamped_displacement f step_size).
Proof.
  intros HL [Hf [Hf0 Hf1]].
  unfold zero_at_ends, EdgeLayout.clamped_displacement.
  rewrite length_map, Hf. split; [ reflexivity | ].
  assert (Hz : forall dl c, vtimes (vdiv vzero dl) c = vzero).
  { intros dl c. unfold vtimes, vdiv, vzero; cbn [fst snd].
    apply vec_eq; unfold Rdiv; ring. }
  split.
  - rewrite (nth_map_lt _ _ _ vzero) by lia. rewrite Hf0. apply Hz.
  - rewrite (nth_map_lt _ _ _ vzero) by lia. rewrite Hf1. apply Hz.
Qed.

(** Adding a force that is zero at both ends keeps the chain anchored. *)
Lemma moved_chain_anchored L e chain f :
  (1 <= L)%nat -> anchored node_positions L e chain -> zero_at_ends L f ->
  anchored node_positions L e (EdgeLayout.map2 vadd chain f).
Proof.
  intros HL [Hc [Hc0 Hc1]] [Hf [Hf0 Hf1]]. unfold anchored.
  rewrite map2_length, Hc, Hf, Nat.min_id.
  split; [ reflexivity | ]. split.
  - rewrite (nth_map2 _ _ _ _ vzero vzero) by lia.
    rewrite Hc0, Hf0. apply vadd_zero_r.
  - rewrite (nth_map2 _ _ _ _ vzero vzero) by lia.
    rewrite Hc1, Hf1. apply vadd_zero_r.
Qed.

Lemma _straighten_path_anchored L e chain straighten_by :
  (2 <= L)%nat -> anchored node_positions L e chain ->
  anchored node_positions L e (EdgeLayout._straighten_path chain straighten_by).
Proof.
  intros HL [Hc [Hc0 Hc1]]. unfold anchored, EdgeLayout._straighten_path.
  assert (Hlin : List.length (EdgeLayout.linspace 0 1 L) = L).
  { unfold EdgeLayout.linspace. now rewrite length_map, length_seq. }
  rewrite Hc, map2_length, Hc, Hlin, Nat.min_id.
  split; [ reflexivity | ].
  rewrite last_as_nth, Hc, Hc0, Hc1.
  split.
  - rewrite (nth_map2 _ _ _ _ vzero 0) by lia. rewrite Hc0.
    unfold EdgeLayout.linspace. rewrite nth_map_seq by lia.
    destruct (node_positions (fst e)) as [x0 y0],
             (node_positions (snd e)) as [x1 y1].
    unfold vadd, vscale, vsub; cbn [fst snd]. simpl INR.
    apply vec_eq; ring.
  - rewrite (nth_map2 _ _ _ _ vzero 0) by lia. rewrite Hc1.
    unfold EdgeLayout.linspace. rewrite nth_map_seq by lia.
    assert (Hn : INR (L - 1) <> 0) by (apply not_0_INR; lia).
    destruct (node_positions (fst e)) as [x0 y0],
             (node_positions (snd e)) as [x1 y1].
    unfold vadd, vscale, vsub; cbn [fst snd].
    apply vec_eq; field; assumption.
Qed.

(** *** The dictionaries of chains and of forces *)

Section Dicts.
Variables (edges : list edge) (L : nat).
Hypothesis HL : (2 <= L)%nat.

Lemma keys_are_set (d : list (edge * polyline)) k v :
  Predicates.keys_are edges d -> mem_edge k edges = true ->
  Predicates.keys_are edges (dict_set edge_eqb d k v).
Proof.
  intros Hd Hk k'. rewrite KeyFacts.dict_mem_set_edge, Hd.
  destruct (edge_eqb k' k) eqn:E; [ | reflexivity ].
  apply edge_eqb_eq in E. subst k'. now rewrite Hk.
Qed.

Lemma _get_Fs_ok e2cp edge_to_k :
  chains_ok node_positions edges L e2cp -> forces_ok edges L (EdgeLayout._get_Fs e2cp edge_to_k).
Proof.
  intros [Hent Hkeys]. split.
  - unfold EdgeLayout._get_Fs.
    apply (entries_map_values (anchored node_positions L)); [ | exact Hent ].
    intros k v [Hlen _]. cbn [fst snd].
    now apply spring_force_zero_at_ends.
  - intros k. rewrite BundledFacts._get_Fs_mem. apply Hkeys.
Qed.

Lemma _get_Fe_ok e2cp compat out :
  chains_ok node_positions edges L e2cp ->
  (forall c, In c compat ->
             In (fst (fst (fst c))) edges /\ In (snd (fst (fst c))) edges) ->
  forces_ok edges L out -> forces_ok edges L (EdgeLayout._get_Fe e2cp compat out).
Proof.
  intros [Hent Hkeys] Hcompat. unfold EdgeLayout._get_Fe. revert out.
  induction compat as [ | [[[e1 e2] compatibility] reverse] compat IH];
    intros out Hout; simpl.
  - exact Hout.
  - apply IH; [ intros c Hc; apply Hcompat; now right | ].
    destruct (Hcompat (e1, e2, compatibility, reverse) (or_introl eq_refl))
      as [H1 H2]. cbn [fst snd] in H1, H2.
    apply mem_edge_In in H1. apply mem_edge_In in H2.
    destruct Hout as [Hoent Hokeys].
    assert (HP : List.length (EdgeLayout.dict_at e2cp e1 []) = L).
    { apply (entries_at (anchored node_positions L) e2cp e1 []); [ assumption | ].
      now rewrite Hkeys. }
    assert (HQ : List.length (EdgeLayout.dict_at e2cp e2 []) = L).
    { apply (entries_at (anchored node_positions L) e2cp e2 []); [ assumption | ].
      now rewrite Hkeys. }
    assert (Hdisp : zero_at_ends L
                      (EdgeLayout.electrostatic_displacement compatibility
                         reverse (EdgeLayout.dict_at e2cp e1 [])
                         (EdgeLayout.dict_at e2cp e2 [])))
      by (apply electrostatic_zero_at_ends; [ lia | assumption | assumption ]).
    assert (Hout1 : forces_ok edges L
                      (dict_set edge_eqb out e1
                         (EdgeLayout.map2 vadd (EdgeLayout.dict_at out e1 [])
                            (EdgeLayout.electrostatic_displacement
                               compatibility reverse
                               (EdgeLayout.dict_at e2cp e1 [])
                               (EdgeLayout.dict_at e2cp e2 []))))).
    { split.
      - apply entries_set; [ assumption | ].
        apply map2_zero_at_ends;
          [ apply vadd_vzero_vzero | lia | | assumption ].
        apply (entries_at (fun _ f => zero_at_ends L f) out e1 []);
          [ assumption | now rewrite Hokeys ].
      - now apply keys_are_set. }
    destruct Hout1 as [H1ent H1keys]. split.
    + apply entries_set; [ assumption | ].
      apply map2_zero_at_ends; [ apply vsub_vzero_vzero | lia | | ].
      * apply (entries_at (fun _ f => zero_at_ends L f) _ e2 []);
          [ assumption | now rewrite H1keys ].
      * destruct reverse; [ now apply rev_zero_at_ends | assumption ].
    + now apply keys_are_set.
Qed.

Lemma _update_control_point_positions_ok e2cp F step_size :
  chains_ok node_positions edges L e2cp -> forces_ok edges L F ->
  chains_ok node_positions edges L (EdgeLayout._update_control_point_positions e2cp F step_size).
Proof.
  intros Hc [Hfent Hfkeys].
  assert (Hitems : Forall (fun kv => zero_at_ends L (snd kv)
                                     /\ mem_edge (fst kv) edges = true) F).
  { apply Forall_forall. intros [k f] Hin. cbn [fst snd]. split.
    - unfold entries_satisfy in Hfent. rewrite Forall_forall in Hfent.
      exact (Hfent (k, f) Hin).
    - rewrite <- Hfkeys, KeyFacts.dict_mem_existsb.
      apply existsb_exists. exists (k, f). split; [ assumption | ].
      apply edge_eqb_refl. }
  clear Hfent Hfkeys. unfold EdgeLayout._update_control_point_positions.
  revert e2cp Hc. induction Hitems as [ | [k f] F [Hf Hk] _ IH];
    intros e2cp [Hent Hkeys]; simpl.
  - now split.
  - apply IH. cbn [fst snd] in *. split.
    + apply entries_set; [ assumption | ].
      apply moved_chain_anchored; [ lia | | ].
      * apply (entries_at (anchored node_positions L) e2cp k []);
          [ assumption | now rewrite Hkeys ].
      * apply clamped_zero_at_ends; [ lia | assumption ].
    + now apply keys_are_set.
Qed.

Lemma bundle_iterations_ok n edge_to_k compat step_size e2cp :
  (forall c, In c compat ->
             In (fst (fst (fst c))) edges /\ In (snd (fst (fst c))) edges) ->
  chains_ok node_positions edges L e2cp ->
  chains_ok node_positions edges L (EdgeLayout.bundle_iterations n edge_to_k compat step_size e2cp).
Proof.
  intros Hcompat. revert e2cp; induction n as [ | n IH]; intros e2cp Hc;
    simpl.
  - exact Hc.
  - apply IH. apply _update_control_point_positions_ok; [ assumption | ].
    apply _get_Fe_ok; [ assumption | assumption | ].
    now apply _get_Fs_ok.
Qed.

End Dicts.

Lemma _expand_control_points_ok edges L e2cp :
  (2 <= L)%nat -> chains_ok node_positions edges L e2cp ->
  chains_ok node_positions edges (2 * (L - 1) + 1) (EdgeLayout._expand_control_points e2cp).
Proof.
  intros HL [Hent Hkeys]. unfold EdgeLayout._expand_control_points. split.
  - apply (entries_map_values (anchored node_positions L)); [ | exact Hent ].
    intros k v Hv. cbn [snd]. now apply expand_chain_anchored.
  - intros k. rewrite KeyFacts.dict_mem_map_values. apply Hkeys.
Qed.

Lemma bundle_cycles_ok edges cycles edge_to_k compat n step_size L e2cp :
  (forall c, In c compat ->
             In (fst (fst (fst c))) edges /\ In (snd (fst (fst c))) edges) ->
  (2 <= L)%nat -> chains_ok node_positions edges L e2cp ->
  exists L', (2 <= L')%nat
             /\ chains_ok node_positions edges L'
                  (EdgeLayout.bundle_cycles cycles edge_to_k compat n
                     step_size e2cp).
Proof.
  intros Hcompat. revert n step_size L e2cp.
  induction cycles as [ | cycles IH]; intros n step_size L e2cp HL Hc; simpl.
  - now exists L.
  - apply (IH _ _ (2 * (L - 1) + 1)%nat); [ lia | ].
    apply bundle_iterations_ok; [ lia | assumption | ].
    now apply _expand_control_points_ok.
Qed.

Lemma _initialize_bundled_control_points_ok edges :
  chains_ok node_positions edges 2
    (EdgeLayout._initialize_bundled_control_points edges node_positions).
Proof.
  split.
  - unfold EdgeLayout._initialize_bundled_control_points.
    assert (H : forall l d,
               entries_satisfy (anchored node_positions 2) d ->
               entries_satisfy (anchored node_positions 2)
                 (fold_left (fun d e =>
                               dict_set edge_eqb d e
                                 [node_positions (fst e);
                                  node_positions (snd e)]) l d)).
    { induction l as [ | e l IH]; intros d Hd; simpl; [ exact Hd | ].
      apply IH. apply entries_set; [ exact Hd | ].
      repeat split. }
    apply H. constructor.
  - intros k. apply BundledFacts._initialize_bundled_control_points_mem.
Qed.

End Chains.

End ChainFacts.

(** ** The canonical directions of bundled edges *)

Module BundledEnds.

Lemma unidirectional_of_covers (edges : list edge) (e : edge) :
  In e edges ->
  In e (EdgeLayout.unidirectional_of edges)
  \/ In (snd e, fst e) (EdgeLayout.unidirectional_of edges).
Proof.
  unfold EdgeLayout.unidirectional_of.
  set (step := fun (unidirectional_edges : list edge) (e : edge) =>
                 if mem_edge (snd e, fst e) unidirectional_edges
                 then unidirectional_edges
                 else if mem_edge e unidirectional_edges
                      then unidirectional_edges
                      else unidirectional_edges ++ [e]).
  assert (Hmono : forall l acc k, In k acc -> In k (fold_left step l acc)).
  { induction l as [ | a l IH]; intros acc k Hk; simpl; [ exact Hk | ].
    apply IH. unfold step.
    destruct (mem_edge (snd a, fst a) acc); [ exact Hk | ].
    destruct (mem_edge a acc); [ exact Hk | ].
    apply in_or_app. now left. }
  assert (H : forall l acc,
             In e l ->
             In e (fold_left step l acc)
             \/ In (snd e, fst e) (fold_left step l acc)).
  { induction l as [ | a l IH]; intros acc Hin; [ destruct Hin | ].
    destruct Hin as [-> | Hin]; simpl.
    - unfold step at 2 4.
      destruct (mem_edge (snd e, fst e) acc) eqn:E1.
      + right. apply Hmono. now apply mem_edge_In.
      + destruct (mem_edge e acc) eqn:E2.
        * left. apply Hmono. now apply mem_edge_In.
        * left. apply Hmono. apply in_or_app. right. now left.
    - now apply IH. }
  apply H.
Qed.

End BundledEnds.




(** * Further properties of the code *)

(** ** The two solvers, step by step *)

Module SolverSteps.

Import FR FRFacts FRLoop Notions.

Lemma sparse_distance_dense pos i j :
  sparse_distance pos i j = dense_distance pos i j.
Proof.
  unfold sparse_distance, dense_distance, where_lt, clip_lo, norm. cbv zeta.
  replace (fst (delta pos i j) ^ 2 + snd (delta pos i j) ^ 2)
    with (fst (delta pos i j) * fst (delta pos i j)
          + snd (delta pos i j) * snd (delta pos i j)) by ring.
  destruct (Rlt_dec _ 0.01) as [H | H].
  - rewrite Rmax_right; lra.
  - rewrite Rmax_left; lra.
Qed.

Lemma vadd_vzero_l (v : vec) : vadd vzero v = v.
Proof.
  destruct v as [x y]. unfold vadd, vzero; cbn [fst snd]. apply vec_eq; ring.
Qed.

Lemma sparse_displacement_dense A k fixed pos i :
  mem_nat i fixed = false ->
  sparse_displacement A k fixed pos i = dense_displacement A k pos i.
Proof.
  intros Hf. unfold sparse_displacement, dense_displacement. rewrite Hf.
  rewrite vadd_vzero_l. f_equal. apply map_ext. intros j.
  now rewrite sparse_distance_dense.
Qed.

Lemma sparse_delta_pos_dense A k t fixed pos i :
  sparse_delta_pos A k t fixed pos i
  = dense_delta_pos A k t (Some fixed) pos i.
Proof.
  unfold dense_delta_pos. destruct (mem_nat i fixed) eqn:Hf.
  - now apply sparse_delta_pos_fixed.
  - rewrite sparse_delta_pos_vscale, sparse_displacement_dense by assumption.
    reflexivity.
Qed.

Lemma sparse_delta_pos_dense_free A k t pos i :
  sparse_delta_pos A k t [] pos i = dense_delta_pos A k t None pos i.
Proof.
  rewrite sparse_delta_pos_vscale, sparse_displacement_dense by reflexivity.
  reflexivity.
Qed.

Lemma sparse_step_dense A k t fixed pos :
  sparse_step A k t (fixed_list fixed) pos = dense_step A k t fixed pos.
Proof.
  unfold sparse_step, dense_step. apply map_ext. intros i. f_equal.
  destruct fixed as [f | ]; cbn [fixed_list].
  - apply sparse_delta_pos_dense.
  - apply sparse_delta_pos_dense_free.
Qed.

Lemma sparse_loop_dense n A k dt fixed t pos :
  sparse_loop n A k dt (fixed_list fixed) t pos
  = dense_loop n A k dt fixed t pos.
Proof.
  revert t pos; induction n as [ | n IH]; intros t pos; simpl.
  - reflexivity.
  - now rewrite sparse_step_dense, IH.
Qed.

End SolverSteps.

(** X1. The two solvers differ in their initial temperature only: when the
    larger extent of the initial positions is 1, so that the dense solver
    starts at the temperature 0.1 of the sparse one, both return the same
    positions, for any adjacency matrix, spring constant other than 0,
    fixed rows and number of iterations. *)
Theorem solvers_agree_on_unit_extent :
  forall A k pos fixed iterations rnd,
    FR.default_k k (length A) <> 0 ->
    FR.dense_t0 (match pos with
                 | None => map rnd (seq 0 (length A))
                 | Some p => p
                 end) = 0.1 ->
    FR._dense_fruchterman_reingold A k pos fixed iterations rnd
    = FR._sparse_fruchterman_reingold A k pos fixed iterations rnd.
Proof.
  intros A k pos fixed iterations rnd _ Ht.
  unfold FR._dense_fruchterman_reingold, FR._sparse_fruchterman_reingold.
  cbv zeta. rewrite Ht.
  symmetry. apply (SolverSteps.sparse_loop_dense iterations A _ _ fixed).
Qed.

Lemma solvers_agree_on_unit_extent_witness :
  FR.default_k (Some 1) (length [[0; 1]; [0; 0]]) <> 0
  /\ FR.dense_t0 [(0, 0); (1, 0)] = 0.1
  /\ FR._dense_fruchterman_reingold [[0; 1]; [0; 0]] (Some 1)
       (Some [(0, 0); (1, 0)]) None 50 (fun _ => vzero)
     = FR._sparse_fruchterman_reingold [[0; 1]; [0; 0]] (Some 1)
         (Some [(0, 0); (1, 0)]) None 50 (fun _ => vzero).
Proof.
  assert (H : FR.dense_t0 [(0, 0); (1, 0)] = 0.1).
  { unfold FR.dense_t0, FR.xs, FR.ys, rmax_list, rmin_list. simpl.
    unfold Rmax, Rmin. repeat (destruct (Rle_dec _ _)); lra. }
  assert (Hk : FR.default_k (Some 1) (length [[0; 1]; [0; 0]]) <> 0)
    by (simpl; lra).
  split; [ exact Hk | ]. split; [ exact H | ].
  exact (solvers_agree_on_unit_extent [[0; 1]; [0; 0]] (Some 1)
           (Some [(0, 0); (1, 0)]) None 50%nat (fun _ => vzero) Hk H).
Defined.

(** ** How far the solvers move a node *)

Module Travel.

Import FR FRFacts FRLoop Notions.

Lemma sum_of_squares_nonneg (a b : R) : 0 <= a * a + b * b.
Proof.
  pose proof (Rle_0_sqr a). pose proof (Rle_0_sqr b). unfold Rsqr in *. lra.
Qed.

Lemma cauchy_schwarz (a b c d : R) :
  a * c + b * d <= sqrt (a * a + b * b) * sqrt (c * c + d * d).
Proof.
  pose proof (sum_of_squares_nonneg a b) as Hab.
  pose proof (sum_of_squares_nonneg c d) as Hcd.
  rewrite <- (sqrt_mult (a * a + b * b) (c * c + d * d)) by assumption.
  destruct (Rle_dec 0 (a * c + b * d)) as [Hpos | Hneg].
  - rewrite <- (sqrt_square (a * c + b * d)) at 1 by assumption.
    pose proof (Rle_0_sqr (a * d - b * c)) as Hsq. unfold Rsqr in Hsq.
    apply sqrt_le_1.
    + apply Rmult_le_pos; assumption.
    + apply Rmult_le_pos; assumption.
    + lra.
  - apply Rle_trans with 0; [ lra | apply sqrt_pos ].
Qed.

Lemma norm_triangle (u v : vec) : norm (vadd u v) <= norm u + norm v.
Proof.
  destruct u as [a b], v as [c d]. unfold norm, vadd; cbn [fst snd].
  pose proof (cauchy_schwarz a b c d) as Hcs.
  pose proof (sqrt_pos (a * a + b * b)) as Hu.
  pose proof (sqrt_pos (c * c + d * d)) as Hv.
  pose proof (sqrt_sqrt _ (sum_of_squares_nonneg a b)) as Hu2.
  pose proof (sqrt_sqrt _ (sum_of_squares_nonneg c d)) as Hv2.
  rewrite <- (sqrt_square (sqrt (a * a + b * b) + sqrt (c * c + d * d)))
    by lra.
  apply sqrt_le_1.
  - apply sum_of_squares_nonneg.
  - apply Rmult_le_pos; lra.
  - lra.
Qed.

(** One step moves a row by at most the temperature. *)
Lemma scaled_step_bound (t : R) (d : vec) :
  0 <= t -> norm (vscale (t / where_lt (norm d) 0.01 0.1) d) <= t.
Proof.
  intros Ht. destruct (normalised_step t d Ht) as [Hbig Hsmall].
  destruct (Rle_lt_dec 0.01 (norm d)) as [H | H].
  - rewrite Hbig by assumption. lra.
  - rewrite Hsmall by assumption. pose proof (norm_nonneg d). nra.
Qed.

Lemma dense_delta_pos_bound A k t fixed pos i :
  0 <= t -> norm (dense_delta_pos A k t fixed pos i) <= t.
Proof.
  intros Ht. unfold dense_delta_pos, dense_length.
  destruct fixed as [f | ]; [ destruct (mem_nat i f) | ];
    try apply scaled_step_bound; try assumption.
  now rewrite norm_vzero.
Qed.

Lemma vsub_self (v : vec) : vsub v v = vzero.
Proof. unfold vsub, vzero. apply vec_eq; ring. Qed.

Lemma dense_step_bound A k t fixed pos i :
  0 <= t -> norm (vsub (row (dense_step A k t fixed pos) i) (row pos i)) <= t.
Proof.
  intros Ht. destruct (Nat.lt_ge_cases i (length pos)) as [Hi | Hi].
  - rewrite dense_step_row, vsub_vadd_l by assumption.
    now apply dense_delta_pos_bound.
  - unfold row. rewrite !nth_overflow
      by (rewrite ?dense_step_length; assumption).
    now rewrite vsub_self, norm_vzero.
Qed.

Lemma total_temperature_S n t dt :
  total_temperature (S n) t dt = t + total_temperature n (t - dt) dt.
Proof. unfold total_temperature. rewrite S_INR. field. Qed.

Lemma dense_loop_bound n A k dt fixed t pos i :
  0 <= dt -> INR n * dt <= t ->
  norm (vsub (row (dense_loop n A k dt fixed t pos) i) (row pos i))
  <= total_temperature n t dt.
Proof.
  intros Hdt. revert t pos; induction n as [ | n IH]; intros t pos Ht.
  - simpl. rewrite vsub_self, norm_vzero. unfold total_temperature.
    simpl. lra.
  - rewrite S_INR in Ht. pose proof (pos_INR n) as Hn.
    assert (Ht0 : 0 <= t) by nra.
    cbn [dense_loop]. rewrite total_temperature_S.
    replace (vsub (row (dense_loop n A k dt fixed (t - dt)
                          (dense_step A k t fixed pos)) i) (row pos i))
      with (vadd (vsub (row (dense_loop n A k dt fixed (t - dt)
                               (dense_step A k t fixed pos)) i)
                       (row (dense_step A k t fixed pos) i))
                 (vsub (row (dense_step A k t fixed pos) i) (row pos i)))
      by (unfold vadd, vsub; cbn [fst snd]; apply vec_eq; ring).
    eapply Rle_trans; [ apply norm_triangle | ].
    pose proof (IH (t - dt) (dense_step A k t fixed pos) ltac:(lra)).
    pose proof (dense_step_bound A k t fixed pos i Ht0).
    lra.
Qed.

(** The sum of the temperatures of the solvers' schedule. *)
Lemma schedule_total (n : nat) (t : R) :
  total_temperature n t (t / INR (n + 1))
  = t * INR n * (INR n + 3) / (2 * (INR n + 1)).
Proof.
  unfold total_temperature. rewrite plus_INR. simpl INR.
  pose proof (pos_INR n). field. lra.
Qed.

Lemma schedule_ok (n : nat) (t : R) :
  0 <= t -> 0 <= t / INR (n + 1) /\ INR n * (t / INR (n + 1)) <= t.
Proof.
  intros Ht. rewrite plus_INR. simpl INR. pose proof (pos_INR n) as Hn.
  assert (H1 : 0 < INR n + 1) by lra.
  split.
  - apply Rmult_le_pos; [ assumption | ].
    apply Rlt_le, Rinv_0_lt_compat. assumption.
  - apply Rmult_le_reg_r with (INR n + 1); [ assumption | ].
    replace (INR n * (t / (INR n + 1)) * (INR n + 1)) with (INR n * t)
      by (field; lra).
    nra.
Qed.

End Travel.

(** X2. Neither solver moves a node farther from its initial position than
    the sum of the temperatures of its iterations,
    [t0 * n * (n + 3) / (2 * (n + 1))] for [n] iterations from the initial
    temperature [t0] ([0.1] in the sparse solver). *)
Theorem solvers_move_nodes_a_bounded_distance :
  forall A k pos fixed iterations rnd i,
    FR.default_k k (length A) <> 0 ->
    let n := INR iterations in
    norm (vsub (FR.row (FR._dense_fruchterman_reingold A k (Some pos) fixed
                          iterations rnd) i)
               (FR.row pos i))
    <= FR.dense_t0 pos * n * (n + 3) / (2 * (n + 1))
    /\ norm (vsub (FR.row (FR._sparse_fruchterman_reingold A k (Some pos)
                             fixed iterations rnd) i)
                  (FR.row pos i))
       <= 0.1 * n * (n + 3) / (2 * (n + 1)).
Proof.
  intros A k pos fixed iterations rnd i _ n. subst n. split.
  - unfold FR._dense_fruchterman_reingold. cbv zeta.
    rewrite <- Travel.schedule_total.
    destruct (Travel.schedule_ok iterations (FR.dense_t0 pos)
                (FRLoop.dense_t0_nonneg pos)) as [H1 H2].
    now apply Travel.dense_loop_bound.
  - unfold FR._sparse_fruchterman_reingold. cbv zeta.
    rewrite <- Travel.schedule_total.
    destruct (Travel.schedule_ok iterations 0.1 ltac:(lra)) as [H1 H2].
    rewrite (SolverSteps.sparse_loop_dense iterations A _ _ fixed).
    now apply Travel.dense_loop_bound.
Qed.

Lemma solvers_move_nodes_witness :
  FR.default_k None (length [[0; 1]; [0; 0]]) <> 0
  /\ norm (vsub (FR.row (FR._dense_fruchterman_reingold [[0; 1]; [0; 0]] None
                           (Some [(0, 0); (2, 0)]) None 50 (fun _ => vzero))
                        0)
                (FR.row [(0, 0); (2, 0)] 0))
     <= FR.dense_t0 [(0, 0); (2, 0)] * INR 50 * (INR 50 + 3)
        / (2 * (INR 50 + 1)).
Proof.
  assert (Hk : FR.default_k None (length [[0; 1]; [0; 0]]) <> 0).
  { unfold FR.default_k. simpl length. simpl INR.
    intros E. apply sqrt_eq_0 in E; lra. }
  split; [ exact Hk | ].
  exact (proj1 (solvers_move_nodes_a_bounded_distance [[0; 1]; [0; 0]] None
                  [(0, 0); (2, 0)] None 50 (fun _ => vzero) 0 Hk)).
Defined.

(** X3. The cooling scheme ends above its decrement: with
    [dt = t0 / (iterations + 1)], the last iteration of either solver runs
    at the temperature [2 * dt]. *)
Theorem last_iteration_runs_at_twice_the_decrement :
  forall A k pos fixed n rnd,
    (let dt := FR.dense_t0 pos / INR (S n + 1) in
     FR._dense_fruchterman_reingold A k (Some pos) fixed (S n) rnd
     = FR.dense_step A (FR.default_k k (length A)) (2 * dt) fixed
         (FR.dense_loop n A (FR.default_k k (length A)) dt fixed
            (FR.dense_t0 pos) pos))
    /\ (let dt := 0.1 / INR (S n + 1) in
        FR._sparse_fruchterman_reingold A k (Some pos) fixed (S n) rnd
        = FR.sparse_step A (FR.default_k k (length A)) (2 * dt)
            (Notions.fixed_list fixed)
            (FR.sparse_loop n A (FR.default_k k (length A)) dt
               (Notions.fixed_list fixed) 0.1 pos)).
Proof.
  intros A k pos fixed n rnd. split.
  - intros dt. unfold FR._dense_fruchterman_reingold.
    cbv zeta. rewrite FRLoop.dense_loop_last. fold dt. f_equal.
    unfold dt. rewrite plus_INR, S_INR. simpl INR. pose proof (pos_INR n).
    field. lra.
  - intros dt. unfold FR._sparse_fruchterman_reingold.
    cbv zeta. rewrite FRLoop.sparse_loop_last. fold dt.
    fold (Notions.fixed_list fixed). f_equal.
    unfold dt. rewrite plus_INR, S_INR. simpl INR. pose proof (pos_INR n).
    field. lra.
Qed.

(** ** The shape of a rescaled layout *)

Module RescaleShape.

Import FR RescaleFacts.

Lemma map_fst_combine_eq {X Y : Type} (a : list X) (b : list Y) :
  length a = length b -> map fst (combine a b) = a.
Proof.
  revert b; induction a as [ | x a IH]; intros [ | y b] H; simpl in *;
    try reflexivity; try discriminate.
  f_equal. apply IH. lia.
Qed.

Lemma map_snd_combine_eq {X Y : Type} (a : list X) (b : list Y) :
  length a = length b -> map snd (combine a b) = b.
Proof.
  revert b; induction a as [ | x a IH]; intros [ | y b] H; simpl in *;
    try reflexivity; try discriminate.
  f_equal. apply IH. lia.
Qed.

Lemma rsum_shift (l : list R) (m : R) :
  rsum (map (fun x => x - m) l) = rsum l - INR (length l) * m.
Proof.
  induction l as [ | x l IH]; [ simpl; ring | ].
  change (rsum (map (fun x => x - m) (x :: l)))
    with (x - m + rsum (map (fun x => x - m) l)).
  change (rsum (x :: l)) with (x + rsum l).
  rewrite IH. change (length (x :: l)) with (S (length l)).
  rewrite S_INR. ring.
Qed.

Lemma rsum_times (l : list R) (c : R) :
  rsum (map (fun x => x * c) l) = rsum l * c.
Proof.
  induction l as [ | x l IH]; [ simpl; ring | ].
  change (rsum (map (fun x => x * c) (x :: l)))
    with (x * c + rsum (map (fun x => x * c) l)).
  change (rsum (x :: l)) with (x + rsum l). rewrite IH. ring.
Qed.

Lemma rsum_plus (l : list R) (c : R) :
  rsum (map (fun x => x + c) l) = rsum l + INR (length l) * c.
Proof.
  induction l as [ | x l IH]; [ simpl; ring | ].
  change (rsum (map (fun x => x + c) (x :: l)))
    with (x + c + rsum (map (fun x => x + c) l)).
  change (rsum (x :: l)) with (x + rsum l).
  rewrite IH. change (length (x :: l)) with (S (length l)).
  rewrite S_INR. ring.
Qed.

Lemma INR_length_nonzero {X : Type} (l : list X) : l <> [] -> INR (length l) <> 0.
Proof.
  intros H. apply not_0_INR. destruct l; [ congruence | discriminate ].
Qed.

Lemma rsum_center_axis (l : list R) : l <> [] -> rsum (center_axis l) = 0.
Proof.
  intros H. unfold center_axis. rewrite rsum_shift. unfold mean.
  field. now apply INR_length_nonzero.
Qed.

Lemma mean_center_axis (l : list R) : l <> [] -> mean (center_axis l) = 0.
Proof.
  intros H. unfold mean at 1. rewrite rsum_center_axis by assumption.
  unfold Rdiv. ring.
Qed.

Lemma mean_times (l : list R) (c : R) :
  mean (map (fun x => x * c) l) = mean l * c.
Proof.
  unfold mean. rewrite rsum_times, length_map. unfold Rdiv. ring.
Qed.

Lemma mean_plus (l : list R) (c : R) :
  l <> [] -> mean (map (fun x => x + c) l) = mean l + c.
Proof.
  intros H. unfold mean. rewrite rsum_plus, length_map.
  field. now apply INR_length_nonzero.
Qed.

Lemma xs_length (pos : list vec) : length (xs pos) = length pos.
Proof. apply length_map. Qed.

Lemma ys_length (pos : list vec) : length (ys pos) = length pos.
Proof. apply length_map. Qed.

(** The two columns of the rescaled array. *)
Lemma _rescale_layout_xs (pos : list vec) (scale : R) :
  xs (_rescale_layout pos scale)
  = if Rlt_dec 0 (rescale_lim pos)
    then map (fun x => x * (scale / rescale_lim pos)) (center_axis (xs pos))
    else center_axis (xs pos).
Proof.
  unfold _rescale_layout, xs at 1. cbv zeta.
  destruct (Rlt_dec 0 (rescale_lim pos)); apply map_fst_combine_eq;
    rewrite ?length_map, !center_axis_length, xs_length, ys_length;
    reflexivity.
Qed.

Lemma _rescale_layout_ys (pos : list vec) (scale : R) :
  ys (_rescale_layout pos scale)
  = if Rlt_dec 0 (rescale_lim pos)
    then map (fun y => y * (scale / rescale_lim pos)) (center_axis (ys pos))
    else center_axis (ys pos).
Proof.
  unfold _rescale_layout, ys at 1. cbv zeta.
  destruct (Rlt_dec 0 (rescale_lim pos)); apply map_snd_combine_eq;
    rewrite ?length_map, !center_axis_length, xs_length, ys_length;
    reflexivity.
Qed.

Lemma _rescale_layout_mean (pos : list vec) (scale : R) :
  pos <> [] ->
  mean (xs (_rescale_layout pos scale)) = 0
  /\ mean (ys (_rescale_layout pos scale)) = 0.
Proof.
  intros H.
  assert (Hx : xs pos <> []) by (destruct pos; [ congruence | discriminate ]).
  assert (Hy : ys pos <> []) by (destruct pos; [ congruence | discriminate ]).
  rewrite _rescale_layout_xs, _rescale_layout_ys.
  destruct (Rlt_dec 0 (rescale_lim pos));
    rewrite ?mean_times, !mean_center_axis by assumption; split; ring.
Qed.

(** A row of the rescaled array. *)
Lemma _rescale_layout_row (pos : list vec) (scale : R) (i : nat) :
  (i < length pos)%nat ->
  row (_rescale_layout pos scale) i
  = if Rlt_dec 0 (rescale_lim pos)
    then ((fst (row pos i) - mean (xs pos)) * (scale / rescale_lim pos),
          (snd (row pos i) - mean (ys pos)) * (scale / rescale_lim pos))
    else (fst (row pos i) - mean (xs pos), snd (row pos i) - mean (ys pos)).
Proof.
  intros Hi.
  assert (Hx : fst (row (_rescale_layout pos scale) i)
               = nth i (xs (_rescale_layout pos scale)) 0).
  { unfold row, xs. now rewrite (map_nth fst _ vzero). }
  assert (Hy : snd (row (_rescale_layout pos scale) i)
               = nth i (ys (_rescale_layout pos scale)) 0).
  { unfold row, ys. now rewrite (map_nth snd _ vzero). }
  assert (Hcx : nth i (center_axis (xs pos)) 0
                = fst (row pos i) - mean (xs pos)).
  { unfold center_axis.
    rewrite (nth_indep _ 0 (0 - mean (xs pos)))
      by (now rewrite length_map, xs_length).
    rewrite (map_nth (fun x => x - mean (xs pos))).
    unfold xs at 1, row. now rewrite (map_nth fst _ vzero). }
  assert (Hcy : nth i (center_axis (ys pos)) 0
                = snd (row pos i) - mean (ys pos)).
  { unfold center_axis.
    rewrite (nth_indep _ 0 (0 - mean (ys pos)))
      by (now rewrite length_map, ys_length).
    rewrite (map_nth (fun x => x - mean (ys pos))).
    unfold ys at 1, row. now rewrite (map_nth snd _ vzero). }
  rewrite (surjective_pairing (row (_rescale_layout pos scale) i)).
  rewrite Hx, Hy, _rescale_layout_xs, _rescale_layout_ys.
  destruct (Rlt_dec 0 (rescale_lim pos)).
  - rewrite !(nth_indep (map _ _) 0 (0 * (scale / rescale_lim pos)))
      by (now rewrite length_map, center_axis_length, ?xs_length, ?ys_length).
    rewrite !(map_nth (fun x => x * (scale / rescale_lim pos))).
    now rewrite Hcx, Hcy.
  - now rewrite Hcx, Hcy.
Qed.

End RescaleShape.

(** X4. The rescaled array of a non-empty array of positions has the mean 0
    on each axis. *)
Theorem rescaled_layout_is_centred :
  forall (pos : list vec) (scale : R),
    pos <> [] ->
    FR.mean (FR.xs (FR._rescale_layout pos scale)) = 0
    /\ FR.mean (FR.ys (FR._rescale_layout pos scale)) = 0.
Proof. exact RescaleShape._rescale_layout_mean. Qed.

Lemma rescaled_layout_is_centred_witness :
  [(0, 0); (2, 0); (1, 3)] <> []
  /\ FR.mean (FR.xs (FR._rescale_layout [(0, 0); (2, 0); (1, 3)] 1)) = 0
  /\ FR.mean (FR.ys (FR._rescale_layout [(0, 0); (2, 0); (1, 3)] 1)) = 0.
Proof.
  split; [ discriminate | ].
  apply (rescaled_layout_is_centred [(0, 0); (2, 0); (1, 3)] 1).
  discriminate.
Defined.

(** X5. Without fixed nodes the layout is centred at [center]: on each axis
    the mean of the returned positions is the coordinate of [center]. *)
Theorem unconstrained_layout_is_centred :
  forall edge_list edge_weights k given iterations scale center rnd result,
    edge_list <> [] ->
    FR._fruchterman_reingold_layout edge_list edge_weights k given None
      iterations scale center rnd = Some result ->
    FR.mean (map (fun kv => fst (snd kv)) result) = fst center
    /\ FR.mean (map (fun kv => snd (snd kv)) result) = snd center.
Proof.
  intros edge_list edge_weights k given iterations scale center rnd result
         Hne H.
  unfold FR._fruchterman_reingold_layout in H.
  destruct (FR.solve edge_list edge_weights k given None iterations center
              rnd) as [[nodes raw] | ] eqn:Es; [ | discriminate ].
  destruct (LayoutFacts.solve_length _ _ _ _ _ _ _ _ _ _ Es)
    as [Hnodes Hlen].
  inversion H; subst result; clear H.
  assert (Hraw : raw <> []).
  { intros ->. simpl in Hlen. symmetry in Hlen.
    apply length_zero_iff_nil in Hlen.
    destruct edge_list as [ | e edge_list]; [ congruence | ].
    assert (Hin : In (fst e) (FR.np_unique (FR.flatten_edges (e :: edge_list))))
      by (apply LayoutFacts.np_unique_In; simpl; auto).
    rewrite <- Hnodes, Hlen in Hin. destruct Hin. }
  assert (Hsnd : map snd (combine nodes
                            (map (fun p => vadd p center)
                                 (FR._rescale_layout raw scale)))
                 = map (fun p => vadd p center)
                       (FR._rescale_layout raw scale)).
  { apply RescaleShape.map_snd_combine_eq.
    now rewrite length_map, RescaleFacts._rescale_layout_length. }
  destruct (RescaleShape._rescale_layout_mean raw scale Hraw) as [Mx My].
  assert (Hr : FR._rescale_layout raw scale <> []).
  { intros E. apply (f_equal (@length vec)) in E.
    rewrite RescaleFacts._rescale_layout_length in E.
    destruct raw; [ congruence | discriminate ]. }
  split.
  - rewrite <- (map_map snd fst), Hsnd, map_map.
    cbn [vadd fst].
    rewrite <- (map_map fst (fun x => x + fst center)).
    rewrite RescaleShape.mean_plus
      by (destruct (FR._rescale_layout raw scale);
          [ congruence | discriminate ]).
    fold (FR.xs (FR._rescale_layout raw scale)). rewrite Mx. ring.
  - rewrite <- (map_map snd snd), Hsnd, map_map.
    cbn [vadd snd].
    rewrite <- (map_map snd (fun y => y + snd center)).
    rewrite RescaleShape.mean_plus
      by (destruct (FR._rescale_layout raw scale);
          [ congruence | discriminate ]).
    fold (FR.ys (FR._rescale_layout raw scale)). rewrite My. ring.
Qed.

Lemma unconstrained_layout_is_centred_witness :
  [(0, 1)]%nat <> []
  /\ exists result,
       FR._fruchterman_reingold_layout [(0, 1)]%nat None None
         (Some [(0%nat, (0, 0)); (1%nat, (2, 0))]) None 0 1 (3, 4)
         (fun _ => vzero) = Some result
       /\ FR.mean (map (fun kv => fst (snd kv)) result) = 3
       /\ FR.mean (map (fun kv => snd (snd kv)) result) = 4.
Proof.
  split; [ discriminate | ].
  eexists. split.
  - unfold FR._fruchterman_reingold_layout.
    replace (FR.solve [(0, 1)]%nat None None
               (Some [(0%nat, (0, 0)); (1%nat, (2, 0))]) None 0 (3, 4)
               (fun _ => vzero))
      with (Some ([0; 1]%nat, [(0, 0); (2, 0)])) by reflexivity.
    reflexivity.
  - apply (unconstrained_layout_is_centred [(0, 1)]%nat None None
             (Some [(0%nat, (0, 0)); (1%nat, (2, 0))]) 0 1 (3, 4)
             (fun _ => vzero)).
    + discriminate.
    + unfold FR._fruchterman_reingold_layout.
      replace (FR.solve [(0, 1)]%nat None None
                 (Some [(0%nat, (0, 0)); (1%nat, (2, 0))]) None 0 (3, 4)
                 (fun _ => vzero))
        with (Some ([0; 1]%nat, [(0, 0); (2, 0)])) by reflexivity.
      reflexivity.
Defined.

Module RescaleMore.

Import FR RescaleFacts RescaleShape.

Lemma rsum_constant (l : list R) (c : R) :
  (forall x, In x l -> x = c) -> rsum l = INR (length l) * c.
Proof.
  induction l as [ | x l IH]; intros H; [ simpl; ring | ].
  change (rsum (x :: l)) with (x + rsum l).
  rewrite IH by (intros y Hy; apply H; now right).
  rewrite (H x) by now left.
  cbn [length]. rewrite S_INR. ring.
Qed.

Lemma center_axis_constant (l : list R) (c x : R) :
  (forall y, In y l -> y = c) -> In x (center_axis l) -> x = 0.
Proof.
  intros H Hx. unfold center_axis in Hx. apply in_map_iff in Hx.
  destruct Hx as [y [<- Hy]].
  assert (Hne : l <> []) by (intros ->; destruct Hy).
  unfold mean. rewrite (rsum_constant l c H), (H y Hy).
  field. now apply INR_length_nonzero.
Qed.

Lemma max_abs_zero (l : list R) : (forall x, In x l -> x = 0) -> max_abs l = 0.
Proof.
  intros H. destruct l as [ | a l]; [ reflexivity | ].
  destruct (max_abs_attained (a :: l) ltac:(discriminate)) as [x [Hx <-]].
  rewrite (H x Hx). apply Rabs_R0.
Qed.

Lemma rows_constant_xs (pos : list vec) :
  (forall i j, (i < length pos)%nat -> (j < length pos)%nat ->
               row pos i = row pos j) ->
  forall y, In y (xs pos) -> y = fst (row pos 0).
Proof.
  intros H y Hy. unfold xs in Hy. apply in_map_iff in Hy.
  destruct Hy as [p [<- Hp]]. destruct (In_nth _ _ vzero Hp) as [i [Hi <-]].
  fold (row pos i). rewrite (H i 0%nat); [ reflexivity | assumption | lia ].
Qed.

Lemma rows_constant_ys (pos : list vec) :
  (forall i j, (i < length pos)%nat -> (j < length pos)%nat ->
               row pos i = row pos j) ->
  forall y, In y (ys pos) -> y = snd (row pos 0).
Proof.
  intros H y Hy. unfold ys in Hy. apply in_map_iff in Hy.
  destruct Hy as [p [<- Hp]]. destruct (In_nth _ _ vzero Hp) as [i [Hi <-]].
  fold (row pos i). rewrite (H i 0%nat); [ reflexivity | assumption | lia ].
Qed.

Lemma rescale_lim_coincident (pos : list vec) :
  (forall i j, (i < length pos)%nat -> (j < length pos)%nat ->
               row pos i = row pos j) ->
  rescale_lim pos = 0.
Proof.
  intros H. unfold rescale_lim. cbv zeta.
  rewrite (max_abs_zero (center_axis (xs pos)))
    by (intros x; apply (center_axis_constant _ (fst (row pos 0)));
        now apply rows_constant_xs).
  rewrite (max_abs_zero (center_axis (ys pos)))
    by (intros x; apply (center_axis_constant _ (snd (row pos 0)));
        now apply rows_constant_ys).
  unfold Rmax. repeat destruct (Rle_dec _ _); lra.
Qed.

Lemma rescale_lim_nil : rescale_lim [] = 0.
Proof.
  unfold rescale_lim, max_abs, center_axis, xs, ys, rmax_list. simpl.
  unfold Rmax. repeat destruct (Rle_dec _ _); lra.
Qed.

(** The limit of an array whose columns are centred and whose largest
    magnitude is [s]. *)
Lemma rescale_lim_of_rescaled (pos : list vec) (scale : R) :
  0 < scale -> 0 < rescale_lim pos ->
  rescale_lim (_rescale_layout pos scale) = scale.
Proof.
  intros Hs Hl. set (r := _rescale_layout pos scale).
  assert (Hpos : pos <> []).
  { intros ->. rewrite rescale_lim_nil in Hl. lra. }
  assert (Hr : r <> []).
  { intros E. apply (f_equal (@length vec)) in E. unfold r in E.
    rewrite _rescale_layout_length in E.
    destruct pos; [ congruence | discriminate ]. }
  destruct (_rescale_layout_mean pos scale Hpos) as [Mx My]. fold r in Mx, My.
  assert (Cx : center_axis (xs r) = xs r).
  { unfold center_axis. rewrite Mx. rewrite <- (map_id (xs r)) at 2.
    apply map_ext. intros x. ring. }
  assert (Cy : center_axis (ys r) = ys r).
  { unfold center_axis. rewrite My. rewrite <- (map_id (ys r)) at 2.
    apply map_ext. intros x. ring. }
  apply Rle_antisym.
  - destruct (Rlt_dec 0 (rescale_lim r)) as [Hlr | Hlr]; [ | lra ].
    destruct (rescale_lim_attained r Hlr) as [[x [Hx <-]] | [y [Hy <-]]].
    + rewrite Cx in Hx. unfold xs in Hx. apply in_map_iff in Hx.
      destruct Hx as [[x' y'] [<- Hp]]. cbn [fst].
      apply (_rescale_layout_within pos scale x' y'); [ lra | exact Hp ].
    + rewrite Cy in Hy. unfold ys in Hy. apply in_map_iff in Hy.
      destruct Hy as [[x' y'] [<- Hp]]. cbn [snd].
      apply (_rescale_layout_within pos scale x' y'); [ lra | exact Hp ].
  - destruct (_rescale_layout_attains pos scale ltac:(lra) Hl)
      as [i [Hi [E | E]]]; fold r in E; rewrite <- E.
    + apply rescale_lim_x. rewrite Cx. unfold xs, row.
      apply in_map. apply nth_In. unfold r.
      now rewrite _rescale_layout_length.
    + apply rescale_lim_y. rewrite Cy. unfold ys, row.
      apply in_map. apply nth_In. unfold r.
      now rewrite _rescale_layout_length.
Qed.

Lemma rows_equal (a b : list vec) :
  length a = length b ->
  (forall i, (i < length a)%nat -> row a i = row b i) -> a = b.
Proof.
  intros Hlen H. apply (nth_ext a b vzero vzero Hlen). exact H.
Qed.

End RescaleMore.

(** X6. Rescaling keeps the shape of the layout: when the positions do not
    all coincide with their mean, the difference of any two rescaled
    positions is the difference of the two given ones times the one factor
    [scale / lim], the same on both axes. *)
Theorem rescaling_is_a_similarity :
  forall (pos : list vec) (scale : R) (i j : nat),
    (i < length pos)%nat -> (j < length pos)%nat ->
    0 < FR.rescale_lim pos ->
    vsub (FR.row (FR._rescale_layout pos scale) i)
         (FR.row (FR._rescale_layout pos scale) j)
    = vscale (scale / FR.rescale_lim pos)
             (vsub (FR.row pos i) (FR.row pos j)).
Proof.
  intros pos scale i j Hi Hj Hl.
  rewrite !RescaleShape._rescale_layout_row by assumption.
  destruct (Rlt_dec 0 (FR.rescale_lim pos)); [ | contradiction ].
  unfold vsub, vscale; cbn [fst snd]. apply vec_eq; ring.
Qed.

(** Over the reals, coinciding positions all go to the origin. *)
Lemma coincident_rows_rescale :
  forall (pos : list vec) (scale : R) (i : nat),
  (forall i j, (i < length pos)%nat -> (j < length pos)%nat ->
               FR.row pos i = FR.row pos j) ->
  (i < length pos)%nat ->
  FR.row (FR._rescale_layout pos scale) i = vzero.
Proof.
  intros pos scale i Hsame Hi.
  rewrite RescaleShape._rescale_layout_row by assumption.
  rewrite (RescaleMore.rescale_lim_coincident pos Hsame).
  destruct (Rlt_dec 0 0) as [H | _]; [ lra | ].
  assert (Hx : In (fst (FR.row pos i)) (FR.xs pos))
    by (unfold FR.xs, FR.row; apply in_map; now apply nth_In).
  assert (Hy : In (snd (FR.row pos i)) (FR.ys pos))
    by (unfold FR.ys, FR.row; apply in_map; now apply nth_In).
  pose proof (RescaleMore.center_axis_constant (FR.xs pos)
                (fst (FR.row pos 0)) (fst (FR.row pos i) - FR.mean (FR.xs pos))
                (RescaleMore.rows_constant_xs pos Hsame)) as Ex.
  pose proof (RescaleMore.center_axis_constant (FR.ys pos)
                (snd (FR.row pos 0)) (snd (FR.row pos i) - FR.mean (FR.ys pos))
                (RescaleMore.rows_constant_ys pos Hsame)) as Ey.
  unfold vzero. apply vec_eq.
  - apply Ex. unfold FR.center_axis.
    apply (in_map (fun x => x - FR.mean (FR.xs pos))). exact Hx.
  - apply Ey. unfold FR.center_axis.
    apply (in_map (fun x => x - FR.mean (FR.ys pos))). exact Hy.
Qed.

(** X7. A single position is rescaled to the origin, whatever the
    scale: its mean is the position itself, the limit is 0 and nothing is
    scaled. *)
Theorem a_single_node_is_placed_at_the_origin :
  forall (pos : list vec) (scale : R),
    length pos = 1%nat ->
    FR._rescale_layout pos scale = [vzero].
Proof.
  intros pos scale H.
  assert (Hl : length (FR._rescale_layout pos scale) = 1%nat)
    by now rewrite RescaleFacts._rescale_layout_length.
  pose proof (coincident_rows_rescale pos scale 0) as H0.
  destruct (FR._rescale_layout pos scale) as [ | p [ | q l]];
    try discriminate Hl.
  f_equal. apply H0; [ | lia ].
  intros i j Hi Hj. replace i with 0%nat by lia. now replace j with 0%nat by lia.
Qed.

(** X8. For a positive scale, rescaling a rescaled array changes
    nothing. *)
Theorem rescaling_twice_is_rescaling_once :
  forall (pos : list vec) (scale : R),
    0 < scale -> 0 < FR.rescale_lim pos ->
    FR._rescale_layout (FR._rescale_layout pos scale) scale
    = FR._rescale_layout pos scale.
Proof.
  intros pos scale Hs Hl.
  assert (Hpos : pos <> []).
  { intros ->. rewrite RescaleMore.rescale_lim_nil in Hl. lra. }
  destruct (RescaleShape._rescale_layout_mean pos scale Hpos) as [Mx My].
  apply RescaleMore.rows_equal.
  - now rewrite !RescaleFacts._rescale_layout_length.
  - intros i Hi. rewrite RescaleFacts._rescale_layout_length in Hi.
    rewrite RescaleShape._rescale_layout_row by assumption.
    rewrite RescaleMore.rescale_lim_of_rescaled by assumption.
    destruct (Rlt_dec 0 scale); [ | contradiction ].
    rewrite Mx, My.
    rewrite (surjective_pairing (FR.row (FR._rescale_layout pos scale) i))
      at 3.
    apply vec_eq; field; lra.
Qed.

Lemma two_nodes_rescale_lim : 0 < FR.rescale_lim [(0, 0); (2, 0)].
Proof.
  apply Rlt_le_trans with (Rabs (2 - FR.mean (FR.xs [(0, 0); (2, 0)]))).
  - unfold FR.mean, FR.xs. simpl.
    replace (2 - (0 + (2 + 0)) / (1 + 1)) with 1 by lra.
    rewrite Rabs_R1. lra.
  - apply RescaleFacts.rescale_lim_x. unfold FR.center_axis, FR.xs.
    simpl. right. now left.
Qed.

Lemma rescaling_is_a_similarity_witness :
  (0 < length [(0, 0); (2, 0)])%nat
  /\ (1 < length [(0, 0); (2, 0)])%nat
  /\ 0 < FR.rescale_lim [(0, 0); (2, 0)]
  /\ vsub (FR.row (FR._rescale_layout [(0, 0); (2, 0)] 1) 0)
          (FR.row (FR._rescale_layout [(0, 0); (2, 0)] 1) 1)
     = vscale (1 / FR.rescale_lim [(0, 0); (2, 0)])
              (vsub (FR.row [(0, 0); (2, 0)] 0) (FR.row [(0, 0); (2, 0)] 1)).
Proof.
  split; [ simpl; lia | ]. split; [ simpl; lia | ].
  split; [ exact two_nodes_rescale_lim | ].
  apply (rescaling_is_a_similarity [(0, 0); (2, 0)] 1 0 1).
  - simpl; lia.
  - simpl; lia.
  - exact two_nodes_rescale_lim.
Defined.

Lemma a_single_node_witness :
  length [(1, 2)] = 1%nat /\ FR._rescale_layout [(1, 2)] 5 = [vzero].
Proof.
  split; [ reflexivity | ].
  now apply (a_single_node_is_placed_at_the_origin [(1, 2)] 5).
Defined.

Lemma rescaling_twice_witness :
  0 < 1
  /\ 0 < FR.rescale_lim [(0, 0); (2, 0)]
  /\ FR._rescale_layout (FR._rescale_layout [(0, 0); (2, 0)] 1) 1
     = FR._rescale_layout [(0, 0); (2, 0)] 1.
Proof.
  split; [ lra | ]. split; [ exact two_nodes_rescale_lim | ].
  apply (rescaling_twice_is_rescaling_once [(0, 0); (2, 0)] 1).
  - lra.
  - exact two_nodes_rescale_lim.
Defined.

(** ** The adjacency matrix of an edge list *)

Module MatrixFacts.

Import FR LayoutFacts Notions.

Lemma map_option_map {X Y : Type} (f : X -> option Y) (l : list X)
  (ys : list Y) (d : Y) :
  map_option f l = Some ys ->
  ys = map (fun x => match f x with Some y => y | None => d end) l.
Proof.
  revert ys; induction l as [ | x l IH]; intros ys H; simpl in H.
  - now inversion H.
  - destruct (f x) as [y | ] eqn:E; [ | discriminate ].
    destruct (map_option f l) as [ys' | ]; [ | discriminate ].
    inversion H; subst. simpl. rewrite E. f_equal. now apply IH.
Qed.

Lemma map_option_none {X Y : Type} (f : X -> option Y) (l : list X) (x : X) :
  In x l -> f x = None -> map_option f l = None.
Proof.
  induction l as [ | a l IH]; intros Hin Hx; [ destruct Hin | ].
  destruct Hin as [-> | Hin]; simpl.
  - now rewrite Hx.
  - destruct (f a); [ | reflexivity ]. now rewrite IH.
Qed.

Lemma combine_map {X Y Z : Type} (f : X -> Y) (g : X -> Z) (l : list X) :
  combine (map f l) (map g l) = map (fun x => (f x, g x)) l.
Proof. induction l; simpl; congruence. Qed.

Lemma index_of_injective (nodes : list node) (u v : node) (i : nat) :
  index_of u nodes = Some i -> index_of v nodes = Some i -> u = v.
Proof.
  intros Hu Hv.
  destruct (index_of_spec u nodes i Hu) as [_ <-].
  destruct (index_of_spec v nodes i Hv) as [_ <-]. reflexivity.
Qed.

Lemma rsum_indicator {X : Type} (p : X -> bool) (w : R) (l : list X) :
  rsum (map (fun x => if p x then w else 0) l)
  = INR (length (filter p l)) * w.
Proof.
  induction l as [ | x l IH]; [ simpl; ring | ].
  change (rsum (map (fun x => if p x then w else 0) (x :: l)))
    with ((if p x then w else 0)
          + rsum (map (fun x => if p x then w else 0) l)).
  rewrite IH. simpl filter. destruct (p x).
  - cbn [length]. rewrite S_INR. ring.
  - ring.
Qed.

Lemma rsum_ext {X : Type} (f g : X -> R) (l : list X) :
  (forall x, In x l -> f x = g x) -> rsum (map f l) = rsum (map g l).
Proof.
  intros H. f_equal. apply map_ext_in. exact H.
Qed.

Lemma entry_of_map (f : nat -> nat -> R) (n i j : nat) :
  (i < n)%nat -> (j < n)%nat ->
  entry (map (fun i => map (fun j => f i j) (seq 0 n)) (seq 0 n)) i j = f i j.
Proof.
  intros Hi Hj. unfold entry.
  rewrite (nth_map_seq (fun i => map (fun j => f i j) (seq 0 n))) by assumption.
  now rewrite (nth_map_seq (fun j => f i j)).
Qed.

(** The entry of the matrix at the indices of two nodes. *)
Lemma sparse_matrix_entry edge_list edge_weights A s t i j :
  _edge_list_to_sparse_matrix edge_list edge_weights = Some A ->
  index_of s (np_unique (flatten_edges edge_list)) = Some i ->
  index_of t (np_unique (flatten_edges edge_list)) = Some j ->
  entry A i j
  = INR (multiplicity (s, t) edge_list) * edge_weight edge_weights (s, t).
Proof.
  intros HA Hs Ht. unfold _edge_list_to_sparse_matrix in HA. cbv zeta in HA.
  set (nodes := np_unique (flatten_edges edge_list)) in *.
  destruct (map_option (fun e => index_of (fst e) nodes) edge_list)
    as [sources | ] eqn:Es; [ | discriminate ].
  destruct (map_option (fun e => index_of (snd e) nodes) edge_list)
    as [targets | ] eqn:Et; [ | discriminate ].
  destruct (coo_weights edge_list edge_weights) as [weights | ] eqn:Ew;
    [ | discriminate ].
  inversion HA; subst A; clear HA.
  destruct (index_of_spec s nodes i Hs) as [Hi _].
  destruct (index_of_spec t nodes j Ht) as [Hj _].
  rewrite entry_of_map by assumption.
  rewrite (map_option_map _ _ _ O Es), (map_option_map _ _ _ O Et).
  assert (Hw : weights = map (edge_weight edge_weights) edge_list).
  { unfold coo_weights in Ew. unfold edge_weight.
    destruct edge_weights as [[ | kv w] | ].
    - inversion Ew. reflexivity.
    - rewrite (map_option_map _ _ _ 0 Ew). reflexivity.
    - inversion Ew. reflexivity. }
  rewrite Hw, combine_map, combine_map. unfold coo_entry. rewrite map_map.
  cbn [fst snd].
  rewrite (rsum_ext _ (fun e => if edge_eqb (s, t) e
                                then edge_weight edge_weights (s, t) else 0)).
  - unfold multiplicity. apply rsum_indicator.
  - intros e He.
    assert (Hfst : In (fst e) nodes).
    { unfold nodes. apply np_unique_In. unfold flatten_edges.
      apply in_flat_map. exists e. simpl. auto. }
    assert (Hsnd : In (snd e) nodes).
    { unfold nodes. apply np_unique_In. unfold flatten_edges.
      apply in_flat_map. exists e. simpl. auto. }
    destruct (index_of_In _ _ Hfst) as [a Ha].
    destruct (index_of_In _ _ Hsnd) as [b Hb].
    rewrite Ha, Hb.
    destruct (edge_eqb (s, t) e) eqn:E.
    + apply edge_eqb_eq in E. subst e. cbn [fst snd] in Ha, Hb.
      assert (a = i) by congruence. assert (b = j) by congruence. subst.
      now rewrite !Nat.eqb_refl.
    + destruct (Nat.eqb a i && Nat.eqb b j) eqn:N; [ | reflexivity ].
      apply andb_true_iff in N. destruct N as [N1 N2].
      apply Nat.eqb_eq in N1, N2. subst a b.
      pose proof (index_of_injective nodes _ _ _ Ha Hs).
      pose proof (index_of_injective nodes _ _ _ Hb Ht).
      apply edge_eqb_neq in E. exfalso. apply E.
      destruct e; cbn [fst snd] in *; congruence.
Qed.

Lemma dict_get_combine_none {V : Type} (nodes : list node) (out : list V)
  (v : node) :
  ~ In v nodes -> dict_get Nat.eqb (combine nodes out) v = None.
Proof.
  revert out; induction nodes as [ | n nodes IH]; intros out Hnot;
    [ reflexivity | ].
  destruct out as [ | o out]; [ reflexivity | ]. simpl.
  destruct (Nat.eqb v n) eqn:E.
  - apply Nat.eqb_eq in E. subst. exfalso. apply Hnot. now left.
  - apply IH. intros N. apply Hnot. now right.
Qed.

End MatrixFacts.

(** X9. The entry of the adjacency matrix at the indices of the nodes [s]
    and [t] is the weight of the edge [(s, t)] times the number of times
    the edge occurs in the list (so 0 when it does not occur): repeated
    edges add up. *)
Theorem repeated_edges_add_up :
  forall edge_list edge_weights A s t i j,
    FR._edge_list_to_sparse_matrix edge_list edge_weights = Some A ->
    FR.index_of s (FR.np_unique (FR.flatten_edges edge_list)) = Some i ->
    FR.index_of t (FR.np_unique (FR.flatten_edges edge_list)) = Some j ->
    FR.entry A i j
    = INR (Notions.multiplicity (s, t) edge_list)
      * Notions.edge_weight edge_weights (s, t).
Proof. exact MatrixFacts.sparse_matrix_entry. Qed.

Lemma repeated_edges_add_up_witness :
  exists A,
    FR._edge_list_to_sparse_matrix [(0, 1); (1, 2); (0, 1)]%nat None = Some A
    /\ FR.index_of 0%nat
         (FR.np_unique (FR.flatten_edges [(0, 1); (1, 2); (0, 1)]%nat))
       = Some 0%nat
    /\ FR.index_of 1%nat
         (FR.np_unique (FR.flatten_edges [(0, 1); (1, 2); (0, 1)]%nat))
       = Some 1%nat
    /\ FR.entry A 0 1 = 2.
Proof.
  eexists. split; [ reflexivity | ].
  split; [ reflexivity | ]. split; [ reflexivity | ].
  rewrite (repeated_edges_add_up [(0, 1); (1, 2); (0, 1)]%nat None _
             0%nat 1%nat 0%nat 1%nat eq_refl eq_refl eq_refl).
  unfold Notions.edge_weight. simpl. lra.
Defined.

(** X10. A non-empty dictionary of weights has to cover the edges: when an
    edge of the list has no weight in it, the look-up fails, and with it
    the construction of the matrix and the layout. *)
Theorem weights_have_to_cover_the_edges :
  forall edge_list kv w e k pos fixed iterations scale center rnd,
    In e edge_list ->
    dict_get edge_eqb (kv :: w) e = None ->
    FR._edge_list_to_sparse_matrix edge_list (Some (kv :: w)) = None
    /\ FR._fruchterman_reingold_layout edge_list (Some (kv :: w)) k pos fixed
         iterations scale center rnd = None.
Proof.
  intros edge_list kv w e k pos fixed iterations scale center rnd Hin Hget.
  assert (HA : FR._edge_list_to_sparse_matrix edge_list (Some (kv :: w))
               = None).
  { unfold FR._edge_list_to_sparse_matrix. cbv zeta.
    assert (Hw : FR.coo_weights edge_list (Some (kv :: w)) = None).
    { unfold FR.coo_weights.
      now apply (MatrixFacts.map_option_none _ _ e). }
    rewrite Hw.
    destruct (FR.map_option _ edge_list); [ | reflexivity ].
    destruct (FR.map_option _ edge_list); reflexivity. }
  split; [ exact HA | ].
  unfold FR._fruchterman_reingold_layout, FR.solve. cbv zeta. rewrite HA.
  destruct (FR.fixed_indices _ fixed); [ | reflexivity ].
  destruct (FR.layout_k k pos fixed _); reflexivity.
Qed.

Lemma weights_have_to_cover_the_edges_witness :
  In (1, 2)%nat [(0, 1); (1, 2)]%nat
  /\ dict_get edge_eqb [((0, 1)%nat, 2)] (1, 2)%nat = None
  /\ FR._edge_list_to_sparse_matrix [(0, 1); (1, 2)]%nat
       (Some [((0, 1)%nat, 2)]) = None
  /\ FR._fruchterman_reingold_layout [(0, 1); (1, 2)]%nat
       (Some [((0, 1)%nat, 2)]) None None None 50 1 vzero (fun _ => vzero)
     = None.
Proof.
  split; [ simpl; auto | ]. split; [ reflexivity | ].
  apply (weights_have_to_cover_the_edges [(0, 1); (1, 2)]%nat
           ((0, 1)%nat, 2) [] (1, 2)%nat).
  - simpl; auto.
  - reflexivity.
Defined.

(** X11. Whenever the layout returns, its keys are the distinct nodes of
    the edge list in increasing order: every node of an edge has a
    position, and a node that occurs in no edge has none, even when a
    position was given for it. *)
Theorem layout_places_the_nodes_of_the_edges :
  forall edge_list edge_weights k pos fixed iterations scale center rnd result,
    FR._fruchterman_reingold_layout edge_list edge_weights k pos fixed
      iterations scale center rnd = Some result ->
    map fst result = FR.np_unique (FR.flatten_edges edge_list)
    /\ (forall v, In v (FR.flatten_edges edge_list) ->
                  exists p, dict_get Nat.eqb result v = Some p)
    /\ (forall v, ~ In v (FR.flatten_edges edge_list) ->
                  dict_get Nat.eqb result v = None).
Proof.
  intros edge_list edge_weights k pos fixed iterations scale center rnd
         result H.
  unfold FR._fruchterman_reingold_layout in H.
  destruct (FR.solve edge_list edge_weights k pos fixed iterations center rnd)
    as [[nodes raw] | ] eqn:Es; [ | discriminate ].
  destruct (LayoutFacts.solve_length _ _ _ _ _ _ _ _ _ _ Es) as [Hnodes Hlen].
  inversion H; subst result; clear H.
  set (out := match fixed with
              | Some _ => raw
              | None => map (fun p => vadd p center)
                            (FR._rescale_layout raw scale)
              end).
  assert (Hout : length out = length nodes).
  { unfold out. destruct fixed; [ assumption | ].
    now rewrite length_map, RescaleFacts._rescale_layout_length. }
  assert (Hkeys : map fst (combine nodes out) = nodes)
    by (apply RescaleShape.map_fst_combine_eq; now symmetry).
  split; [ now rewrite Hkeys, Hnodes | ]. split.
  - intros v Hv.
    assert (Hin : In v nodes)
      by (rewrite Hnodes; now apply LayoutFacts.np_unique_In).
    destruct (LayoutFacts.index_of_In _ _ Hin) as [i Hi].
    destruct (LayoutFacts.index_of_spec _ _ _ Hi) as [Hlt _].
    exists (FR.row out i). apply LayoutFacts.zip_lookup; [ assumption | lia ].
  - intros v Hv.
    assert (Hnot : ~ In v nodes).
    { rewrite Hnodes. intros N. apply Hv.
      now apply LayoutFacts.np_unique_In. }
    now apply MatrixFacts.dict_get_combine_none.
Qed.

Lemma layout_places_the_nodes_witness :
  exists result,
    FR._fruchterman_reingold_layout [(0, 1)]%nat None None
      (Some [(0%nat, (0, 0)); (1%nat, (2, 0)); (7%nat, (5, 5))]) None 0 1
      vzero (fun _ => vzero) = Some result
    /\ map fst result = [0; 1]%nat
    /\ dict_get Nat.eqb result 7%nat = None.
Proof.
  assert (E : FR._fruchterman_reingold_layout [(0, 1)]%nat None None
                (Some [(0%nat, (0, 0)); (1%nat, (2, 0)); (7%nat, (5, 5))])
                None 0 1 vzero (fun _ => vzero)
              = Some (combine [0; 1]%nat
                        (map (fun p => vadd p vzero)
                             (FR._rescale_layout [(0, 0); (2, 0)] 1)))).
  { unfold FR._fruchterman_reingold_layout.
    replace (FR.solve [(0, 1)]%nat None None
               (Some [(0%nat, (0, 0)); (1%nat, (2, 0)); (7%nat, (5, 5))])
               None 0 vzero (fun _ => vzero))
      with (Some ([0; 1]%nat, [(0, 0); (2, 0)])) by reflexivity.
    reflexivity. }
  eexists. split; [ exact E | ].
  destruct (layout_places_the_nodes_of_the_edges _ _ _ _ _ _ _ _ _ _ E)
    as [H1 [_ H3]].
  split; [ exact H1 | ]. apply H3. simpl. intuition lia.
Defined.

(** X12. The layout fails when a fixed node is no node of the edge list,
    when the dictionary of positions is empty, and when fixed nodes are
    given without positions and without [k]. *)
Theorem layout_fails_on_unusable_arguments :
  (forall edge_list edge_weights k pos fixed iterations scale center rnd v,
      In v fixed -> ~ In v (FR.flatten_edges edge_list) ->
      FR._fruchterman_reingold_layout edge_list edge_weights k pos
        (Some fixed) iterations scale center rnd = None)
  /\ (forall edge_list edge_weights k fixed iterations scale center rnd,
         FR._fruchterman_reingold_layout edge_list edge_weights k (Some [])
           fixed iterations scale center rnd = None)
  /\ (forall edge_list edge_weights fixed iterations scale center rnd,
         FR._fruchterman_reingold_layout edge_list edge_weights None None
           (Some fixed) iterations scale center rnd = None).
Proof.
  split; [ | split ].
  - intros edge_list edge_weights k pos fixed iterations scale center rnd v
           Hv Hnot.
    unfold FR._fruchterman_reingold_layout, FR.solve, FR.fixed_indices.
    cbv zeta.
    rewrite (MatrixFacts.map_option_none _ fixed v Hv); [ reflexivity | ].
    destruct (FR.index_of v _) as [i | ] eqn:E; [ | reflexivity ].
    exfalso. apply Hnot.
    destruct (LayoutFacts.index_of_spec _ _ _ E) as [Hi Hn].
    apply (LayoutFacts.np_unique_In (FR.flatten_edges edge_list) v).
    rewrite <- Hn. now apply nth_In.
  - intros edge_list edge_weights k fixed iterations scale center rnd.
    unfold FR._fruchterman_reingold_layout, FR.solve. cbv zeta.
    destruct (FR.fixed_indices _ fixed); reflexivity.
  - intros edge_list edge_weights fixed iterations scale center rnd.
    unfold FR._fruchterman_reingold_layout, FR.solve. cbv zeta.
    destruct (FR.fixed_indices _ (Some fixed)); reflexivity.
Qed.

(** ** Shifted edges *)

Module ShiftFacts.

Import Predicates.

Lemma norm_quarter_turn (v : vec) : norm (- snd v, fst v) = norm v.
Proof.
  unfold norm; cbn [fst snd]. f_equal. ring.
Qed.

Lemma norm_pos_of_neq (a b : vec) : a <> b -> 0 < norm (vsub b a).
Proof.
  intros H. destruct (norm_nonneg (vsub b a)) as [Hlt | Heq];
    [ assumption | ].
  exfalso. apply H. symmetry in Heq. apply norm_eq_0 in Heq.
  symmetry. exact (proj1 (SegmentFacts.vsub_eq_vzero b a) Heq).
Qed.

Lemma unit_normal_norm (v : vec) : norm v <> 0 -> norm (unit_normal v) = 1.
Proof.
  intros H. unfold unit_normal. rewrite norm_quarter_turn.
  pose proof (norm_nonneg v) as Hn.
  apply norm_of_square; [ lra | ]. cbn [fst snd vdiv].
  assert (E : norm v * norm v = fst v * fst v + snd v * snd v).
  { unfold norm. apply sqrt_sqrt.
    pose proof (Rle_0_sqr (fst v)). pose proof (Rle_0_sqr (snd v)).
    unfold Rsqr in *. lra. }
  replace (- snd v / norm v * (- snd v / norm v)
           + fst v / norm v * (fst v / norm v))
    with ((fst v * fst v + snd v * snd v) / (norm v * norm v))
    by (field; assumption).
  rewrite <- E. field. assumption.
Qed.

Lemma unit_normal_orthogonal (v : vec) : dot (unit_normal v) v = 0.
Proof.
  unfold unit_normal, dot, vdiv; cbn [fst snd]. unfold Rdiv. ring.
Qed.

Lemma unit_normal_opposite (v : vec) :
  unit_normal (vsub vzero v) = vsub vzero (unit_normal v).
Proof.
  unfold unit_normal.
  replace (norm (- snd (vsub vzero v), fst (vsub vzero v)))
    with (norm (- snd v, fst v))
    by (unfold norm, vsub, vzero; cbn [fst snd]; f_equal; ring).
  unfold vsub, vzero, vdiv; cbn [fst snd]. apply vec_eq; unfold Rdiv; ring.
Qed.

Lemma norm_vscale_unit (c : R) (n : vec) :
  norm n = 1 -> norm (vscale c n) = Rabs c.
Proof. intros H. rewrite norm_vscale, H. ring. Qed.

End ShiftFacts.

(** X13. [_shift_edge] returns a parallel of the segment: both end points
    are moved by the same offset, which is orthogonal to the segment and
    has the length [|delta|] (the end points being different). *)
Theorem shifted_edge_is_a_parallel :
  forall x1 y1 x2 y2 delta : R,
    (x1, y1) <> (x2, y2) ->
    let '(a1, b1, a2, b2) := Main._shift_edge x1 y1 x2 y2 delta in
    let offset := (a1 - x1, b1 - y1) in
    (a2 - x2, b2 - y2) = offset
    /\ dot offset (x2 - x1, y2 - y1) = 0
    /\ norm offset = Rabs delta.
Proof.
  intros x1 y1 x2 y2 delta Hne. unfold Main._shift_edge. cbv zeta.
  cbn [fst snd].
  set (v := (x2 - x1, y2 - y1)).
  assert (Hv : norm v <> 0).
  { pose proof (ShiftFacts.norm_pos_of_neq (x1, y1) (x2, y2) Hne) as H.
    unfold vsub in H; cbn [fst snd] in H. fold v in H. lra. }
  change (vdiv (- (y2 - y1), x2 - x1) (norm (- (y2 - y1), x2 - x1)))
    with (Predicates.unit_normal v).
  pose proof (ShiftFacts.unit_normal_norm v Hv) as Hn.
  pose proof (ShiftFacts.unit_normal_orthogonal v) as Ho.
  destruct (vscale delta (Predicates.unit_normal v)) as [dx dy] eqn:E.
  assert (Hoff : (x1 + dx - x1, y1 + dy - y1) = (dx, dy))
    by (apply vec_eq; ring).
  rewrite Hoff. split; [ apply vec_eq; ring | ]. split.
  - rewrite <- E. unfold dot, vscale in *. cbn [fst snd] in *.
    replace (delta * fst (Predicates.unit_normal v) * fst v
             + delta * snd (Predicates.unit_normal v) * snd v)
      with (delta * (fst (Predicates.unit_normal v) * fst v
                     + snd (Predicates.unit_normal v) * snd v)) by ring.
    rewrite Ho. ring.
  - rewrite <- E. now apply ShiftFacts.norm_vscale_unit.
Qed.

Lemma shifted_edge_is_a_parallel_witness :
  (0, 0) <> (3, 4)
  /\ let '(a1, b1, a2, b2) := Main._shift_edge 0 0 3 4 (-2) in
     let offset := (a1 - 0, b1 - 0) in
     (a2 - 3, b2 - 4) = offset
     /\ dot offset (3 - 0, 4 - 0) = 0
     /\ norm offset = Rabs (-2).
Proof.
  assert (H : (0, 0) <> (3, 4)) by (intros E; inversion E; lra).
  split; [ exact H | ].
  exact (shifted_edge_is_a_parallel 0 0 3 4 (-2) H).
Defined.

(** X14. When both directions of an edge are in the list, the straight
    router of [_main.py] draws them side by side: each path is moved by
    half its edge width to its own right, so that the two are parallel to
    the line between the nodes, on opposite sides of it, and half the sum
    of the two widths apart. *)
Theorem the_two_directions_are_drawn_side_by_side :
  forall edge_list node_positions edge_width s t,
    In (s, t) edge_list -> In (t, s) edge_list ->
    node_positions s <> node_positions t ->
    0 <= edge_width (s, t) -> 0 <= edge_width (t, s) ->
    let paths :=
      fst (Main._get_straight_edge_paths edge_list node_positions edge_width) in
    let n :=
      Predicates.unit_normal (vsub (node_positions t) (node_positions s)) in
    let there := vscale (- (edge_width (s, t) / 2)) n in
    let back := vscale (edge_width (t, s) / 2) n in
    dict_get edge_eqb paths (s, t)
    = Some [vadd (node_positions s) there; vadd (node_positions t) there]
    /\ dict_get edge_eqb paths (t, s)
       = Some [vadd (node_positions t) back; vadd (node_positions s) back]
    /\ norm n = 1
    /\ dot n (vsub (node_positions t) (node_positions s)) = 0
    /\ norm (vsub (vadd (node_positions s) back)
                  (vadd (node_positions s) there))
       = (edge_width (s, t) + edge_width (t, s)) / 2.
Proof.
  intros edge_list node_positions edge_width s t Hst Hts Hne Hw1 Hw2
         paths n there back.
  assert (Hs : Nat.eqb s t = false).
  { apply Nat.eqb_neq. intros ->. now apply Hne. }
  assert (Hs' : Nat.eqb t s = false) by (now rewrite Nat.eqb_sym).
  assert (Hv : norm (vsub (node_positions t) (node_positions s)) <> 0).
  { pose proof (ShiftFacts.norm_pos_of_neq _ _ Hne). lra. }
  assert (Hn : norm n = 1) by (now apply ShiftFacts.unit_normal_norm).
  split; [ | split; [ | split; [ | split ] ] ].
  - unfold paths.
    rewrite (EndpointFacts.main_straight_path edge_list node_positions
               edge_width (s, t) Hst Hs).
    unfold Predicates.main_path. cbn [fst snd].
    apply mem_edge_In in Hts. rewrite Hts. fold n.
    f_equal. unfold there.
    replace (-0.5 * edge_width (s, t)) with (- (edge_width (s, t) / 2))
      by lra.
    reflexivity.
  - unfold paths.
    rewrite (EndpointFacts.main_straight_path edge_list node_positions
               edge_width (t, s) Hts Hs').
    unfold Predicates.main_path. cbn [fst snd].
    apply mem_edge_In in Hst. rewrite Hst.
    replace (vsub (node_positions s) (node_positions t))
      with (vsub vzero (vsub (node_positions t) (node_positions s)))
      by (unfold vsub, vzero; cbn [fst snd]; apply vec_eq; ring).
    rewrite ShiftFacts.unit_normal_opposite. fold n.
    assert (E : vscale (-0.5 * edge_width (t, s)) (vsub vzero n) = back).
    { unfold back, vscale, vsub, vzero; cbn [fst snd]. apply vec_eq; lra. }
    now rewrite E.
  - exact Hn.
  - apply ShiftFacts.unit_normal_orthogonal.
  - replace (vsub (vadd (node_positions s) back)
                  (vadd (node_positions s) there))
      with (vscale ((edge_width (s, t) + edge_width (t, s)) / 2) n)
      by (unfold back, there, vsub, vadd, vscale; cbn [fst snd];
          apply vec_eq; lra).
    rewrite (ShiftFacts.norm_vscale_unit _ n Hn).
    apply Rabs_pos_eq. lra.
Qed.

Lemma the_two_directions_witness :
  In (0, 1)%nat [(0, 1); (1, 0)]%nat
  /\ In (1, 0)%nat [(0, 1); (1, 0)]%nat
  /\ (0, 0) <> (1, 0)
  /\ norm (vsub
             (vadd (0, 0)
                (vscale (0.2 / 2)
                   (Predicates.unit_normal (vsub (1, 0) (0, 0)))))
             (vadd (0, 0)
                (vscale (- (0.2 / 2))
                   (Predicates.unit_normal (vsub (1, 0) (0, 0))))))
     = (0.2 + 0.2) / 2.
Proof.
  assert (H : (0, 0) <> (1, 0)) by (intros E; inversion E; lra).
  split; [ now left | ]. split; [ right; now left | ].
  split; [ exact H | ].
  apply (the_two_directions_are_drawn_side_by_side [(0, 1); (1, 0)]%nat
           (fun n => if Nat.eqb n 0 then (0, 0) else (1, 0)) (fun _ => 0.2)
           0%nat 1%nat).
  - now left.
  - right; now left.
  - exact H.
  - lra.
  - lra.
Defined.

(** ** The range of the compatibility scores *)

Module ScoreFacts.

Import EdgeLayout.

Lemma scale_score (p q : R) :
  0 < p -> p <= q ->
  let avg := 0.5 * (p + q) in
  avg / p + q / avg = 2 + (q - p) / 2 * (1 / p + 1 / avg).
Proof.
  intros Hp Hq avg. unfold avg. replace 0.5 with (/ 2) by lra. field. lra.
Qed.

Lemma reciprocal_bounds (D : R) :
  2 <= D -> 0 < 2 / D <= 1 /\ (2 / D = 1 <-> D = 2).
Proof.
  intros HD. assert (Hc : 2 / D * D = 2) by (field; lra).
  split; [ split | split ].
  - apply Rdiv_lt_0_compat; lra.
  - apply Rmult_le_reg_r with D; [ lra | ]. rewrite Hc. lra.
  - intros H1. rewrite H1 in Hc. lra.
  - intros ->. field.
Qed.

Lemma scale_score_bounds (p q : R) :
  0 < p -> p <= q ->
  let c := 2 / (0.5 * (p + q) / p + q / (0.5 * (p + q))) in
  0 < c <= 1 /\ (c = 1 <-> p = q).
Proof.
  intros Hp Hq c. pose proof (scale_score p q Hp Hq) as E. cbv zeta in E.
  subst c.
  assert (Hinv : 0 < 1 / p + 1 / (0.5 * (p + q))).
  { apply Rplus_lt_0_compat; apply Rdiv_lt_0_compat; lra. }
  assert (HD : 2 <= 0.5 * (p + q) / p + q / (0.5 * (p + q)))
    by (rewrite E; nra).
  destruct (reciprocal_bounds _ HD) as [Hb Heq].
  split; [ exact Hb | ]. rewrite Heq, E. split.
  - intros H. nra.
  - intros <-. lra.
Qed.

Lemma _get_scale_compatibility_bounds (P Q : Segment) :
  0 < length P -> 0 < length Q ->
  0 < _get_scale_compatibility P Q <= 1
  /\ (_get_scale_compatibility P Q = 1 <-> length P = length Q).
Proof.
  intros HP HQ. unfold _get_scale_compatibility. cbv zeta.
  destruct (Rle_dec (length P) (length Q)) as [H | H].
  - rewrite Rmin_left, Rmax_right by assumption.
    apply (scale_score_bounds (length P) (length Q)); assumption.
  - rewrite Rmin_right, Rmax_left by lra.
    rewrite (Rplus_comm (length P) (length Q)).
    destruct (scale_score_bounds (length Q) (length P) HQ ltac:(lra))
      as [Hb Heq].
    split; [ exact Hb | ]. rewrite Heq. split; congruence.
Qed.

Lemma _get_angle_compatibility_bounds (P Q : Segment) :
  0 <= _get_angle_compatibility P Q <= 1.
Proof.
  unfold _get_angle_compatibility, clip. split; [ apply Rabs_pos | ].
  apply Rabs_le. unfold Rmin, Rmax.
  repeat destruct (Rle_dec _ _); lra.
Qed.

Lemma _get_position_compatibility_bounds (P Q : Segment) :
  0 < length P -> 0 < length Q ->
  0 < _get_position_compatibility P Q <= 1.
Proof.
  intros HP HQ. unfold _get_position_compatibility. cbv zeta.
  pose proof (norm_nonneg (vsub (midpoint Q) (midpoint P))) as Hd.
  set (d := norm (vsub (midpoint Q) (midpoint P))) in *.
  set (avg := 0.5 * (length P + length Q)).
  assert (Havg : 0 < avg) by (unfold avg; lra).
  split.
  - apply Rdiv_lt_0_compat; lra.
  - apply Rmult_le_reg_r with (avg + d); [ lra | ].
    replace (avg / (avg + d) * (avg + d)) with avg by (field; lra). lra.
Qed.

Lemma _get_visibility_bounds (P Q : Segment) :
  length (projected_interval P Q) <> 0 ->
  0 <= _get_visibility P Q <= 1.
Proof.
  intros HI. unfold _get_visibility. cbv zeta.
  set (I := projected_interval P Q) in *.
  pose proof (norm_nonneg (vsub (midpoint P) (midpoint I))) as Hd.
  assert (Hlen : 0 < length I).
  { assert (H0 : 0 <= length I) by (unfold I, projected_interval; cbn [length mkSegment]; apply norm_nonneg).
    lra. }
  split; [ apply Rmax_r | ].
  apply Rmax_lub; [ | lra ].
  assert (0 <= 2 * norm (vsub (midpoint P) (midpoint I)) / length I).
  { apply Rmult_le_pos; [ lra | ]. apply Rlt_le, Rinv_0_lt_compat.
    assumption. }
  lra.
Qed.

Lemma _get_visibility_compatibility_bounds (P Q : Segment) :
  length (projected_interval P Q) <> 0 ->
  length (projected_interval Q P) <> 0 ->
  0 <= _get_visibility_compatibility P Q <= 1.
Proof.
  intros H1 H2. unfold _get_visibility_compatibility.
  pose proof (_get_visibility_bounds P Q H1).
  pose proof (_get_visibility_bounds Q P H2).
  unfold Rmin. destruct (Rle_dec _ _); lra.
Qed.

(** With factors between 0 and 1 the running product only decreases: the
    score is abandoned exactly when the full product is below the
    threshold. *)
Lemma pair_compatibility_score (threshold : R) (P Q : Segment) :
  0 < length P -> 0 < length Q ->
  length (projected_interval P Q) <> 0 ->
  length (projected_interval Q P) <> 0 ->
  let score :=
    1 * _get_scale_compatibility P Q * _get_position_compatibility P Q
    * _get_angle_compatibility P Q * _get_visibility_compatibility P Q in
  0 <= score <= 1
  /\ pair_compatibility threshold P Q
     = if Rlt_dec score threshold then None else Some score.
Proof.
  intros HP HQ HI1 HI2 score.
  destruct (_get_scale_compatibility_bounds P Q HP HQ) as [[Hs0 Hs1] _].
  destruct (_get_position_compatibility_bounds P Q HP HQ) as [Hp0 Hp1].
  destruct (_get_angle_compatibility_bounds P Q) as [Ha0 Ha1].
  destruct (_get_visibility_compatibility_bounds P Q HI1 HI2) as [Hv0 Hv1].
  unfold score, pair_compatibility. cbv zeta.
  set (s := _get_scale_compatibility P Q) in *.
  set (p := _get_position_compatibility P Q) in *.
  set (a := _get_angle_compatibility P Q) in *.
  set (v := _get_visibility_compatibility P Q) in *.
  assert (Hsp : 0 <= 1 * s * p <= 1 * s) by nra.
  assert (Hspa : 0 <= 1 * s * p * a <= 1 * s * p) by nra.
  assert (Hspav : 0 <= 1 * s * p * a * v <= 1 * s * p * a) by nra.
  split; [ lra | ].
  destruct (Rlt_dec (1 * s * p * a * v) threshold) as [Hlt | Hge].
  - destruct (Rlt_dec (1 * s) threshold); [ reflexivity | ].
    destruct (Rlt_dec (1 * s * p) threshold); [ reflexivity | ].
    destruct (Rlt_dec (1 * s * p * a) threshold); [ reflexivity | ].
    reflexivity.
  - destruct (Rlt_dec (1 * s) threshold); [ lra | ].
    destruct (Rlt_dec (1 * s * p) threshold); [ lra | ].
    destruct (Rlt_dec (1 * s * p * a) threshold); [ lra | ].
    reflexivity.
Qed.

(** Two parallel unit segments, one above the other. *)
Lemma parallel_segments_project :
  0 < length (mkSegment (0, 0) (1, 0))
  /\ 0 < length (mkSegment (0, 1) (1, 1))
  /\ length (projected_interval (mkSegment (0, 0) (1, 0))
                                (mkSegment (0, 1) (1, 1))) <> 0
  /\ length (projected_interval (mkSegment (0, 1) (1, 1))
                                (mkSegment (0, 0) (1, 0))) <> 0.
Proof.
  assert (N1 : (0, 0) <> (1, 0)) by (intros E; inversion E; lra).
  assert (N2 : (0, 1) <> (1, 1)) by (intros E; inversion E; lra).
  split; [ now apply ShiftFacts.norm_pos_of_neq | ].
  split; [ now apply ShiftFacts.norm_pos_of_neq | ].
  split.
  - intros E. apply (SegmentFacts.projected_interval_degenerate _ _ _ _ N1) in E.
    unfold dot, vsub in E; cbn [fst snd] in E. lra.
  - intros E. apply (SegmentFacts.projected_interval_degenerate _ _ _ _ N2) in E.
    unfold dot, vsub in E; cbn [fst snd] in E. lra.
Qed.

End ScoreFacts.

(** X15. For segments of positive length the scale compatibility lies in
    (0, 1], and it is 1 exactly when the two lengths are equal. *)
Theorem scale_compatibility_is_one_for_equal_lengths_only :
  forall P Q : EdgeLayout.Segment,
    0 < EdgeLayout.length P -> 0 < EdgeLayout.length Q ->
    0 < EdgeLayout._get_scale_compatibility P Q <= 1
    /\ (EdgeLayout._get_scale_compatibility P Q = 1
        <-> EdgeLayout.length P = EdgeLayout.length Q).
Proof. exact ScoreFacts._get_scale_compatibility_bounds. Qed.

Lemma scale_compatibility_witness :
  0 < EdgeLayout.length (EdgeLayout.mkSegment (0, 0) (3, 4))
  /\ 0 < EdgeLayout.length (EdgeLayout.mkSegment (1, 1) (2, 1))
  /\ 0 < EdgeLayout._get_scale_compatibility
           (EdgeLayout.mkSegment (0, 0) (3, 4))
           (EdgeLayout.mkSegment (1, 1) (2, 1)) <= 1.
Proof.
  assert (H1 : 0 < EdgeLayout.length (EdgeLayout.mkSegment (0, 0) (3, 4))).
  { apply ShiftFacts.norm_pos_of_neq. intros E; inversion E; lra. }
  assert (H2 : 0 < EdgeLayout.length (EdgeLayout.mkSegment (1, 1) (2, 1))).
  { apply ShiftFacts.norm_pos_of_neq. intros E; inversion E; lra. }
  split; [ exact H1 | ]. split; [ exact H2 | ].
  exact (proj1 (scale_compatibility_is_one_for_equal_lengths_only _ _ H1 H2)).
Defined.

(** X16. For segments of positive length whose projections onto each other
    do not degenerate, the product of the four factors lies in [0, 1] and
    the early exits of [_get_edge_compatibility] are an optimisation only:
    a pair is abandoned exactly when the full product is below the
    threshold. *)
Theorem early_exits_do_not_change_the_score :
  forall (threshold : R) (P Q : EdgeLayout.Segment),
    0 < EdgeLayout.length P -> 0 < EdgeLayout.length Q ->
    EdgeLayout.length (EdgeLayout.projected_interval P Q) <> 0 ->
    EdgeLayout.length (EdgeLayout.projected_interval Q P) <> 0 ->
    let score :=
      1 * EdgeLayout._get_scale_compatibility P Q
      * EdgeLayout._get_position_compatibility P Q
      * EdgeLayout._get_angle_compatibility P Q
      * EdgeLayout._get_visibility_compatibility P Q in
    0 <= score <= 1
    /\ EdgeLayout.pair_compatibility threshold P Q
       = if Rlt_dec score threshold then None else Some score.
Proof. exact ScoreFacts.pair_compatibility_score. Qed.

Lemma early_exits_witness :
  EdgeLayout.pair_compatibility 2
    (EdgeLayout.mkSegment (0, 0) (1, 0)) (EdgeLayout.mkSegment (0, 1) (1, 1))
  = None.
Proof.
  destruct ScoreFacts.parallel_segments_project as [H1 [H2 [H3 H4]]].
  destruct (early_exits_do_not_change_the_score 2 _ _ H1 H2 H3 H4)
    as [Hs E].
  rewrite E. destruct (Rlt_dec _ 2); [ reflexivity | lra ].
Defined.

Module ThresholdFacts.

Import EdgeLayout.

Lemma pair_compatibility_threshold (threshold : R) (P Q : Segment) (c : R) :
  pair_compatibility threshold P Q = Some c ->
  threshold <= c
  /\ forall lower, lower <= threshold ->
                   pair_compatibility lower P Q = Some c.
Proof.
  unfold pair_compatibility. cbv zeta.
  set (s := _get_scale_compatibility P Q).
  set (p := _get_position_compatibility P Q).
  set (a := _get_angle_compatibility P Q).
  set (v := _get_visibility_compatibility P Q).
  intros E.
  destruct (Rlt_dec (1 * s) threshold); [ discriminate | ].
  destruct (Rlt_dec (1 * s * p) threshold); [ discriminate | ].
  destruct (Rlt_dec (1 * s * p * a) threshold); [ discriminate | ].
  destruct (Rlt_dec (1 * s * p * a * v) threshold); [ discriminate | ].
  inversion E; subst c. split; [ lra | ].
  intros lower Hl.
  destruct (Rlt_dec (1 * s) lower); [ lra | ].
  destruct (Rlt_dec (1 * s * p) lower); [ lra | ].
  destruct (Rlt_dec (1 * s * p * a) lower); [ lra | ].
  destruct (Rlt_dec (1 * s * p * a * v) lower); [ lra | ].
  reflexivity.
Qed.

End ThresholdFacts.

(** X17. A tuple returned by [_get_edge_compatibility] (for two segments
    of positive length whose projections onto each other do not
    degenerate) scores a pair of edges of the list, in the order of the
    list, with a compatibility of at least the threshold; and it is
    returned again, unchanged, for any lower threshold. *)
Theorem compatible_pairs_reach_the_threshold :
  forall edges node_positions threshold e1 e2 compatibility reverse,
    let P := EdgeLayout.mkSegment (node_positions (fst e1))
                                  (node_positions (snd e1)) in
    let Q := EdgeLayout.mkSegment (node_positions (fst e2))
                                  (node_positions (snd e2)) in
    0 < EdgeLayout.length P -> 0 < EdgeLayout.length Q ->
    EdgeLayout.length (EdgeLayout.projected_interval P Q) <> 0 ->
    EdgeLayout.length (EdgeLayout.projected_interval Q P) <> 0 ->
    In (e1, e2, compatibility, reverse)
       (EdgeLayout._get_edge_compatibility edges node_positions threshold) ->
    In (e1, e2) (EdgeLayout.combinations2 edges)
    /\ threshold <= compatibility
    /\ forall lower,
         lower <= threshold ->
         In (e1, e2, compatibility, reverse)
            (EdgeLayout._get_edge_compatibility edges node_positions lower).
Proof.
  intros edges node_positions threshold e1 e2 c reverse P Q _ _ _ _ H.
  clear P Q.
  unfold EdgeLayout._get_edge_compatibility in H. cbv zeta in H.
  apply in_flat_map in H. destruct H as [[a b] [Hin H]]. cbn [fst snd] in H.
  destruct (EdgeLayout.pair_compatibility threshold _ _) as [c' | ] eqn:E;
    [ | destruct H ].
  destruct H as [H | []]. inversion H; subst; clear H.
  destruct (ThresholdFacts.pair_compatibility_threshold _ _ _ _ E)
    as [Hc Hlower].
  split; [ exact Hin | ]. split; [ exact Hc | ].
  intros lower Hl. unfold EdgeLayout._get_edge_compatibility. cbv zeta.
  apply in_flat_map. exists (e1, e2). split; [ exact Hin | ].
  cbn [fst snd]. rewrite (Hlower lower Hl). now left.
Qed.

Lemma compatible_pairs_witness :
  exists compatibility reverse,
    In ((0, 1)%nat, (2, 3)%nat, compatibility, reverse)
       (EdgeLayout._get_edge_compatibility [(0, 1); (2, 3)]%nat
          (fun n => match n with
                    | 0%nat => (0, 0) | 1%nat => (1, 0)
                    | 2%nat => (0, 1) | _ => (1, 1)
                    end) 0)
    /\ 0 <= compatibility.
Proof.
  destruct ScoreFacts.parallel_segments_project as [H1 [H2 [H3 H4]]].
  destruct (ScoreFacts.pair_compatibility_score 0 _ _ H1 H2 H3 H4)
    as [Hs E].
  assert (Hin : In ((0, 1)%nat, (2, 3)%nat,
                    1 * EdgeLayout._get_scale_compatibility
                          (EdgeLayout.mkSegment (0, 0) (1, 0))
                          (EdgeLayout.mkSegment (0, 1) (1, 1))
                    * EdgeLayout._get_position_compatibility
                        (EdgeLayout.mkSegment (0, 0) (1, 0))
                        (EdgeLayout.mkSegment (0, 1) (1, 1))
                    * EdgeLayout._get_angle_compatibility
                        (EdgeLayout.mkSegment (0, 0) (1, 0))
                        (EdgeLayout.mkSegment (0, 1) (1, 1))
                    * EdgeLayout._get_visibility_compatibility
                        (EdgeLayout.mkSegment (0, 0) (1, 0))
                        (EdgeLayout.mkSegment (0, 1) (1, 1)),
                    EdgeLayout.pair_reverse
                      (EdgeLayout.mkSegment (0, 0) (1, 0))
                      (EdgeLayout.mkSegment (0, 1) (1, 1)))
                   (EdgeLayout._get_edge_compatibility [(0, 1); (2, 3)]%nat
                      (fun n => match n with
                                | 0%nat => (0, 0) | 1%nat => (1, 0)
                                | 2%nat => (0, 1) | _ => (1, 1)
                                end) 0)).
  { unfold EdgeLayout._get_edge_compatibility. cbv zeta.
    cbn [EdgeLayout.combinations2 map app flat_map fst snd].
    rewrite E. destruct (Rlt_dec _ 0); [ lra | ]. now left. }
  eexists. eexists. split; [ exact Hin | ].
  exact (proj1 (proj2 (compatible_pairs_reach_the_threshold _ _ _ _ _ _ _
                         H1 H2 H3 H4 Hin))).
Defined.

(** ** The projection onto the line of a segment *)

Module ProjectionFacts.

Import EdgeLayout.

Lemma norm_sqr (v : vec) : norm v ^ 2 = fst v * fst v + snd v * snd v.
Proof.
  unfold norm. simpl pow. rewrite Rmult_1_r. apply sqrt_sqrt.
  pose proof (Rle_0_sqr (fst v)). pose proof (Rle_0_sqr (snd v)).
  unfold Rsqr in *. lra.
Qed.

Lemma projection_residual (a b point : vec) :
  a <> b ->
  dot (vsub point
            (get_orthogonal_projection_onto_segment (mkSegment a b) point))
      (vsub b a) = 0.
Proof.
  intros Hab.
  assert (Hn : norm (vsub b a) ^ 2 <> 0).
  { pose proof (ShiftFacts.norm_pos_of_neq a b Hab). simpl pow. nra. }
  unfold get_orthogonal_projection_onto_segment. cbv zeta.
  cbn [p0 vector length mkSegment].
  set (v := vsub b a) in *. set (n2 := norm v ^ 2) in *.
  assert (E : n2 = fst v * fst v + snd v * snd v) by apply norm_sqr.
  unfold dot, vsub, vadd, vscale; cbn [fst snd].
  replace ((fst point - (fst a + ((fst point - fst a) * fst v
                                   + (snd point - snd a) * snd v) / n2 * fst v))
           * fst v
           + (snd point - (snd a + ((fst point - fst a) * fst v
                                    + (snd point - snd a) * snd v) / n2 * snd v))
             * snd v)
    with (((fst point - fst a) * fst v + (snd point - snd a) * snd v)
          * (1 - (fst v * fst v + snd v * snd v) / n2))
    by (field; assumption).
  rewrite <- E. replace (n2 / n2) with 1 by (field; assumption). ring.
Qed.

Lemma projection_of_a_point_of_the_line (a b : vec) (t : R) :
  a <> b ->
  get_orthogonal_projection_onto_segment (mkSegment a b)
    (vadd a (vscale t (vsub b a)))
  = vadd a (vscale t (vsub b a)).
Proof.
  intros Hab.
  assert (Hn : norm (vsub b a) ^ 2 <> 0).
  { pose proof (ShiftFacts.norm_pos_of_neq a b Hab). simpl pow. nra. }
  unfold get_orthogonal_projection_onto_segment. cbv zeta.
  cbn [p0 vector length mkSegment].
  set (v := vsub b a) in *. set (n2 := norm v ^ 2) in *.
  assert (E : n2 = fst v * fst v + snd v * snd v) by apply norm_sqr.
  assert (Ht : dot (vsub (vadd a (vscale t v)) a) v / n2 = t).
  { unfold dot, vsub, vadd, vscale; cbn [fst snd].
    replace ((fst a + t * fst v - fst a) * fst v
             + (snd a + t * snd v - snd a) * snd v)
      with (t * (fst v * fst v + snd v * snd v)) by ring.
    rewrite <- E. field. assumption. }
  now rewrite Ht.
Qed.

End ProjectionFacts.

(** X18. [get_orthogonal_projection_onto_segment] projects onto the line
    through the segment: the point minus its projection is orthogonal to
    the segment, projecting twice is projecting once, and every point
    [a + t (b - a)] of the line is its own projection, also for [t]
    outside [0, 1], that is beyond the end points of the segment. *)
Theorem projection_is_onto_the_line_not_the_segment :
  forall (a b point : vec) (t : R),
    a <> b ->
    let S := EdgeLayout.mkSegment a b in
    let foot := EdgeLayout.get_orthogonal_projection_onto_segment S point in
    dot (vsub point foot) (EdgeLayout.vector S) = 0
    /\ EdgeLayout.get_orthogonal_projection_onto_segment S foot = foot
    /\ EdgeLayout.get_orthogonal_projection_onto_segment S
         (vadd a (vscale t (vsub b a)))
       = vadd a (vscale t (vsub b a)).
Proof.
  intros a b point t Hab S foot. split; [ | split ].
  - apply ProjectionFacts.projection_residual. exact Hab.
  - unfold foot, S, EdgeLayout.get_orthogonal_projection_onto_segment at 2 3.
    cbv zeta. cbn [EdgeLayout.p0 EdgeLayout.vector EdgeLayout.mkSegment].
    now apply ProjectionFacts.projection_of_a_point_of_the_line.
  - now apply ProjectionFacts.projection_of_a_point_of_the_line.
Qed.

Lemma projection_witness :
  (0, 0) <> (1, 0)
  /\ EdgeLayout.get_orthogonal_projection_onto_segment
       (EdgeLayout.mkSegment (0, 0) (1, 0))
       (vadd (0, 0) (vscale 2 (vsub (1, 0) (0, 0))))
     = vadd (0, 0) (vscale 2 (vsub (1, 0) (0, 0))).
Proof.
  assert (H : (0, 0) <> (1, 0)) by (intros E; inversion E; lra).
  split; [ exact H | ].
  exact (proj2 (proj2 (projection_is_onto_the_line_not_the_segment
                         (0, 0) (1, 0) (5, 7) 2 H))).
Defined.

(** ** The chains of control points, cycle by cycle *)

Module CycleFacts.

Import EdgeLayout Predicates Notions EntryFacts ChainFacts.

(** The number of points of a chain after some cycles. *)
Lemma bundle_cycles_length node_positions edges cycles edge_to_k compat n
  step_size L e2cp :
  (forall c, In c compat ->
             In (fst (fst (fst c))) edges /\ In (snd (fst (fst c))) edges) ->
  (2 <= L)%nat -> chains_ok node_positions edges L e2cp ->
  chains_ok node_positions edges (2 ^ cycles * (L - 1) + 1)
    (bundle_cycles cycles edge_to_k compat n step_size e2cp).
Proof.
  intros Hcompat. revert n step_size L e2cp.
  induction cycles as [ | cycles IH]; intros n step_size L e2cp HL Hc.
  - replace (2 ^ 0 * (L - 1) + 1)%nat with L by (simpl; lia). exact Hc.
  - cbn [bundle_cycles].
    replace (2 ^ S cycles * (L - 1) + 1)%nat
      with (2 ^ cycles * ((2 * (L - 1) + 1) - 1) + 1)%nat
      by (rewrite Nat.pow_succ_r'; lia).
    apply IH; [ lia | ].
    apply bundle_iterations_ok; [ lia | assumption | ].
    now apply _expand_control_points_ok.
Qed.

(** *** Chains at equal steps *)

Lemma evenly_spaced_init (a b : vec) : evenly_spaced a b 1 [a; b].
Proof.
  split; [ reflexivity | ]. intros i Hi.
  destruct a as [a1 a2], b as [b1 b2].
  destruct i as [ | [ | i]]; [ | | lia ]; simpl;
    unfold vadd, vscale, vsub; cbn [fst snd]; apply vec_eq; field.
Qed.

Lemma INR_double_half (m : nat) : INR (2 * m) / 2 = INR m.
Proof. rewrite mult_INR. simpl INR. field. Qed.

Lemma expand_chain_evenly_spaced (a b : vec) (n : nat) (chain : polyline) :
  (1 <= n)%nat -> evenly_spaced a b n chain ->
  evenly_spaced a b (2 * n) (expand_chain chain).
Proof.
  intros Hn [Hlen Hnth]. unfold expand_chain. cbv zeta. rewrite Hlen.
  replace (2 * (S n - 1) + 1)%nat with (S (2 * n)) by lia.
  split; [ now rewrite length_map, length_seq | ].
  intros i Hi. rewrite nth_map_seq by lia.
  assert (Hn0 : INR n <> 0) by (apply not_0_INR; lia).
  assert (H2n : INR (2 * n) = 2 * INR n) by (rewrite mult_INR; simpl; ring).
  destruct (Nat.even i) eqn:Ev.
  - apply Nat.even_spec in Ev. destruct Ev as [m ->].
    replace (2 * m / 2)%nat with m
      by (symmetry; rewrite Nat.mul_comm; apply Nat.div_mul; lia).
    rewrite Hnth by lia. f_equal. f_equal.
    rewrite H2n, mult_INR. simpl INR. field. assumption.
  - assert (Hodd : Nat.odd i = true)
      by (rewrite <- Nat.negb_even, Ev; reflexivity).
    apply Nat.odd_spec in Hodd. destruct Hodd as [m ->].
    replace ((2 * m + 1 - 1) / 2)%nat with m
      by (replace (2 * m + 1 - 1)%nat with (m * 2)%nat by lia;
          symmetry; apply Nat.div_mul; lia).
    replace ((2 * m + 1 + 1) / 2)%nat with (S m)
      by (replace (2 * m + 1 + 1)%nat with (S m * 2)%nat by lia;
          symmetry; apply Nat.div_mul; lia).
    rewrite !Hnth by lia.
    rewrite H2n, plus_INR, mult_INR, S_INR. simpl INR.
    destruct a as [a1 a2], b as [b1 b2].
    unfold vadd, vscale, vsub; cbn [fst snd].
    replace 0.5 with (/ 2) by lra.
    apply vec_eq; field; assumption.
Qed.

Lemma np_diff_nth (chain : polyline) (i : nat) :
  (S i < List.length chain)%nat ->
  nth i (np_diff chain) vzero
  = vsub (nth (S i) chain vzero) (nth i chain vzero).
Proof.
  intros H. unfold np_diff.
  now rewrite (nth_map_seq
                 (fun i => vsub (nth (S i) chain vzero) (nth i chain vzero)))
    by lia.
Qed.

(** The springs of a chain at equal steps are in equilibrium. *)
Lemma spring_delta_evenly_spaced (a b : vec) (n : nat) (chain : polyline) :
  (1 <= n)%nat -> evenly_spaced a b n chain ->
  spring_delta chain = map (fun _ => vzero) (seq 0 (S n)).
Proof.
  intros Hn [Hlen Hnth]. unfold spring_delta. cbv zeta. rewrite Hlen.
  apply map_ext_in. intros i Hi. apply in_seq in Hi.
  destruct (Nat.leb 1 i && Nat.ltb i (S n - 1)) eqn:E; [ | reflexivity ].
  apply andb_true_iff in E. destruct E as [E1 E2].
  apply Nat.leb_le in E1. apply Nat.ltb_lt in E2.
  rewrite !np_diff_nth by lia.
  replace (S (i - 1)) with i by lia.
  rewrite !Hnth by lia.
  assert (Hn0 : INR n <> 0) by (apply not_0_INR; lia).
  replace (INR (S i)) with (INR i + 1) by (now rewrite S_INR).
  replace (INR (i - 1)) with (INR i - 1)
    by (rewrite minus_INR by lia; simpl; ring).
  destruct a as [a1 a2], b as [b1 b2].
  unfold vadd, vscale, vsub, vzero; cbn [fst snd].
  apply vec_eq; field; assumption.
Qed.

Lemma clamped_displacement_zero (n : nat) (step_size : R) :
  clamped_displacement (map (fun _ => vzero) (seq 0 n)) step_size
  = map (fun _ => vzero) (seq 0 n).
Proof.
  unfold clamped_displacement. cbv zeta. rewrite map_map.
  apply map_ext. intros _. unfold vtimes, vdiv, vzero; cbn [fst snd].
  apply vec_eq; unfold Rdiv; ring.
Qed.

Lemma map2_vadd_zero (chain : polyline) :
  map2 vadd chain (map (fun _ => vzero) (seq 0 (List.length chain))) = chain.
Proof.
  apply (nth_ext _ _ vzero vzero).
  - now rewrite map2_length, length_map, length_seq, Nat.min_id.
  - intros i Hi.
    rewrite map2_length, length_map, length_seq, Nat.min_id in Hi.
    rewrite (nth_map2 _ _ _ _ vzero vzero)
      by (rewrite ?length_map, ?length_seq; assumption).
    rewrite (nth_map_seq (fun _ => vzero)) by assumption.
    apply vadd_zero_r.
Qed.

Lemma dict_set_same {V : Type} (d : list (edge * V)) (k : edge) (v : V) :
  dict_get edge_eqb d k = Some v -> dict_set edge_eqb d k v = d.
Proof.
  induction d as [ | [k' v'] d IH]; simpl; [ discriminate | ].
  destruct (edge_eqb k k') eqn:E.
  - intros H. inversion H; subst. reflexivity.
  - intros H. f_equal. now apply IH.
Qed.

Section Straight.
Variable node_positions : node -> vec.
Variable n : nat.
Hypothesis Hn : (1 <= n)%nat.

Local Abbreviation all_straight := (Notions.all_straight node_positions n).

Lemma _get_Fs_straight d edge_to_k :
  all_straight d ->
  entries_satisfy (fun _ f => f = map (fun _ => vzero) (seq 0 (S n)))
    (_get_Fs d edge_to_k).
Proof.
  intros H. unfold _get_Fs.
  apply (entries_map_values
           (fun e chain =>
              evenly_spaced (node_positions (fst e)) (node_positions (snd e))
                n chain)); [ | exact H ].
  intros k v Hv. cbv zeta. cbn [fst snd].
  rewrite (spring_delta_evenly_spaced _ _ n v Hn Hv), map_map.
  apply map_ext. intros _. apply vscale_vzero.
Qed.

Lemma _update_straight d F step_size :
  all_straight d ->
  entries_satisfy (fun _ f => f = map (fun _ => vzero) (seq 0 (S n))) F ->
  (forall k, dict_mem edge_eqb F k = true -> dict_mem edge_eqb d k = true) ->
  _update_control_point_positions d F step_size = d.
Proof.
  intros Hd HF Hkeys. unfold _update_control_point_positions.
  assert (Hitems : Forall (fun kv => snd kv = map (fun _ => vzero) (seq 0 (S n))
                                     /\ dict_mem edge_eqb d (fst kv) = true) F).
  { apply Forall_forall. intros [k f] Hin. cbn [fst snd]. split.
    - unfold entries_satisfy in HF. rewrite Forall_forall in HF.
      exact (HF (k, f) Hin).
    - apply Hkeys. rewrite KeyFacts.dict_mem_existsb.
      apply existsb_exists. exists (k, f). split; [ assumption | ].
      apply edge_eqb_refl. }
  clear HF Hkeys. induction Hitems as [ | [k f] F [Hf Hk] _ IH];
    [ reflexivity | ].
  cbn [fold_left fst snd] in *.
  apply KeyFacts.dict_mem_get in Hk. destruct Hk as [chain Hchain].
  pose proof (entries_get _ _ _ _ Hd Hchain) as [Hlen _].
  assert (E : map2 vadd (dict_at d k []) (clamped_displacement f step_size)
              = chain).
  { unfold dict_at. rewrite Hchain, Hf, clamped_displacement_zero.
    rewrite <- Hlen. apply map2_vadd_zero. }
  rewrite E, (dict_set_same d k chain Hchain). exact IH.
Qed.

Lemma bundle_iterations_straight iters edge_to_k step_size d :
  all_straight d ->
  bundle_iterations iters edge_to_k [] step_size d = d.
Proof.
  intros Hd. induction iters as [ | iters IH]; [ reflexivity | ].
  cbn [bundle_iterations]. cbv zeta.
  change (_get_Fe d [] (_get_Fs d edge_to_k)) with (_get_Fs d edge_to_k).
  rewrite _update_straight; [ exact IH | exact Hd | | ].
  - now apply _get_Fs_straight.
  - intros k. now rewrite BundledFacts._get_Fs_mem.
Qed.

End Straight.

Lemma _expand_control_points_straight node_positions n d :
  (1 <= n)%nat -> all_straight node_positions n d ->
  all_straight node_positions (2 * n) (_expand_control_points d).
Proof.
  intros Hn Hd. unfold _expand_control_points, all_straight.
  apply (entries_map_values
           (fun e chain =>
              evenly_spaced (node_positions (fst e)) (node_positions (snd e))
                n chain)); [ | exact Hd ].
  intros k v Hv. cbn [fst snd]. now apply expand_chain_evenly_spaced.
Qed.

Lemma bundle_cycles_straight node_positions cycles edge_to_k iters step_size
  n d :
  (1 <= n)%nat -> all_straight node_positions n d ->
  all_straight node_positions (2 ^ cycles * n)
    (bundle_cycles cycles edge_to_k [] iters step_size d).
Proof.
  revert iters step_size n d.
  induction cycles as [ | cycles IH]; intros iters step_size n d Hn Hd.
  - replace (2 ^ 0 * n)%nat with n by (simpl; lia). exact Hd.
  - cbn [bundle_cycles]. cbv zeta.
    replace (2 ^ S cycles * n)%nat with (2 ^ cycles * (2 * n))%nat
      by (rewrite Nat.pow_succ_r'; lia).
    pose proof (_expand_control_points_straight _ _ _ Hn Hd) as He.
    rewrite (bundle_iterations_straight node_positions (2 * n) ltac:(lia)
               _ _ _ _ He).
    apply IH; [ lia | exact He ].
Qed.

Lemma _initialize_bundled_control_points_straight node_positions edges :
  all_straight node_positions 1
    (_initialize_bundled_control_points edges node_positions).
Proof.
  unfold _initialize_bundled_control_points, all_straight.
  assert (H : forall l d,
             all_straight node_positions 1 d ->
             all_straight node_positions 1
               (fold_left (fun d e =>
                             dict_set edge_eqb d e
                               [node_positions (fst e);
                                node_positions (snd e)]) l d)).
  { induction l as [ | e l IH]; intros d Hd; simpl; [ exact Hd | ].
    apply IH. apply entries_set; [ exact Hd | ]. apply evenly_spaced_init. }
  apply H. constructor.
Qed.

End CycleFacts.

(** X19. Every cycle of edge bundling doubles the number of segments of a
    chain: after [cycles] cycles of expansion and iteration the chain of
    every edge, started from the two positions of its nodes, has
    [2 ^ cycles + 1] control points, and only the edges of the list have a
    chain. *)
Theorem every_cycle_doubles_the_segments :
  forall edges node_positions k threshold cycles iterations step_size e chain,
    dict_get edge_eqb
      (EdgeLayout.bundle_cycles cycles
         (EdgeLayout._get_k edges node_positions k)
         (EdgeLayout._get_edge_compatibility edges node_positions threshold)
         iterations step_size
         (EdgeLayout._initialize_bundled_control_points edges node_positions))
      e = Some chain ->
    In e edges /\ length chain = (2 ^ cycles + 1)%nat.
Proof.
  intros edges node_positions k threshold cycles iterations step_size e chain
         H.
  destruct (CycleFacts.bundle_cycles_length node_positions edges cycles
              (EdgeLayout._get_k edges node_positions k)
              (EdgeLayout._get_edge_compatibility edges node_positions
                 threshold)
              iterations step_size 2
              (EdgeLayout._initialize_bundled_control_points edges
                 node_positions)) as [Hent Hkeys].
  - apply BundledFacts._get_edge_compatibility_edges.
  - lia.
  - apply ChainFacts._initialize_bundled_control_points_ok.
  - replace (2 ^ cycles * (2 - 1) + 1)%nat with (2 ^ cycles + 1)%nat
      in Hent by lia.
    destruct (EntryFacts.entries_get _ _ _ _ Hent H) as [Hlen _].
    split; [ | exact Hlen ].
    apply mem_edge_In. rewrite <- Hkeys.
    apply KeyFacts.dict_mem_get. eauto.
Qed.

(** X20. Without compatible pairs of edges nothing bends a chain: the
    springs of a chain at equal steps are in equilibrium, so after any
    number of cycles and iterations the control points of an edge between
    two different positions are the [2 ^ cycles + 1] points at equal steps
    on the straight line from the source to the target. *)
Theorem chains_stay_straight_without_compatible_pairs :
  forall edges node_positions k cycles iterations step_size e chain i,
    dict_get edge_eqb
      (EdgeLayout.bundle_cycles cycles
         (EdgeLayout._get_k edges node_positions k) []
         iterations step_size
         (EdgeLayout._initialize_bundled_control_points edges node_positions))
      e = Some chain ->
    node_positions (fst e) <> node_positions (snd e) ->
    (i <= 2 ^ cycles)%nat ->
    nth i chain vzero
    = vadd (node_positions (fst e))
           (vscale (INR i / INR (2 ^ cycles))
                   (vsub (node_positions (snd e)) (node_positions (fst e)))).
Proof.
  intros edges node_positions k cycles iterations step_size e chain i H _ Hi.
  pose proof (CycleFacts.bundle_cycles_straight node_positions cycles
                (EdgeLayout._get_k edges node_positions k) iterations
                step_size 1
                (EdgeLayout._initialize_bundled_control_points edges
                   node_positions) ltac:(lia)
                (CycleFacts._initialize_bundled_control_points_straight
                   node_positions edges)) as Hall.
  replace (2 ^ cycles * 1)%nat with (2 ^ cycles)%nat in Hall by lia.
  destruct (EntryFacts.entries_get _ _ _ _ Hall H) as [_ Hnth].
  now apply Hnth.
Qed.

Lemma every_cycle_doubles_the_segments_witness :
  exists chain,
    dict_get edge_eqb
      (EdgeLayout.bundle_cycles 6
         (EdgeLayout._get_k [(0, 1); (2, 3)]%nat
            (fun n => match n with
                      | 0%nat => (0, 0) | 1%nat => (1, 0)
                      | 2%nat => (0, 1) | _ => (1, 1)
                      end) 500)
         (EdgeLayout._get_edge_compatibility [(0, 1); (2, 3)]%nat
            (fun n => match n with
                      | 0%nat => (0, 0) | 1%nat => (1, 0)
                      | 2%nat => (0, 1) | _ => (1, 1)
                      end) 0.05)
         50 0.04
         (EdgeLayout._initialize_bundled_control_points
            [(0, 1); (2, 3)]%nat
            (fun n => match n with
                      | 0%nat => (0, 0) | 1%nat => (1, 0)
                      | 2%nat => (0, 1) | _ => (1, 1)
                      end)))
      (2, 3)%nat = Some chain
    /\ length chain = 65%nat.
Proof.
  set (pos := fun n => match n with
                       | 0%nat => (0, 0) | 1%nat => (1, 0)
                       | 2%nat => (0, 1) | _ => (1, 1)
                       end).
  assert (Hmem : dict_mem edge_eqb
                   (EdgeLayout.bundle_cycles 6
                      (EdgeLayout._get_k [(0, 1); (2, 3)]%nat pos 500)
                      (EdgeLayout._get_edge_compatibility
                         [(0, 1); (2, 3)]%nat pos 0.05)
                      50 0.04
                      (EdgeLayout._initialize_bundled_control_points
                         [(0, 1); (2, 3)]%nat pos))
                   (2, 3)%nat = true).
  { rewrite (BundledFacts.bundle_cycles_keys [(0, 1); (2, 3)]%nat).
    - reflexivity.
    - apply BundledFacts._get_edge_compatibility_edges.
    - intros x. apply BundledFacts._initialize_bundled_control_points_mem. }
  apply KeyFacts.dict_mem_get in Hmem. destruct Hmem as [chain Hchain].
  exists chain. split; [ exact Hchain | ].
  exact (proj2 (every_cycle_doubles_the_segments [(0, 1); (2, 3)]%nat pos 500
                  0.05 6 50 0.04 (2, 3)%nat chain Hchain)).
Defined.

Lemma chains_stay_straight_witness :
  exists chain,
    dict_get edge_eqb
      (EdgeLayout.bundle_cycles 2
         (EdgeLayout._get_k [(0, 1)]%nat
            (fun n => if Nat.eqb n 0 then (0, 0) else (4, 0)) 500)
         [] 50 0.04
         (EdgeLayout._initialize_bundled_control_points [(0, 1)]%nat
            (fun n => if Nat.eqb n 0 then (0, 0) else (4, 0))))
      (0, 1)%nat = Some chain
    /\ (0, 0) <> (4, 0)
    /\ (3 <= 2 ^ 2)%nat
    /\ nth 3 chain vzero
       = vadd (0, 0) (vscale (INR 3 / INR (2 ^ 2)) (vsub (4, 0) (0, 0))).
Proof.
  set (pos := fun n => if Nat.eqb n 0 then (0, 0) else (4, 0)).
  assert (Hmem : dict_mem edge_eqb
                   (EdgeLayout.bundle_cycles 2
                      (EdgeLayout._get_k [(0, 1)]%nat pos 500) [] 50 0.04
                      (EdgeLayout._initialize_bundled_control_points
                         [(0, 1)]%nat pos))
                   (0, 1)%nat = true).
  { rewrite (BundledFacts.bundle_cycles_keys [(0, 1)]%nat).
    - reflexivity.
    - intros c [].
    - intros x. apply BundledFacts._initialize_bundled_control_points_mem. }
  apply KeyFacts.dict_mem_get in Hmem. destruct Hmem as [chain Hchain].
  exists chain. split; [ exact Hchain | ].
  assert (Hi : (3 <= 2 ^ 2)%nat) by (simpl; lia).
  assert (Hne : (0, 0) <> (4, 0)) by (intros E; inversion E; lra).
  split; [ exact Hne | ]. split; [ exact Hi | ].
  exact (chains_stay_straight_without_compatible_pairs [(0, 1)]%nat pos 500
           2 50 0.04 (0, 1)%nat chain 3 Hchain Hne Hi).
Defined.

(** ** Straightening *)

Module StraightenFacts.

Import EdgeLayout Notions ChainFacts.

Lemma _straighten_path_length (path : polyline) (s : R) :
  List.length (_straighten_path path s) = List.length path.
Proof.
  unfold _straighten_path. cbv zeta.
  rewrite map2_length. unfold linspace.
  rewrite length_map, length_seq. apply Nat.min_id.
Qed.

Lemma linspace_0_1_nth (n i : nat) :
  (i < n)%nat -> nth i (linspace 0 1 n) 0 = INR i / INR (n - 1).
Proof.
  intros H. unfold linspace.
  rewrite (nth_map_seq (fun j => 0 + INR j * ((1 - 0) / INR (n - 1))))
    by assumption.
  unfold Rdiv. ring.
Qed.

(** The point at place [i] of a straightened path. *)
Lemma _straighten_path_nth (path : polyline) (s : R) (i : nat) :
  (i < List.length path)%nat ->
  nth i (_straighten_path path s) vzero
  = vadd (vscale (1 - s) (nth i path vzero))
         (vscale s
            (vadd (nth 0 path vzero)
               (vscale (INR i / INR (List.length path - 1))
                  (vsub (nth (List.length path - 1) path vzero)
                        (nth 0 path vzero))))).
Proof.
  intros H. unfold _straighten_path. cbv zeta.
  assert (Hlin : List.length (linspace 0 1 (List.length path))
                 = List.length path)
    by (unfold linspace; now rewrite length_map, length_seq).
  rewrite (nth_map2 _ _ _ _ vzero 0) by lia.
  rewrite linspace_0_1_nth by assumption.
  now rewrite last_as_nth.
Qed.

Lemma _straighten_path_first (path : polyline) (s : R) :
  (2 <= List.length path)%nat ->
  nth 0 (_straighten_path path s) vzero = nth 0 path vzero.
Proof.
  intros H. rewrite _straighten_path_nth by lia.
  destruct (nth 0 path vzero) as [x0 y0],
           (nth (List.length path - 1) path vzero) as [x1 y1].
  unfold vadd, vscale, vsub; cbn [fst snd]. simpl INR.
  apply vec_eq; unfold Rdiv; ring.
Qed.

Lemma _straighten_path_last (path : polyline) (s : R) :
  (2 <= List.length path)%nat ->
  nth (List.length path - 1) (_straighten_path path s) vzero
  = nth (List.length path - 1) path vzero.
Proof.
  intros H. rewrite _straighten_path_nth by lia.
  assert (Hn : INR (List.length path - 1) <> 0) by (apply not_0_INR; lia).
  destruct (nth 0 path vzero) as [x0 y0],
           (nth (List.length path - 1) path vzero) as [x1 y1].
  unfold vadd, vscale, vsub; cbn [fst snd].
  apply vec_eq; field; assumption.
Qed.

Lemma _straighten_path_zero (path : polyline) :
  _straighten_path path 0 = path.
Proof.
  apply (nth_ext _ _ vzero vzero); [ apply _straighten_path_length | ].
  intros i Hi. rewrite _straighten_path_length in Hi.
  rewrite _straighten_path_nth by assumption.
  destruct (nth i path vzero) as [x y].
  unfold vadd, vscale; cbn [fst snd]. apply vec_eq; ring.
Qed.

Lemma _straighten_path_one (path : polyline) :
  (2 <= List.length path)%nat ->
  evenly_spaced (nth 0 path vzero) (last path vzero) (List.length path - 1)
    (_straighten_path path 1).
Proof.
  intros H. split.
  - rewrite _straighten_path_length. lia.
  - intros i Hi. rewrite _straighten_path_nth by lia.
    rewrite last_as_nth.
    destruct (nth i path vzero) as [x y],
             (nth 0 path vzero) as [x0 y0],
             (nth (List.length path - 1) path vzero) as [x1 y1].
    unfold vadd, vscale, vsub; cbn [fst snd]. apply vec_eq; ring.
Qed.

Lemma _straighten_path_twice (path : polyline) (s1 s2 : R) :
  (2 <= List.length path)%nat ->
  _straighten_path (_straighten_path path s1) s2
  = _straighten_path path (s1 + s2 - s1 * s2).
Proof.
  intros H. apply (nth_ext _ _ vzero vzero);
    [ now rewrite !_straighten_path_length | ].
  intros i Hi. rewrite !_straighten_path_length in Hi.
  rewrite (_straighten_path_nth (_straighten_path path s1))
    by (now rewrite _straighten_path_length).
  rewrite _straighten_path_length.
  rewrite _straighten_path_first, _straighten_path_last by assumption.
  rewrite !_straighten_path_nth by assumption.
  destruct (nth i path vzero) as [x y],
           (nth 0 path vzero) as [x0 y0],
           (nth (List.length path - 1) path vzero) as [x1 y1].
  unfold vadd, vscale, vsub; cbn [fst snd]. apply vec_eq; ring.
Qed.

End StraightenFacts.

(** X21. [_straighten_path] blends a path with the straight line between
    its end points: with [straighten_by = 0] the path is returned as it
    is, with [straighten_by = 1] the result is the chain of as many points
    at equal steps from the first point of the path to its last, and
    straightening by [s1] and then by [s2] is straightening once by
    [s1 + s2 - s1 * s2].  The path has at least two points. *)
Theorem straightening_composes :
  forall (path : polyline) (s1 s2 : R),
    (2 <= length path)%nat ->
    EdgeLayout._straighten_path path 0 = path
    /\ Notions.evenly_spaced (nth 0 path vzero) (last path vzero)
         (length path - 1) (EdgeLayout._straighten_path path 1)
    /\ EdgeLayout._straighten_path (EdgeLayout._straighten_path path s1) s2
       = EdgeLayout._straighten_path path (s1 + s2 - s1 * s2).
Proof.
  intros path s1 s2 H. split; [ | split ].
  - apply StraightenFacts._straighten_path_zero.
  - now apply StraightenFacts._straighten_path_one.
  - now apply StraightenFacts._straighten_path_twice.
Qed.

Lemma straightening_composes_witness :
  (2 <= length [(0, 0); (1, 3); (2, 0)])%nat
  /\ EdgeLayout._straighten_path
       (EdgeLayout._straighten_path [(0, 0); (1, 3); (2, 0)] 0.5) 0.5
     = EdgeLayout._straighten_path [(0, 0); (1, 3); (2, 0)]
         (0.5 + 0.5 - 0.5 * 0.5).
Proof.
  split; [ simpl; lia | ].
  apply (straightening_composes [(0, 0); (1, 3); (2, 0)] 0.5 0.5).
  simpl; lia.
Defined.

(** ** The two directions of a bundled edge *)

Module ReverseFacts.

Import EdgeLayout Predicates KeyFacts.

(** *** Dictionaries keep their keys distinct *)

Lemma keys_set {V : Type} (d : list (edge * V)) (k : edge) (v : V) :
  map fst (dict_set edge_eqb d k v)
  = if dict_mem edge_eqb d k then map fst d else map fst d ++ [k].
Proof.
  unfold dict_mem. induction d as [ | [k' v'] d IH]; simpl; [ reflexivity | ].
  destruct (edge_eqb k k') eqn:E; simpl.
  - reflexivity.
  - rewrite IH. destruct (dict_get edge_eqb d k); reflexivity.
Qed.

Lemma nodup_set {V : Type} (d : list (edge * V)) (k : edge) (v : V) :
  NoDup (map fst d) -> NoDup (map fst (dict_set edge_eqb d k v)).
Proof.
  intros H. rewrite keys_set. destruct (dict_mem edge_eqb d k) eqn:E;
    [ exact H | ].
  apply NoDup_app; [ exact H | constructor; [ intros [] | constructor ] | ].
  intros x Hx [<- | []].
  apply (dict_mem_In edge_eqb edge_eqb_eq) in Hx. congruence.
Qed.

Lemma nodup_fold_set {X V : Type} (key : X -> edge)
  (val : list (edge * V) -> X -> V) (l : list X) (d : list (edge * V)) :
  NoDup (map fst d) ->
  NoDup (map fst
           (fold_left (fun d x => dict_set edge_eqb d (key x) (val d x)) l d)).
Proof.
  revert d; induction l as [ | x l IH]; intros d H; simpl; [ exact H | ].
  apply IH. now apply nodup_set.
Qed.

Lemma keys_map_values {V W : Type} (g : edge * V -> W) (d : list (edge * V)) :
  map fst (map (fun kv => (fst kv, g kv)) d) = map fst d.
Proof. rewrite map_map. apply map_ext. reflexivity. Qed.

Lemma dict_get_update_nodup {V : Type} (d items : list (edge * V)) (k : edge) :
  NoDup (map fst items) ->
  dict_get edge_eqb (dict_update edge_eqb d items) k
  = match dict_get edge_eqb items k with
    | Some v => Some v
    | None => dict_get edge_eqb d k
    end.
Proof.
  unfold dict_update. revert d.
  induction items as [ | [k' v'] items IH]; intros d H; [ reflexivity | ].
  inversion H as [ | ? ? Hnot Hnd]; subst. cbn [fold_left fst snd dict_get].
  destruct (edge_eqb k k') eqn:E.
  - apply edge_eqb_eq in E. subst k'.
    change (fold_left (fun acc kv => dict_set edge_eqb acc (fst kv) (snd kv))
              items (dict_set edge_eqb d k v'))
      with (dict_update edge_eqb (dict_set edge_eqb d k v') items).
    rewrite (dict_get_update_other edge_eqb edge_eqb_eq) by assumption.
    apply (dict_get_set_same edge_eqb edge_eqb_eq).
  - rewrite IH by assumption.
    destruct (dict_get edge_eqb items k); [ reflexivity | ].
    apply (dict_get_set_other edge_eqb edge_eqb_eq).
    intros ->. now rewrite edge_eqb_refl in E.
Qed.

(** *** The canonical directions *)

Lemma unidirectional_of_one_way (edges : list edge) (s t : node) :
  s <> t -> In (s, t) (unidirectional_of edges) ->
  ~ In (t, s) (unidirectional_of edges).
Proof.
  intros Hst. unfold unidirectional_of.
  set (step := fun (unidirectional_edges : list edge) (e : edge) =>
                 if mem_edge (snd e, fst e) unidirectional_edges
                 then unidirectional_edges
                 else if mem_edge e unidirectional_edges
                      then unidirectional_edges
                      else unidirectional_edges ++ [e]).
  assert (H : forall l acc,
             (forall e, In e acc -> fst e <> snd e ->
                        ~ In (snd e, fst e) acc) ->
             forall e, In e (fold_left step l acc) -> fst e <> snd e ->
                       ~ In (snd e, fst e) (fold_left step l acc)).
  { induction l as [ | a l IH]; intros acc Hacc; [ exact Hacc | ].
    simpl. apply IH. unfold step.
    destruct (mem_edge (snd a, fst a) acc) eqn:E1; [ exact Hacc | ].
    destruct (mem_edge a acc) eqn:E2; [ exact Hacc | ].
    assert (N1 : ~ In (snd a, fst a) acc).
    { intros N. apply mem_edge_In in N. congruence. }
    intros e He Hne N. apply in_app_iff in He. apply in_app_iff in N.
    destruct He as [He | [<- | []]]; destruct N as [N | [N | []]].
    - now apply (Hacc e He Hne).
    - apply N1. subst a. now destruct e.
    - now apply N1.
    - apply Hne. apply (f_equal fst) in N. exact N. }
  intros Hin N.
  apply (H edges [] (fun e (F : In e []) => match F with end) (s, t) Hin);
    [ exact Hst | exact N ].
Qed.

(** *** The loop that restores the reverse edges *)

Section Restore.
Context {V : Type} (f : V -> V) (default : V).

Lemma restore_other (l : list edge) (d : list (edge * V)) (k : edge) :
  ~ In k l ->
  dict_get edge_eqb
    (fold_left (fun d e =>
                  dict_set edge_eqb d e
                    (f (match dict_get edge_eqb d (snd e, fst e) with
                        | Some v => v
                        | None => default
                        end)))
       l d) k
  = dict_get edge_eqb d k.
Proof.
  revert d; induction l as [ | a l IH]; intros d H; [ reflexivity | ].
  simpl. rewrite IH by (intros N; apply H; now right).
  apply (dict_get_set_other edge_eqb edge_eqb_eq).
  intros ->. apply H. now left.
Qed.

Lemma restore_reverse (l : list edge) (d : list (edge * V)) (e : edge) :
  In e l -> ~ In (snd e, fst e) l ->
  dict_get edge_eqb
    (fold_left (fun d e =>
                  dict_set edge_eqb d e
                    (f (match dict_get edge_eqb d (snd e, fst e) with
                        | Some v => v
                        | None => default
                        end)))
       l d) e
  = Some (f (match dict_get edge_eqb d (snd e, fst e) with
             | Some v => v
             | None => default
             end)).
Proof.
  revert d; induction l as [ | a l IH]; intros d Hin Hnot; [ destruct Hin | ].
  simpl.
  assert (Ha : (snd e, fst e) <> a) by (intros <-; apply Hnot; now left).
  assert (Hl : ~ In (snd e, fst e) l) by (intros N; apply Hnot; now right).
  destruct (in_dec (fun x y : edge =>
                      match Nat.eq_dec (fst x) (fst y),
                            Nat.eq_dec (snd x) (snd y) with
                      | left p, left q =>
                          left (eq_trans (surjective_pairing x)
                                  (eq_trans (f_equal2 pair p q)
                                     (eq_sym (surjective_pairing y))))
                      | right p, _ => right (fun E => p (f_equal fst E))
                      | _, right q => right (fun E => q (f_equal snd E))
                      end) e l) as [Hel | Hel].
  - rewrite IH by assumption.
    now rewrite (dict_get_set_other edge_eqb edge_eqb_eq) by assumption.
  - destruct Hin as [-> | Hin]; [ | contradiction ].
    rewrite restore_other by assumption.
    apply (dict_get_set_same edge_eqb edge_eqb_eq).
Qed.

End Restore.

Section Bundled.
Variable UnivariateSpline : list R -> list R -> nat -> R -> R -> R.

(** The dictionary before the reverse edges are restored has the
    canonical directions as its keys. *)
Lemma smoothed_keys (uni : list edge) node_positions k th cycles iters step
  straighten (e : edge) :
  dict_mem edge_eqb
    (_smooth_edges UnivariateSpline
       (if Rlt_dec 0 straighten
        then _straighten_edges
               (bundle_cycles cycles (_get_k uni node_positions k)
                  (_get_edge_compatibility uni node_positions th) iters step
                  (_initialize_bundled_control_points uni node_positions))
               straighten
        else bundle_cycles cycles (_get_k uni node_positions k)
               (_get_edge_compatibility uni node_positions th) iters step
               (_initialize_bundled_control_points uni node_positions))) e
  = mem_edge e uni.
Proof.
  unfold _smooth_edges. rewrite dict_mem_map_values.
  assert (Hcycles :
            keys_are uni
              (bundle_cycles cycles (_get_k uni node_positions k)
                 (_get_edge_compatibility uni node_positions th) iters step
                 (_initialize_bundled_control_points uni node_positions))).
  { apply BundledFacts.bundle_cycles_keys.
    - apply BundledFacts._get_edge_compatibility_edges.
    - intros x. apply BundledFacts._initialize_bundled_control_points_mem. }
  destruct (Rlt_dec 0 straighten).
  - unfold _straighten_edges. rewrite dict_mem_map_values. apply Hcycles.
  - apply Hcycles.
Qed.

Lemma bundled_edge_paths_reverse edges node_positions k th cycles iters step
  straighten s t p :
  In (t, s) edges ->
  dict_get edge_eqb
    (fst (bundled_edge_paths UnivariateSpline edges node_positions k th cycles
            iters step straighten)) (s, t) = Some p ->
  dict_get edge_eqb
    (fst (bundled_edge_paths UnivariateSpline edges node_positions k th cycles
            iters step straighten)) (t, s) = Some (rev p).
Proof.
  intros Hts Hp.
  assert (Hkey : dict_mem edge_eqb
                   (fst (bundled_edge_paths UnivariateSpline edges
                           node_positions k th cycles iters step straighten))
                   (s, t) = true)
    by (apply dict_mem_get; eauto).
  rewrite BundledFacts.bundled_edge_paths_keys in Hkey.
  apply andb_true_iff in Hkey. destruct Hkey as [Hst Hloop].
  apply mem_edge_In in Hst. apply negb_true_iff in Hloop.
  unfold is_selfloop in Hloop. cbn [fst snd] in Hloop.
  apply Nat.eqb_neq in Hloop.
  unfold bundled_edge_paths in *. cbn [fst] in *.
  set (edges' := if existsb is_selfloop edges then nonloops_of edges
                 else edges) in *.
  set (uni := unidirectional_of edges') in *.
  set (smoothed := _smooth_edges UnivariateSpline _) in *.
  assert (Hin' : forall a b, a <> b -> In (a, b) edges -> In (a, b) edges').
  { intros a b Hab Hin. unfold edges'.
    destruct (existsb is_selfloop edges); [ | exact Hin ].
    unfold nonloops_of. apply filter_In. split; [ exact Hin | ].
    unfold is_selfloop. cbn [fst snd]. apply negb_true_iff.
    now apply Nat.eqb_neq. }
  assert (Hst' : In (s, t) edges') by (now apply Hin').
  assert (Hts' : In (t, s) edges')
    by (apply Hin'; [ now apply not_eq_sym | exact Hts ]).
  assert (Hrev : forall e, In e (reverse_of edges' uni)
                           <-> In e edges' /\ ~ In e uni).
  { intros e. rewrite <- !mem_edge_In, BundledFacts.reverse_of_mem.
    rewrite andb_true_iff, negb_true_iff, <- not_true_iff_false.
    reflexivity. }
  assert (Hkeys : forall e, dict_mem edge_eqb smoothed e = mem_edge e uni)
    by (intros e; apply smoothed_keys).
  change (fun d e => dict_set edge_eqb d e (rev (dict_at d (snd e, fst e) [])))
    with (fun (d : list (edge * polyline)) (e : edge) =>
            dict_set edge_eqb d e
              (rev (match dict_get edge_eqb d (snd e, fst e) with
                    | Some v => v
                    | None => []
                    end))) in *.
  destruct (mem_edge (s, t) uni) eqn:Eu.
  - apply mem_edge_In in Eu.
    assert (Nts : ~ In (t, s) uni)
      by (now apply (unidirectional_of_one_way edges' s t)).
    rewrite restore_other in Hp by (rewrite Hrev; tauto).
    rewrite (restore_reverse (@rev vec) [] _ smoothed (t, s))
      by (rewrite Hrev; cbn [fst snd]; tauto).
    cbn [fst snd]. now rewrite Hp.
  - assert (Nst : ~ In (s, t) uni)
      by (intros N; apply mem_edge_In in N; congruence).
    assert (Its : In (t, s) uni).
    { destruct (BundledEnds.unidirectional_of_covers edges' (s, t) Hst')
        as [H | H]; [ contradiction | exact H ]. }
    rewrite (restore_reverse (@rev vec) [] _ smoothed (s, t)) in Hp
      by (rewrite Hrev; cbn [fst snd]; tauto).
    cbn [fst snd] in Hp.
    rewrite restore_other by (rewrite Hrev; tauto).
    assert (Hm : dict_mem edge_eqb smoothed (t, s) = true)
      by (rewrite Hkeys; now apply mem_edge_In).
    apply dict_mem_get in Hm. destruct Hm as [q Hq].
    rewrite Hq in Hp. inversion Hp; subst p.
    now rewrite rev_involutive.
Qed.

(** The keys of the dictionary returned by the body are distinct. *)
Lemma bundle_iterations_nodup n edge_to_k compat step_size d :
  NoDup (map fst d) ->
  NoDup (map fst (bundle_iterations n edge_to_k compat step_size d)).
Proof.
  revert d; induction n as [ | n IH]; intros d H; [ exact H | ].
  cbn [bundle_iterations]. cbv zeta. apply IH.
  unfold _update_control_point_positions.
  apply (nodup_fold_set fst
           (fun e2cp kv =>
              map2 vadd (dict_at e2cp (fst kv) [])
                (clamped_displacement (snd kv) step_size))).
  exact H.
Qed.

Lemma bundle_cycles_nodup cycles edge_to_k compat n step_size d :
  NoDup (map fst d) ->
  NoDup (map fst (bundle_cycles cycles edge_to_k compat n step_size d)).
Proof.
  revert n step_size d; induction cycles as [ | cycles IH];
    intros n step_size d H; [ exact H | ].
  cbn [bundle_cycles]. cbv zeta. apply IH. apply bundle_iterations_nodup.
  unfold _expand_control_points. now rewrite keys_map_values.
Qed.

Lemma bundled_edge_paths_nodup edges node_positions k th cycles iters step
  straighten :
  NoDup (map fst
           (fst (bundled_edge_paths UnivariateSpline edges node_positions k
                   th cycles iters step straighten))).
Proof.
  unfold bundled_edge_paths. cbn [fst].
  apply (nodup_fold_set (fun e : edge => e)
           (fun d e => rev (dict_at d (snd e, fst e) []))).
  unfold _smooth_edges. rewrite keys_map_values.
  assert (H : forall uni,
             NoDup (map fst
                      (bundle_cycles cycles (_get_k uni node_positions k)
                         (_get_edge_compatibility uni node_positions th)
                         iters step
                         (_initialize_bundled_control_points uni
                            node_positions)))).
  { intros uni. apply bundle_cycles_nodup.
    unfold _initialize_bundled_control_points.
    apply (nodup_fold_set (fun e : edge => e)
             (fun _ e => [node_positions (fst e); node_positions (snd e)])).
    constructor. }
  destruct (Rlt_dec 0 straighten); [ | apply H ].
  unfold _straighten_edges. rewrite keys_map_values. apply H.
Qed.

Variable _edge_list_to_adjacency_list : list edge -> bool -> adjacency.
Variable _get_connected_components : adjacency -> list (list node).

Lemma get_bundled_edge_paths_reverse edges node_positions k th cycles iters
  step straighten s t p :
  In (s, t) edges -> In (t, s) edges ->
  dict_get edge_eqb
    (fst (get_bundled_edge_paths _edge_list_to_adjacency_list
            _get_connected_components UnivariateSpline edges node_positions
            k th cycles iters step straighten)) (s, t) = Some p ->
  dict_get edge_eqb
    (fst (get_bundled_edge_paths _edge_list_to_adjacency_list
            _get_connected_components UnivariateSpline edges node_positions
            k th cycles iters step straighten)) (t, s) = Some (rev p).
Proof.
  intros Hst Hts. unfold get_bundled_edge_paths.
  destruct (Nat.ltb 1 _);
    [ | intros Hp; now apply bundled_edge_paths_reverse ].
  unfold _get_layout_for_multiple_components.
  set (components := _get_connected_components _).
  set (body := fun c : list node =>
                 fst (bundled_edge_paths UnivariateSpline
                        (component_edges edges c) node_positions k th cycles
                        iters step straighten)).
  assert (Hfold : forall cs acc,
             fst (fold_left
                    (fun (acc : list (edge * polyline) * list warning)
                         (component : list node) =>
                       let component_edges :=
                         filter (fun e => mem_nat (fst e) component
                                          && mem_nat (snd e) component)
                                edges in
                       let r :=
                         bundled_edge_paths UnivariateSpline component_edges
                           node_positions k th cycles iters step straighten in
                       (dict_update edge_eqb (fst acc) (fst r),
                        snd acc ++ snd r))
                    cs acc)
             = fold_left (fun d c => dict_update edge_eqb d (body c)) cs
                         (fst acc)).
  { induction cs as [ | c cs IH]; intros acc; [ reflexivity | ].
    simpl. rewrite IH. reflexivity. }
  rewrite Hfold. cbn [fst]. clear Hfold.
  assert (Hsym : forall c, In (s, t) (component_edges edges c)
                           <-> In (t, s) (component_edges edges c)).
  { intros c. unfold component_edges. rewrite !filter_In. cbn [fst snd].
    rewrite (andb_comm (mem_nat t c)). tauto. }
  assert (Hinv : forall cs d,
             (forall p, dict_get edge_eqb d (s, t) = Some p ->
                        dict_get edge_eqb d (t, s) = Some (rev p)) ->
             forall p,
               dict_get edge_eqb
                 (fold_left (fun d c => dict_update edge_eqb d (body c)) cs d)
                 (s, t) = Some p ->
               dict_get edge_eqb
                 (fold_left (fun d c => dict_update edge_eqb d (body c)) cs d)
                 (t, s) = Some (rev p)).
  { induction cs as [ | c cs IH]; intros d Hd; [ exact Hd | ].
    simpl. apply IH. intros q.
    rewrite !dict_get_update_nodup by apply bundled_edge_paths_nodup.
    destruct (dict_get edge_eqb (body c) (s, t)) as [q' | ] eqn:E.
    - intros Hq. inversion Hq; subst q'.
      assert (Hts_c : In (t, s) (component_edges edges c)).
      { assert (Hm : dict_mem edge_eqb (body c) (s, t) = true)
          by (apply dict_mem_get; eauto).
        unfold body in Hm.
        rewrite BundledFacts.bundled_edge_paths_keys in Hm.
        apply andb_true_iff in Hm. destruct Hm as [Hm _].
        apply mem_edge_In in Hm. now apply Hsym. }
      unfold body in *.
      now rewrite (bundled_edge_paths_reverse _ _ _ _ _ _ _ _ s t q Hts_c E).
    - intros Hq.
      assert (E' : dict_get edge_eqb (body c) (t, s) = None).
      { apply dict_mem_false. apply dict_mem_false in E. unfold body in *.
        rewrite BundledFacts.bundled_edge_paths_keys in *.
        unfold is_selfloop in *. cbn [fst snd] in *.
        rewrite (Nat.eqb_sym t s).
        destruct (negb (Nat.eqb s t)); [ | now rewrite andb_false_r ].
        rewrite andb_true_r in *.
        apply not_true_iff_false. intros N. apply mem_edge_In in N.
        apply not_true_iff_false in E. apply E. apply mem_edge_In.
        now apply Hsym. }
      rewrite E'. now apply Hd. }
  apply Hinv. intros q Hq. discriminate Hq.
Qed.

End Bundled.

End ReverseFacts.

(** X22. When an edge and its reverse are both in the edge list,
    [get_bundled_edge_paths] (with its decorator for several components)
    routes them along the same curve: whenever it returns a path for
    [(s, t)], the path it returns for [(t, s)] is that path with its points
    in the opposite order. *)
Theorem reverse_edges_share_the_bundled_path :
  forall _edge_list_to_adjacency_list _get_connected_components
         UnivariateSpline edges node_positions k compatibility_threshold
         total_cycles total_iterations step_size straighten_by s t p,
    In (s, t) edges -> In (t, s) edges ->
    dict_get edge_eqb
      (fst (EdgeLayout.get_bundled_edge_paths _edge_list_to_adjacency_list
              _get_connected_components UnivariateSpline edges node_positions
              k compatibility_threshold total_cycles total_iterations
              step_size straighten_by)) (s, t) = Some p ->
    dict_get edge_eqb
      (fst (EdgeLayout.get_bundled_edge_paths _edge_list_to_adjacency_list
              _get_connected_components UnivariateSpline edges node_positions
              k compatibility_threshold total_cycles total_iterations
              step_size straighten_by)) (t, s) = Some (rev p).
Proof.
  intros adj comps spline edges node_positions k th cycles iters step
         straighten s t p.
  apply ReverseFacts.get_bundled_edge_paths_reverse.
Qed.

Lemma reverse_edges_witness :
  exists p,
    dict_get edge_eqb
      (fst (EdgeLayout.get_bundled_edge_paths
              UtilsModel.edge_list_to_adjacency_list
              UtilsModel.get_connected_components UtilsModel.chord
              [(0, 1); (1, 0)]%nat
              (fun n => if Nat.eqb n 0 then (0, 0) else (1, 0))
              500 0.05 6 50 0.04 0)) (0, 1)%nat = Some p
    /\ dict_get edge_eqb
         (fst (EdgeLayout.get_bundled_edge_paths
                 UtilsModel.edge_list_to_adjacency_list
                 UtilsModel.get_connected_components UtilsModel.chord
                 [(0, 1); (1, 0)]%nat
                 (fun n => if Nat.eqb n 0 then (0, 0) else (1, 0))
                 500 0.05 6 50 0.04 0)) (1, 0)%nat = Some (rev p).
Proof.
  assert (Hm : dict_mem edge_eqb
                 (fst (EdgeLayout.get_bundled_edge_paths
                         UtilsModel.edge_list_to_adjacency_list
                         UtilsModel.get_connected_components UtilsModel.chord
                         [(0, 1); (1, 0)]%nat
                         (fun n => if Nat.eqb n 0 then (0, 0) else (1, 0))
                         500 0.05 6 50 0.04 0)) (0, 1)%nat = true).
  { unfold EdgeLayout.get_bundled_edge_paths.
    replace (Nat.ltb 1 (length (UtilsModel.get_connected_components
                                  (UtilsModel.edge_list_to_adjacency_list
                                     [(0, 1); (1, 0)]%nat false))))
      with false by reflexivity.
    rewrite BundledFacts.bundled_edge_paths_keys. reflexivity. }
  apply KeyFacts.dict_mem_get in Hm. destruct Hm as [p Hp].
  exists p. split; [ exact Hp | ].
  apply (reverse_edges_share_the_bundled_path
           UtilsModel.edge_list_to_adjacency_list
           UtilsModel.get_connected_components UtilsModel.chord
           [(0, 1); (1, 0)]%nat
           (fun n => if Nat.eqb n 0 then (0, 0) else (1, 0))
           500 0.05 6%nat 50%nat 0.04 0 0%nat 1%nat p).
  - now left.
  - right; now left.
  - exact Hp.
Defined.

(** ** The step of a chain is clamped as a whole *)

Module ClampFacts.

Import EdgeLayout.

Lemma rsum_nonneg (l : list R) : (forall x, In x l -> 0 <= x) -> 0 <= rsum l.
Proof.
  induction l as [ | x l IH]; intros H; [ simpl; lra | ].
  change (rsum (x :: l)) with (x + rsum l).
  assert (0 <= x) by (apply H; now left).
  assert (0 <= rsum l) by (apply IH; intros y Hy; apply H; now right).
  lra.
Qed.

Lemma squares_nonneg (a : polyline) :
  0 <= rsum (map (fun p => fst p * fst p + snd p * snd p) a).
Proof.
  apply rsum_nonneg. intros x Hx. apply in_map_iff in Hx.
  destruct Hx as [p [<- _]].
  pose proof (Rle_0_sqr (fst p)) as H1. pose proof (Rle_0_sqr (snd p)) as H2.
  unfold Rsqr in *. lra.
Qed.

Lemma frobenius_nonneg (a : polyline) : 0 <= frobenius a.
Proof. unfold frobenius. apply sqrt_pos. Qed.

Lemma squares_scaled (a : polyline) (c : R) :
  rsum (map (fun p => fst p * fst p + snd p * snd p)
            (map (fun p => (fst p * c, snd p * c)) a))
  = rsum (map (fun p => fst p * fst p + snd p * snd p) a) * (c * c).
Proof.
  induction a as [ | p a IH]; [ simpl; ring | ].
  cbn [map]. change (rsum (?x :: ?l)) with (x + rsum l).
  rewrite IH. cbn [fst snd]. ring.
Qed.

(** Scaling every point by [c] scales the Frobenius norm by [|c|]. *)
Lemma frobenius_scaled (a : polyline) (c : R) :
  0 <= c ->
  frobenius (map (fun p => (fst p * c, snd p * c)) a) = frobenius a * c.
Proof.
  intros Hc. unfold frobenius. rewrite squares_scaled.
  rewrite sqrt_mult_alt by apply squares_nonneg.
  now rewrite sqrt_square.
Qed.

Lemma clamped_displacement_scaled (f : polyline) (step_size : R) :
  clamped_displacement f step_size
  = map (fun p =>
           (fst p * (clip_hi (displacement_length f) step_size
                     / displacement_length f),
            snd p * (clip_hi (displacement_length f) step_size
                     / displacement_length f))) f.
Proof.
  unfold clamped_displacement. apply map_ext. intros p.
  unfold vtimes, vdiv; cbn [fst snd]. apply vec_eq; unfold Rdiv; ring.
Qed.

Lemma displacement_length_pos (f : polyline) : 0 < displacement_length f.
Proof.
  unfold displacement_length, clip_lo, Rmax.
  destruct (Rle_dec _ _); lra.
Qed.

(** The length of the applied step. *)
Lemma clamped_displacement_frobenius (f : polyline) (step_size : R) :
  0 <= step_size ->
  frobenius (clamped_displacement f step_size)
  = frobenius f * (clip_hi (displacement_length f) step_size
                   / displacement_length f).
Proof.
  intros Hs. rewrite clamped_displacement_scaled.
  apply frobenius_scaled.
  pose proof (displacement_length_pos f) as HL.
  apply Rmult_le_pos.
  - unfold clip_hi, Rmin. destruct (Rle_dec _ _); lra.
  - left. now apply Rinv_0_lt_compat.
Qed.

Lemma clamped_displacement_bound (f : polyline) (step_size : R) :
  0 <= step_size ->
  frobenius (clamped_displacement f step_size) <= step_size.
Proof.
  intros Hs. rewrite clamped_displacement_frobenius by assumption.
  pose proof (displacement_length_pos f) as HL.
  pose proof (frobenius_nonneg f) as Hf.
  assert (Hle : frobenius f <= displacement_length f)
    by (unfold displacement_length, clip_lo, Rmax;
        destruct (Rle_dec _ _); lra).
  assert (Hc : 0 <= clip_hi (displacement_length f) step_size
               <= step_size)
    by (unfold clip_hi, Rmin; destruct (Rle_dec _ _); lra).
  set (c := clip_hi (displacement_length f) step_size) in *.
  set (L := displacement_length f) in *.
  assert (Hq : frobenius f / L <= 1).
  { apply Rmult_le_reg_r with L; [ exact HL | ].
    unfold Rdiv. rewrite Rmult_assoc, Rinv_l by lra. lra. }
  assert (Hq0 : 0 <= frobenius f / L).
  { unfold Rdiv. apply Rmult_le_pos; [ exact Hf | ].
    left. now apply Rinv_0_lt_compat. }
  replace (frobenius f * (c / L)) with (c * (frobenius f / L))
    by (unfold Rdiv; ring).
  assert (c * (frobenius f / L) <= c * 1)
    by (apply Rmult_le_compat_l; lra).
  lra.
Qed.

Lemma clamped_displacement_full (f : polyline) (step_size : R) :
  0 <= step_size -> 1e-12 <= frobenius f -> step_size <= frobenius f ->
  frobenius (clamped_displacement f step_size) = step_size.
Proof.
  intros Hs Hf Hle. rewrite clamped_displacement_frobenius by assumption.
  unfold displacement_length, clip_lo. rewrite Rmax_left by lra.
  unfold clip_hi. rewrite Rmin_right by lra. field. lra.
Qed.

Lemma clamped_displacement_within (f : polyline) (step_size : R) :
  1e-12 <= frobenius f -> frobenius f <= step_size ->
  clamped_displacement f step_size = f.
Proof.
  intros Hf Hle. rewrite clamped_displacement_scaled.
  unfold displacement_length, clip_lo. rewrite Rmax_left by lra.
  unfold clip_hi. rewrite Rmin_left by lra.
  transitivity (map (fun p : vec => p) f); [ | apply map_id ].
  apply map_ext. intros [x y]; cbn [fst snd].
  apply vec_eq; field; lra.
Qed.

Lemma clamped_displacement_length (f : polyline) (step_size : R) :
  List.length (clamped_displacement f step_size) = List.length f.
Proof. unfold clamped_displacement. now rewrite length_map. Qed.

(** *** The update of one edge *)

Lemma _update_other cp (F : list (edge * polyline)) step_size e :
  ~ In e (map fst F) ->
  dict_get edge_eqb (_update_control_point_positions cp F step_size) e
  = dict_get edge_eqb cp e.
Proof.
  unfold _update_control_point_positions. revert cp.
  induction F as [ | [k v] F IH]; intros cp Hn; [ reflexivity | ].
  cbn [fold_left fst snd]. rewrite IH by (intros H; apply Hn; now right).
  apply (dict_get_set_other edge_eqb edge_eqb_eq).
  intros ->. apply Hn. now left.
Qed.

Lemma _update_entry cp (F : list (edge * polyline)) step_size e f :
  NoDup (map fst F) ->
  dict_get edge_eqb F e = Some f ->
  dict_get edge_eqb (_update_control_point_positions cp F step_size) e
  = Some (map2 vadd (dict_at cp e []) (clamped_displacement f step_size)).
Proof.
  revert cp. induction F as [ | [k v] F IH]; intros cp Hnd Hf;
    [ discriminate | ].
  cbn [map fst] in Hnd. inversion Hnd as [ | ? ? Hk HF ]; subst.
  cbn [dict_get] in Hf.
  change (_update_control_point_positions cp ((k, v) :: F) step_size)
    with (_update_control_point_positions
            (dict_set edge_eqb cp k
               (map2 vadd (dict_at cp k [])
                          (clamped_displacement v step_size)))
            F step_size).
  destruct (edge_eqb e k) eqn:E.
  - apply edge_eqb_eq in E. subst k. inversion Hf; subst v.
    rewrite _update_other by assumption.
    apply (dict_get_set_same edge_eqb edge_eqb_eq).
  - apply edge_eqb_neq in E. rewrite (IH _ HF Hf).
    unfold dict_at at 1.
    now rewrite (dict_get_set_other edge_eqb edge_eqb_eq) by assumption.
Qed.

Lemma map2_vsub_vadd (chain d : polyline) :
  List.length d = List.length chain ->
  map2 vsub (map2 vadd chain d) chain = d.
Proof.
  revert d. induction chain as [ | c chain IH]; intros [ | x d] H;
    try discriminate; [ reflexivity | ].
  unfold map2 in *. cbn [combine map fst snd]. f_equal.
  - destruct c, x. unfold vsub, vadd; cbn [fst snd]. apply vec_eq; ring.
  - apply IH. simpl in H. lia.
Qed.

End ClampFacts.

(** X23. One update of [_update_control_point_positions] moves the
    control points of an edge by at most [step_size], measured over the
    whole chain (the Frobenius norm of the change of all its points
    together, not point by point).  A force on the chain whose norm is at
    least [1e-12] and at most [step_size] is applied as it is; a larger
    one is scaled down to [step_size] exactly.  [F] is a dictionary (its
    keys are distinct), holds the force [f] of the edge, and [f] has as
    many rows as the chain of the edge; [step_size] is not negative. *)
Theorem a_chain_moves_by_at_most_the_step_size :
  forall (edge_to_control_points F : list (edge * polyline)) (step_size : R)
         (e : edge) (f chain : polyline),
    0 <= step_size ->
    NoDup (map fst F) ->
    dict_get edge_eqb F e = Some f ->
    dict_get edge_eqb edge_to_control_points e = Some chain ->
    length f = length chain ->
    exists moved,
      dict_get edge_eqb
        (EdgeLayout._update_control_point_positions edge_to_control_points F
           step_size) e = Some moved
      /\ length moved = length chain
      /\ EdgeLayout.frobenius (EdgeLayout.map2 vsub moved chain) <= step_size
      /\ (1e-12 <= EdgeLayout.frobenius f <= step_size ->
          moved = EdgeLayout.map2 vadd chain f)
      /\ (1e-12 <= EdgeLayout.frobenius f -> step_size <= EdgeLayout.frobenius f ->
          EdgeLayout.frobenius (EdgeLayout.map2 vsub moved chain) = step_size).
Proof.
  intros cp F step_size e f chain Hs Hnd Hf Hc Hlen.
  exists (EdgeLayout.map2 vadd chain
            (EdgeLayout.clamped_displacement f step_size)).
  assert (Hl : length (EdgeLayout.clamped_displacement f step_size)
               = length chain)
    by now rewrite ClampFacts.clamped_displacement_length.
  split; [ | split; [ | split; [ | split ] ] ].
  - rewrite (ClampFacts._update_entry cp F step_size e f Hnd Hf).
    unfold EdgeLayout.dict_at. now rewrite Hc.
  - rewrite ChainFacts.map2_length, Hl. apply Nat.min_id.
  - rewrite ClampFacts.map2_vsub_vadd by exact Hl.
    now apply ClampFacts.clamped_displacement_bound.
  - intros [H1 H2].
    now rewrite ClampFacts.clamped_displacement_within.
  - intros H1 H2. rewrite ClampFacts.map2_vsub_vadd by exact Hl.
    now apply ClampFacts.clamped_displacement_full.
Qed.

Lemma a_chain_moves_witness :
  exists moved,
    dict_get edge_eqb
      (EdgeLayout._update_control_point_positions
         [((0, 1)%nat, [(0, 0); (1, 0); (2, 0)])]
         [((0, 1)%nat, [(0, 0); (0, 3); (0, 0)])] 1) (0, 1)%nat = Some moved
    /\ EdgeLayout.frobenius
         (EdgeLayout.map2 vsub moved [(0, 0); (1, 0); (2, 0)]) <= 1.
Proof.
  destruct (a_chain_moves_by_at_most_the_step_size
              [((0, 1)%nat, [(0, 0); (1, 0); (2, 0)])]
              [((0, 1)%nat, [(0, 0); (0, 3); (0, 0)])] 1 (0, 1)%nat
              [(0, 0); (0, 3); (0, 0)] [(0, 0); (1, 0); (2, 0)])
    as [moved [H1 [_ [H2 _]]]].
  - lra.
  - repeat constructor. intros [].
  - reflexivity.
  - reflexivity.
  - reflexivity.
  - exists moved. split; [ exact H1 | exact H2 ].
Defined.

(** ** Reading an adjacency matrix *)

Module ParseFacts.

Import Parse.

Lemma nonzero_true (x : R) : nonzero x = true <-> x <> 0.
Proof.
  unfold nonzero. destruct (Req_dec_T x 0); split; congruence.
Qed.

Lemma np_where_In (A : matrix) (i j : nat) :
  In (i, j) (np_where A)
  <-> (i < length A)%nat /\ (j < length (nth i A []))%nat
      /\ FR.entry A i j <> 0.
Proof.
  unfold np_where. rewrite in_flat_map. split.
  - intros [i' [Hi Hin]]. apply in_map_iff in Hin.
    destruct Hin as [j' [E Hj]]. inversion E; subst i' j'.
    apply filter_In in Hj. destruct Hj as [Hj Hnz].
    apply in_seq in Hi. apply in_seq in Hj. apply nonzero_true in Hnz.
    repeat split; [ lia | lia | exact Hnz ].
  - intros [Hi [Hj Hnz]]. exists i. split; [ apply in_seq; lia | ].
    apply in_map_iff. exists j. split; [ reflexivity | ].
    apply filter_In. split; [ apply in_seq; lia | now apply nonzero_true ].
Qed.

Lemma NoDup_pairs (i : nat) (l : list nat) :
  NoDup l -> NoDup (map (fun j => (i, j)) l).
Proof.
  induction 1 as [ | j l Hj Hl IH]; cbn [map]; constructor; [ | exact IH ].
  intros Hin. apply in_map_iff in Hin. destruct Hin as [j' [E Hj']].
  inversion E; subst j'. contradiction.
Qed.

Lemma NoDup_rows (f : nat -> list edge) (l : list nat) :
  NoDup l -> (forall i, NoDup (f i)) ->
  (forall i e, In e (f i) -> fst e = i) ->
  NoDup (flat_map f l).
Proof.
  intros Hl Hf Hfst. induction Hl as [ | i l Hi Hl IH]; cbn [flat_map];
    [ constructor | ].
  apply NoDup_app; [ apply Hf | exact IH | ].
  intros e He Hin. apply in_flat_map in Hin. destruct Hin as [i' [Hi' He']].
  apply Hfst in He. apply Hfst in He'. congruence.
Qed.

Lemma np_where_NoDup (A : matrix) : NoDup (np_where A).
Proof.
  unfold np_where. apply NoDup_rows.
  - apply seq_NoDup.
  - intros i. apply NoDup_pairs. apply NoDup_filter. apply seq_NoDup.
  - intros i e He. apply in_map_iff in He. destruct He as [j [<- _]].
    reflexivity.
Qed.

(** *** The dictionary of the weights *)

Lemma dict_set_new {V : Type} (d : list (edge * V)) (k : edge) (v : V) :
  dict_get edge_eqb d k = None -> dict_set edge_eqb d k v = d ++ [(k, v)].
Proof.
  induction d as [ | [k' v'] d IH]; simpl; [ reflexivity | ].
  destruct (edge_eqb k k'); [ discriminate | ].
  intros H. now rewrite IH.
Qed.

Lemma dict_get_app_none {V : Type} (d d' : list (edge * V)) (k : edge) :
  dict_get edge_eqb d k = None ->
  dict_get edge_eqb (d ++ d') k = dict_get edge_eqb d' k.
Proof.
  induction d as [ | [k' v'] d IH]; simpl; [ reflexivity | ].
  destruct (edge_eqb k k'); [ discriminate | exact IH ].
Qed.

Lemma comprehension_of_distinct_keys {V : Type} (g : edge -> V)
  (l : list edge) (d : list (edge * V)) :
  NoDup l -> (forall e, In e l -> dict_get edge_eqb d e = None) ->
  fold_left (fun d e => dict_set edge_eqb d e (g e)) l d
  = d ++ map (fun e => (e, g e)) l.
Proof.
  intros Hl. revert d. induction Hl as [ | e l He Hl IH]; intros d Hd;
    cbn [fold_left map]; [ now rewrite app_nil_r | ].
  rewrite dict_set_new by (apply Hd; now left).
  rewrite IH.
  - now rewrite <- app_assoc.
  - intros e' He'. rewrite dict_get_app_none by (apply Hd; now right).
    simpl. destruct (edge_eqb e' e) eqn:E; [ | reflexivity ].
    apply edge_eqb_eq in E. subst e'. contradiction.
Qed.

Lemma dict_get_comprehension {V : Type} (g : edge -> V) (l : list edge)
  (e : edge) :
  dict_get edge_eqb (map (fun e => (e, g e)) l) e
  = if mem_edge e l then Some (g e) else None.
Proof.
  induction l as [ | e' l IH]; [ reflexivity | ].
  cbn [map dict_get]. unfold mem_edge in *. cbn [existsb].
  destruct (edge_eqb e e') eqn:E; cbn [orb]; [ | exact IH ].
  apply edge_eqb_eq in E. now subst e'.
Qed.

Lemma edge_weights_eq (A : matrix) :
  fold_left (fun d e =>
               dict_set edge_eqb d e (FR.entry A (fst e) (snd e)))
            (np_where A) []
  = map (fun e => (e, FR.entry A (fst e) (snd e))) (np_where A).
Proof.
  rewrite (comprehension_of_distinct_keys
             (fun e => FR.entry A (fst e) (snd e))).
  - reflexivity.
  - apply np_where_NoDup.
  - reflexivity.
Qed.

(** *** [len(set(values)) == 1] *)

Lemma one_distinct_value (l : list R) :
  length (nodup Req_dec_T l) = 1%nat
  <-> exists x, In x l /\ forall y, In y l -> y = x.
Proof.
  split.
  - intros H. destruct (nodup Req_dec_T l) as [ | x [ | y tl]] eqn:E;
      try discriminate.
    exists x. split.
    + apply (proj1 (nodup_In Req_dec_T l x)). rewrite E. now left.
    + intros y Hy. apply (proj2 (nodup_In Req_dec_T l y)) in Hy.
      rewrite E in Hy. destruct Hy as [<- | []]. reflexivity.
  - intros [x [Hx Hall]].
    pose proof (NoDup_nodup Req_dec_T l) as Hnd.
    assert (Hin : In x (nodup Req_dec_T l))
      by exact (proj2 (nodup_In Req_dec_T l x) Hx).
    assert (Hall' : forall y, In y (nodup Req_dec_T l) -> y = x)
      by (intros y Hy; apply Hall;
          exact (proj1 (nodup_In Req_dec_T l y) Hy)).
    destruct (nodup Req_dec_T l) as [ | a [ | b tl]]; [ destruct Hin | reflexivity | ].
    exfalso. inversion Hnd as [ | ? ? Ha _ ]; subst. apply Ha.
    rewrite (Hall' a) by now left. left. apply Hall'. right; now left.
Qed.

Lemma weights_values (A : matrix) :
  map snd (map (fun e => (e, FR.entry A (fst e) (snd e))) (np_where A))
  = map (fun e => FR.entry A (fst e) (snd e)) (np_where A).
Proof. rewrite map_map. reflexivity. Qed.

Lemma _parse_adjacency_matrix_edges (A : matrix) :
  fst (_parse_adjacency_matrix A) = np_where A.
Proof.
  unfold _parse_adjacency_matrix. destruct (Nat.eqb _ 1); reflexivity.
Qed.

Lemma _parse_adjacency_matrix_weights (A : matrix) :
  snd (_parse_adjacency_matrix A)
  = if Nat.eqb (length (nodup Req_dec_T
                          (map (fun e => FR.entry A (fst e) (snd e))
                               (np_where A)))) 1
    then None
    else Some (map (fun e => (e, FR.entry A (fst e) (snd e))) (np_where A)).
Proof.
  unfold _parse_adjacency_matrix. rewrite edge_weights_eq, weights_values.
  destruct (Nat.eqb _ 1); reflexivity.
Qed.

(** *** Edges in both directions *)

Lemma _is_directed_true (l : list edge) :
  _is_directed l = true <-> exists s t, In (s, t) l /\ In (t, s) l.
Proof.
  unfold _is_directed. rewrite existsb_exists. split.
  - intros [[s t] [Hin Hm]]. cbn [fst snd] in Hm. apply mem_edge_In in Hm.
    now exists s, t.
  - intros [s [t [H1 H2]]]. exists (s, t). split; [ exact H1 | ].
    cbn [fst snd]. now apply mem_edge_In.
Qed.

End ParseFacts.

(** X24. [_parse_adjacency_matrix] lists the entries of the matrix that
    are not zero, each one once: [(i, j)] is an edge exactly when row [i]
    and column [j] exist and the entry there is not zero. *)
Theorem the_edges_are_the_nonzero_entries :
  forall (adjacency : matrix),
    NoDup (fst (Parse._parse_adjacency_matrix adjacency))
    /\ forall i j,
         In (i, j) (fst (Parse._parse_adjacency_matrix adjacency))
         <-> (i < length adjacency)%nat
             /\ (j < length (nth i adjacency []))%nat
             /\ FR.entry adjacency i j <> 0.
Proof.
  intros A. rewrite ParseFacts._parse_adjacency_matrix_edges. split.
  - apply ParseFacts.np_where_NoDup.
  - intros i j. apply ParseFacts.np_where_In.
Qed.

(** X25. [_parse_adjacency_matrix] returns no weights ([None]) exactly
    when the matrix has an entry that is not zero and all such entries
    are equal: a graph whose edges all have the same weight is read as
    unweighted.  Otherwise it returns a dictionary that holds, for every
    edge, the entry of the matrix; for a matrix of zeros this is the empty
    dictionary, not [None]. *)
Theorem equal_weights_are_read_as_no_weights :
  forall (adjacency : matrix),
    let edge_list := fst (Parse._parse_adjacency_matrix adjacency) in
    let edge_weights := snd (Parse._parse_adjacency_matrix adjacency) in
    (edge_weights = None
     <-> edge_list <> []
         /\ forall e e', In e edge_list -> In e' edge_list ->
                         FR.entry adjacency (fst e) (snd e)
                         = FR.entry adjacency (fst e') (snd e'))
    /\ (forall w, edge_weights = Some w ->
                  dict_keys w = edge_list
                  /\ forall i j, In (i, j) edge_list ->
                                 dict_get edge_eqb w (i, j)
                                 = Some (FR.entry adjacency i j))
    /\ (edge_list = [] -> edge_weights = Some []).
Proof.
  intros A edge_list edge_weights. subst edge_list edge_weights.
  rewrite ParseFacts._parse_adjacency_matrix_edges,
    ParseFacts._parse_adjacency_matrix_weights.
  set (values := map (fun e => FR.entry A (fst e) (snd e)) (Parse.np_where A)).
  split; [ | split ].
  - destruct (Nat.eqb (length (nodup Req_dec_T values)) 1) eqn:E.
    + apply Nat.eqb_eq in E. apply ParseFacts.one_distinct_value in E.
      destruct E as [x [Hx Hall]]. split; [ intros _ | reflexivity ].
      split.
      * intros Hnil. unfold values in Hx. rewrite Hnil in Hx. destruct Hx.
      * intros e e' He He'.
        rewrite (Hall (FR.entry A (fst e) (snd e))),
          (Hall (FR.entry A (fst e') (snd e'))); [ reflexivity | | ];
          unfold values; apply in_map_iff; eauto.
    + apply Nat.eqb_neq in E. split; [ discriminate | ].
      intros [Hne Hall]. exfalso. apply E.
      apply ParseFacts.one_distinct_value.
      unfold values.
      destruct (Parse.np_where A) as [ | e0 l]; [ congruence | ].
      exists (FR.entry A (fst e0) (snd e0)). split.
      * now left.
      * intros y Hy. apply in_map_iff in Hy.
        destruct Hy as [e [<- He]]. apply Hall; [ exact He | now left ].
  - intros w Hw.
    destruct (Nat.eqb (length (nodup Req_dec_T values)) 1);
      [ discriminate | ].
    inversion Hw; subst w. split.
    + unfold dict_keys. rewrite map_map. cbn [fst]. apply map_id.
    + intros i j Hin.
      rewrite (ParseFacts.dict_get_comprehension
                 (fun e => FR.entry A (fst e) (snd e))).
      apply mem_edge_In in Hin. now rewrite Hin.
  - intros Hnil. unfold values. rewrite Hnil. reflexivity.
Qed.

(** X26. For a square adjacency matrix, [_is_directed] finds the parsed
    edge list directed exactly when some pair of entries [(i, j)] and
    [(j, i)] are both not zero (an entry on the diagonal is such a pair).
    So every symmetric matrix, the adjacency matrix of an undirected
    graph, is found directed as soon as it has one edge. *)
Theorem symmetric_matrices_are_found_directed :
  forall (adjacency : matrix),
    (forall row, In row adjacency -> length row = length adjacency) ->
    (Parse._is_directed (fst (Parse._parse_adjacency_matrix adjacency)) = true
     <-> exists i j, (i < length adjacency)%nat /\ (j < length adjacency)%nat
                     /\ FR.entry adjacency i j <> 0
                     /\ FR.entry adjacency j i <> 0)
    /\ ((forall i j, FR.entry adjacency i j = FR.entry adjacency j i) ->
        fst (Parse._parse_adjacency_matrix adjacency) <> [] ->
        Parse._is_directed (fst (Parse._parse_adjacency_matrix adjacency))
        = true).
Proof.
  intros A Hsq.
  assert (Hrow : forall i, (i < length A)%nat ->
                           length (nth i A []) = length A)
    by (intros i Hi; apply Hsq; now apply nth_In).
  rewrite ParseFacts._parse_adjacency_matrix_edges.
  assert (Hiff : Parse._is_directed (Parse.np_where A) = true
                 <-> exists i j, (i < length A)%nat /\ (j < length A)%nat
                                 /\ FR.entry A i j <> 0
                                 /\ FR.entry A j i <> 0).
  { rewrite ParseFacts._is_directed_true. split.
    - intros [s [t [H1 H2]]]. apply ParseFacts.np_where_In in H1, H2.
      destruct H1 as [Hs [_ Hst]], H2 as [Ht [_ Hts]].
      exists s, t. tauto.
    - intros [i [j [Hi [Hj [Hij Hji]]]]]. exists i, j.
      rewrite !ParseFacts.np_where_In, !Hrow by assumption. tauto. }
  split; [ exact Hiff | ].
  intros Hsym Hne. apply Hiff.
  destruct (Parse.np_where A) as [ | [i j] l] eqn:E; [ congruence | ].
  assert (Hin : In (i, j) (Parse.np_where A)) by (rewrite E; now left).
  apply ParseFacts.np_where_In in Hin. destruct Hin as [Hi [Hj Hnz]].
  rewrite Hrow in Hj by assumption.
  exists i, j. repeat split; try assumption. now rewrite <- Hsym.
Qed.

Lemma symmetric_matrices_witness :
  Parse._is_directed
    (fst (Parse._parse_adjacency_matrix [[0; 1]; [1; 0]])) = true.
Proof.
  apply (symmetric_matrices_are_found_directed [[0; 1]; [1; 0]]).
  - intros row [<- | [<- | []]]; reflexivity.
  - intros i j. unfold FR.entry.
    destruct i as [ | [ | i]]; destruct j as [ | [ | j]]; cbn [nth];
      try reflexivity; try (destruct i; reflexivity);
      try (destruct j; reflexivity); destruct i, j; reflexivity.
  - rewrite ParseFacts._parse_adjacency_matrix_edges.
    intros H.
    assert (Hin : In (0, 1)%nat (Parse.np_where [[0; 1]; [1; 0]])).
    { apply ParseFacts.np_where_In. cbn [length nth]. unfold FR.entry.
      cbn [nth]. repeat split; [ lia | lia | lra ]. }
    rewrite H in Hin. destruct Hin.
Defined.

(** ** The electrostatic forces of a pair of edges cancel *)

Module ForceFacts.

Import EdgeLayout Predicates Notions.

Lemma vec_ext (a b : vec) : fst a = fst b -> snd a = snd b -> a = b.
Proof. destruct a, b; cbn [fst snd]; intros -> ->; reflexivity. Qed.

Lemma vsum_cons (p : vec) (l : polyline) : vsum (p :: l) = vadd p (vsum l).
Proof. reflexivity. Qed.

Lemma vsum_app (l1 l2 : polyline) :
  vsum (l1 ++ l2) = vadd (vsum l1) (vsum l2).
Proof.
  induction l1 as [ | p l1 IH]; cbn [app].
  - rewrite vsum_cons || idtac. unfold vsum at 2; cbn [fold_right].
    apply vec_ext; unfold vadd, vzero; cbn [fst snd]; ring.
  - rewrite !vsum_cons, IH.
    apply vec_ext; unfold vadd; cbn [fst snd]; ring.
Qed.

Lemma vsum_rev (l : polyline) : vsum (rev l) = vsum l.
Proof.
  induction l as [ | p l IH]; [ reflexivity | ].
  cbn [rev]. rewrite vsum_app, IH, !vsum_cons.
  apply vec_ext; unfold vadd, vsum, vzero; cbn [fst snd fold_right]; ring.
Qed.

Lemma vsum_map2_vadd (a d : polyline) :
  List.length a = List.length d ->
  vsum (map2 vadd a d) = vadd (vsum a) (vsum d).
Proof.
  revert d. induction a as [ | p a IH]; intros [ | q d] H;
    try discriminate.
  - apply vec_ext; unfold vadd, vsum, vzero; cbn; ring.
  - unfold map2 in *. cbn [combine map fst snd]. rewrite !vsum_cons.
    rewrite IH by (simpl in H; lia).
    apply vec_ext; unfold vadd; cbn [fst snd]; ring.
Qed.

Lemma vsum_map2_vsub (a d : polyline) :
  List.length a = List.length d ->
  vsum (map2 vsub a d) = vsub (vsum a) (vsum d).
Proof.
  revert d. induction a as [ | p a IH]; intros [ | q d] H;
    try discriminate.
  - apply vec_ext; unfold vsub, vsum, vzero; cbn; ring.
  - unfold map2 in *. cbn [combine map fst snd]. rewrite !vsum_cons.
    rewrite IH by (simpl in H; lia).
    apply vec_ext; unfold vadd, vsub; cbn [fst snd]; ring.
Qed.

(** Replacing the force of one edge changes the total by the difference. *)
Lemma total_force_set (F : list (edge * polyline)) (k : edge)
  (old v : polyline) :
  dict_get edge_eqb F k = Some old ->
  total_force (dict_set edge_eqb F k v)
  = vadd (vsub (total_force F) (vsum old)) (vsum v).
Proof.
  unfold total_force.
  induction F as [ | [k' v'] F IH]; simpl; [ discriminate | ].
  destruct (edge_eqb k k') eqn:E.
  - intros H. inversion H; subst v'. cbn [flat_map snd].
    rewrite !vsum_app.
    apply vec_ext; unfold vadd, vsub; cbn [fst snd]; ring.
  - intros H. cbn [flat_map snd]. rewrite !vsum_app, (IH H).
    apply vec_ext; unfold vadd, vsub; cbn [fst snd]; ring.
Qed.

Lemma zero_ends_length (d : polyline) :
  List.length (zero_ends d) = List.length d.
Proof. unfold zero_ends. now rewrite length_map, length_seq. Qed.

Lemma electrostatic_displacement_length compatibility reverse
  (P Q : polyline) (L : nat) :
  List.length P = L -> List.length Q = L ->
  List.length (electrostatic_displacement compatibility reverse P Q) = L.
Proof.
  intros HP HQ. unfold electrostatic_displacement.
  rewrite zero_ends_length, length_map.
  destruct reverse; rewrite ChainFacts.map2_length, ?length_rev, HP, HQ;
    apply Nat.min_id.
Qed.

Section Pairs.
Variable edge_to_control_points : list (edge * polyline).
Variable L : nat.
Hypothesis chains : chains_of_length L edge_to_control_points.

Let step (out : list (edge * polyline)) (c : edge * edge * R * bool) :=
  let '(e1, e2, compatibility, reverse) := c in
  let P := dict_at edge_to_control_points e1 [] in
  let Q := dict_at edge_to_control_points e2 [] in
  let displacement := electrostatic_displacement compatibility reverse P Q in
  let out :=
    dict_set edge_eqb out e1 (map2 vadd (dict_at out e1 []) displacement) in
  dict_set edge_eqb out e2
    (map2 vsub (dict_at out e2 [])
       (if reverse then rev displacement else displacement)).

Lemma _get_Fe_fold compat out :
  _get_Fe edge_to_control_points compat out = fold_left step compat out.
Proof.
  unfold _get_Fe. revert out.
  induction compat as [ | [[[e1 e2] c] r] compat IH]; intros out;
    [ reflexivity | ].
  cbn [fold_left]. rewrite IH. reflexivity.
Qed.

Lemma chain_length e :
  dict_mem edge_eqb edge_to_control_points e = true ->
  List.length (dict_at edge_to_control_points e []) = L.
Proof.
  intros H. apply KeyFacts.dict_mem_get in H. destruct H as [P HP].
  unfold dict_at. rewrite HP.
  exact (EntryFacts.entries_get _ _ _ _ chains HP).
Qed.

Lemma step_keeps (out : list (edge * polyline)) e1 e2 c r :
  e1 <> e2 ->
  dict_mem edge_eqb edge_to_control_points e1 = true ->
  dict_mem edge_eqb edge_to_control_points e2 = true ->
  dict_mem edge_eqb out e1 = true -> dict_mem edge_eqb out e2 = true ->
  chains_of_length L out ->
  chains_of_length L (step out (e1, e2, c, r))
  /\ (forall k, dict_mem edge_eqb (step out (e1, e2, c, r)) k
                = dict_mem edge_eqb out k)
  /\ total_force (step out (e1, e2, c, r)) = total_force out.
Proof.
  intros Hne HP HQ H1 H2 Hout.
  apply chain_length in HP, HQ.
  pose proof (electrostatic_displacement_length c r _ _ L HP HQ) as Hd.
  set (d := electrostatic_displacement c r
              (dict_at edge_to_control_points e1 [])
              (dict_at edge_to_control_points e2 [])) in *.
  apply KeyFacts.dict_mem_get in H1, H2.
  destruct H1 as [a Ha], H2 as [b Hb].
  assert (Hla : List.length a = L)
    by exact (EntryFacts.entries_get _ _ _ _ Hout Ha).
  assert (Hlb : List.length b = L)
    by exact (EntryFacts.entries_get _ _ _ _ Hout Hb).
  assert (Hd' : List.length (if r then rev d else d) = L)
    by (destruct r; now rewrite ?length_rev).
  assert (Hb1 : dict_get edge_eqb
                  (dict_set edge_eqb out e1 (map2 vadd a d)) e2 = Some b).
  { rewrite (dict_get_set_other edge_eqb edge_eqb_eq); [ exact Hb | ].
    intros E. now apply Hne. }
  assert (Ea : dict_at out e1 [] = a) by (unfold dict_at; now rewrite Ha).
  assert (Eb : dict_at (dict_set edge_eqb out e1 (map2 vadd a d)) e2 [] = b)
    by (unfold dict_at; now rewrite Hb1).
  change (step out (e1, e2, c, r))
    with (dict_set edge_eqb
            (dict_set edge_eqb out e1 (map2 vadd (dict_at out e1 []) d)) e2
            (map2 vsub
               (dict_at
                  (dict_set edge_eqb out e1
                     (map2 vadd (dict_at out e1 []) d)) e2 [])
               (if r then rev d else d))).
  rewrite Ea, Eb.
  split; [ | split ].
  - apply EntryFacts.entries_set; [ apply EntryFacts.entries_set | ].
    + exact Hout.
    + rewrite ChainFacts.map2_length, Hla, Hd. apply Nat.min_id.
    + rewrite ChainFacts.map2_length, Hlb, Hd'. apply Nat.min_id.
  - intros k. rewrite !KeyFacts.dict_mem_set_edge.
    destruct (edge_eqb k e2) eqn:E2; cbn [orb].
    + apply edge_eqb_eq in E2. subst k. symmetry.
      apply KeyFacts.dict_mem_get. eauto.
    + destruct (edge_eqb k e1) eqn:E1; cbn [orb]; [ | reflexivity ].
      apply edge_eqb_eq in E1. subst k. symmetry.
      apply KeyFacts.dict_mem_get. eauto.
  - rewrite (total_force_set _ e2 b) by exact Hb1.
    rewrite (total_force_set _ e1 a) by exact Ha.
    rewrite vsum_map2_vadd by congruence.
    rewrite vsum_map2_vsub by congruence.
    assert (Hs : vsum (if r then rev d else d) = vsum d)
      by (destruct r; [ apply vsum_rev | reflexivity ]).
    rewrite Hs.
    apply vec_ext; unfold vadd, vsub; cbn [fst snd]; ring.
Qed.

Lemma fold_step_total compat :
  forall out,
    (forall e1 e2 c r, In (e1, e2, c, r) compat ->
       e1 <> e2
       /\ dict_mem edge_eqb edge_to_control_points e1 = true
       /\ dict_mem edge_eqb edge_to_control_points e2 = true
       /\ dict_mem edge_eqb out e1 = true
       /\ dict_mem edge_eqb out e2 = true) ->
    chains_of_length L out ->
    total_force (fold_left step compat out) = total_force out.
Proof.
  induction compat as [ | [[[e1 e2] c] r] compat IH]; intros out Hc Hout;
    [ reflexivity | ].
  cbn [fold_left].
  destruct (Hc e1 e2 c r (or_introl eq_refl)) as [Hne [HP [HQ [H1 H2]]]].
  destruct (step_keeps out e1 e2 c r Hne HP HQ H1 H2 Hout)
    as [Hlen [Hkeys Htot]].
  rewrite IH; [ exact Htot | | exact Hlen ].
  intros e1' e2' c' r' Hin.
  destruct (Hc e1' e2' c' r' (or_intror Hin)) as [Hne' [HP' [HQ' [H1' H2']]]].
  rewrite !Hkeys. tauto.
Qed.

End Pairs.

End ForceFacts.

(** X27. The electrostatic forces that [_get_Fe] adds for a pair of
    compatible edges are equal and opposite: the sum of the forces over
    all control points of all edges is the same after [_get_Fe] as before.
    All chains and all forces have [L] points, the two edges of every pair
    are different edges that have a chain and a force, and the control
    points of the two chains that face each other do not coincide strictly
    inside the chains (the code would divide by zero there). *)
Theorem electrostatic_forces_cancel :
  forall (edge_to_control_points out : list (edge * polyline))
         (edge_compatibility : list (edge * edge * R * bool)) (L : nat),
    Notions.chains_of_length L edge_to_control_points ->
    Notions.chains_of_length L out ->
    (forall e1 e2 compatibility reverse,
       In (e1, e2, compatibility, reverse) edge_compatibility ->
       e1 <> e2
       /\ dict_mem edge_eqb edge_to_control_points e1 = true
       /\ dict_mem edge_eqb edge_to_control_points e2 = true
       /\ dict_mem edge_eqb out e1 = true
       /\ dict_mem edge_eqb out e2 = true) ->
    (forall e1 e2 compatibility reverse i,
       In (e1, e2, compatibility, reverse) edge_compatibility ->
       (0 < i < L - 1)%nat ->
       nth i (EdgeLayout.dict_at edge_to_control_points e1 []) vzero
       <> nth i (if reverse
                 then rev (EdgeLayout.dict_at edge_to_control_points e2 [])
                 else EdgeLayout.dict_at edge_to_control_points e2 [])
              vzero) ->
    Notions.total_force
      (EdgeLayout._get_Fe edge_to_control_points edge_compatibility out)
    = Notions.total_force out.
Proof.
  intros cp out compat L Hcp Hout Hpairs _.
  rewrite (ForceFacts._get_Fe_fold cp).
  now apply (ForceFacts.fold_step_total cp L Hcp).
Qed.

Lemma electrostatic_forces_witness :
  Notions.total_force
    (EdgeLayout._get_Fe
       [((0, 1)%nat, [(0, 0); (1, 0); (2, 0)]);
        ((2, 3)%nat, [(0, 1); (1, 1); (2, 1)])]
       [((0, 1)%nat, (2, 3)%nat, 1, false)]
       [((0, 1)%nat, [(0, 0); (0, 0); (0, 0)]);
        ((2, 3)%nat, [(0, 0); (0, 0); (0, 0)])])
  = Notions.total_force
      [((0, 1)%nat, [(0, 0); (0, 0); (0, 0)]);
       ((2, 3)%nat, [(0, 0); (0, 0); (0, 0)])].
Proof.
  apply (electrostatic_forces_cancel _ _ _ 3%nat).
  - repeat constructor.
  - repeat constructor.
  - intros e1 e2 c r [H | []]. inversion H; subst.
    repeat split; try reflexivity. discriminate.
  - intros e1 e2 c r i [H | []] Hi. inversion H; subst.
    assert (i = 1%nat) by lia. subst i.
    unfold EdgeLayout.dict_at; cbn. intros E. inversion E; lra.
Defined.

(** ** Self-loops in the bundled router *)

Module RegularFacts.

Import EdgeLayout Predicates.

(** The chains of [Regular.bundled_control_points] are those that the
    body of [get_bundled_edge_paths] smooths. *)
Lemma bundled_edge_paths_smooths UnivariateSpline edges node_positions k
  threshold cycles iterations step_size straighten_by :
  fst (bundled_edge_paths UnivariateSpline edges node_positions k threshold
         cycles iterations step_size straighten_by)
  = let edges0 :=
      if existsb is_selfloop edges then nonloops_of edges else edges in
    fold_left (fun d e =>
                 dict_set edge_eqb d e (rev (dict_at d (snd e, fst e) [])))
              (reverse_of edges0 (unidirectional_of edges0))
              (_smooth_edges UnivariateSpline
                 (Regular.bundled_control_points edges node_positions k
                    threshold cycles iterations step_size straighten_by)).
Proof. reflexivity. Qed.

Lemma spline_accepts_after_cycles (chain : polyline) (cycles : nat) :
  List.length chain = (2 ^ cycles + 1)%nat ->
  (Regular.spline_accepts chain = true <-> (2 <= cycles)%nat).
Proof.
  intros H. unfold Regular.spline_accepts. rewrite H, Nat.leb_le. split.
  - destruct cycles as [ | [ | cycles]]; simpl; lia.
  - intros Hc.
    assert (2 ^ 2 <= 2 ^ cycles)%nat by (apply Nat.pow_le_mono_r; lia).
    simpl in *. lia.
Qed.

(** Every chain handed to the smoothing has [2 ^ cycles + 1] points. *)
Lemma bundled_control_points_length edges node_positions k threshold cycles
  iterations step_size straighten_by e chain :
  dict_get edge_eqb
    (Regular.bundled_control_points edges node_positions k threshold cycles
       iterations step_size straighten_by) e = Some chain ->
  List.length chain = (2 ^ cycles + 1)%nat.
Proof.
  unfold Regular.bundled_control_points. cbv zeta.
  set (edges0 := unidirectional_of
                   (if existsb is_selfloop edges
                    then nonloops_of edges else edges)).
  destruct (CycleFacts.bundle_cycles_length node_positions edges0 cycles
              (_get_k edges0 node_positions k)
              (_get_edge_compatibility edges0 node_positions threshold)
              iterations step_size 2
              (_initialize_bundled_control_points edges0 node_positions))
    as [Hent _].
  - apply BundledFacts._get_edge_compatibility_edges.
  - lia.
  - apply ChainFacts._initialize_bundled_control_points_ok.
  - replace (2 ^ cycles * (2 - 1) + 1)%nat with (2 ^ cycles + 1)%nat
      in Hent by lia.
    assert (Hlen : entries_satisfy
                     (fun _ c => List.length c = (2 ^ cycles + 1)%nat)
                     (bundle_cycles cycles (_get_k edges0 node_positions k)
                        (_get_edge_compatibility edges0 node_positions
                           threshold)
                        iterations step_size
                        (_initialize_bundled_control_points edges0
                           node_positions))).
    { eapply EntryFacts.entries_weaken; [ | exact Hent ].
      intros k0 v [Hl _]. exact Hl. }
    destruct (Rlt_dec 0 straighten_by).
    + intros H. unfold _straighten_edges in H.
      refine (EntryFacts.entries_get
                (fun _ c => List.length c = (2 ^ cycles + 1)%nat) _ _ _ _ H).
      apply (EntryFacts.entries_map_values
               (fun _ c => List.length c = (2 ^ cycles + 1)%nat)
               (fun _ c => List.length c = (2 ^ cycles + 1)%nat)
               (fun kv => _straighten_path (snd kv) straighten_by));
        [ | exact Hlen ].
      intros k0 v Hv. cbn [snd].
      now rewrite StraightenFacts._straighten_path_length.
    + intros H. exact (EntryFacts.entries_get _ _ _ _ Hlen H).
Qed.

(** Without compatible pairs every run is regular. *)
Lemma iterations_regular_without_pairs n edge_to_k step_size cp :
  Regular.iterations_regular n edge_to_k [] step_size cp.
Proof.
  revert cp. induction n as [ | n IH]; intros cp; [ exact I | ].
  split; [ | apply IH ].
  intros e1 e2 c r i [].
Qed.

Lemma cycles_regular_without_pairs cycles edge_to_k n step_size cp :
  Regular.cycles_regular cycles edge_to_k [] n step_size cp.
Proof.
  revert n step_size cp.
  induction cycles as [ | cycles IH]; intros n step_size cp; [ exact I | ].
  split; [ apply iterations_regular_without_pairs | apply IH ].
Qed.

End RegularFacts.

(** C5, as the code has it.  With a self-loop in the edge list (and every
    edge within one connected component, as the components of a graph
    are), the bundled router issues its warning and leaves the self-loops
    out of the returned paths, and it returns a path for every other edge
    in the runs that end: those of two cycles at least in which nothing is
    divided by zero.  The chains that it smooths have
    [2 ^ total_cycles + 1] points, which the spline fit takes for two
    cycles at least only.  The straight router of [_main.py] leaves the
    self-loops out and warns, for every edge list.  The straight router of
    [_edge_layout.py] does not: whenever it returns, every edge of the
    list, self-loops included, has a path, and no warning was issued. *)
Theorem selfloops_in_bundled_and_straight_routing :
  (forall (_edge_list_to_adjacency_list : list edge -> bool -> EdgeLayout.adjacency)
          (_get_connected_components : EdgeLayout.adjacency -> list (list node))
          (UnivariateSpline : list R -> list R -> nat -> R -> R -> R)
          edges node_positions k compatibility_threshold total_cycles
          total_iterations step_size straighten_by,
      existsb EdgeLayout.is_selfloop edges = true ->
      (forall e, In e edges ->
                 exists c,
                   In c (_get_connected_components
                           (_edge_list_to_adjacency_list edges false))
                   /\ In (fst e) c /\ In (snd e) c) ->
      (2 <= total_cycles)%nat ->
      (forall routed,
          In routed (Regular.routed_edge_lists _edge_list_to_adjacency_list
                       _get_connected_components edges) ->
          Regular.bundling_is_regular routed node_positions k
            compatibility_threshold total_cycles total_iterations step_size) ->
      let r :=
        EdgeLayout.get_bundled_edge_paths _edge_list_to_adjacency_list
          _get_connected_components UnivariateSpline edges node_positions
          k compatibility_threshold total_cycles total_iterations step_size
          straighten_by in
      (forall e, In e edges -> EdgeLayout.is_selfloop e = true ->
                 dict_get edge_eqb (fst r) e = None)
      /\ In EdgeLayout.SelfloopBundlingUnsupported (snd r)
      /\ (forall e, In e edges -> EdgeLayout.is_selfloop e = false ->
                    exists p, dict_get edge_eqb (fst r) e = Some p))
  /\ (forall edges node_positions k compatibility_threshold total_cycles
             total_iterations step_size straighten_by e chain,
         dict_get edge_eqb
           (Regular.bundled_control_points edges node_positions k
              compatibility_threshold total_cycles total_iterations
              step_size straighten_by) e = Some chain ->
         length chain = (2 ^ total_cycles + 1)%nat
         /\ (Regular.spline_accepts chain = true <-> (2 <= total_cycles)%nat))
  /\ (forall edge_list node_positions edge_width,
         let r :=
           Main._get_straight_edge_paths edge_list node_positions edge_width in
         (forall e, In e edge_list -> Nat.eqb (fst e) (snd e) = true ->
                    dict_get edge_eqb (fst r) e = None
                    /\ In (Main.SelfloopIgnored e) (snd r))
         /\ (forall e, In e edge_list -> Nat.eqb (fst e) (snd e) = false ->
                       exists p, dict_get edge_eqb (fst r) e = Some p))
  /\ (forall _get_unit_vector _get_angle _get_n_points_on_a_circle
             _resample_spline _get_optimal_offsets _normalize_numeric_argument
             edges node_positions selfloop_radius selfloop_angle r,
         EdgeLayout.get_straight_edge_paths _get_unit_vector _get_angle
           _get_n_points_on_a_circle _resample_spline _get_optimal_offsets
           _normalize_numeric_argument edges node_positions selfloop_radius
           selfloop_angle = Some r ->
         (forall e, In e edges ->
                    exists p, dict_get edge_eqb (fst r) e = Some p)
         /\ snd r = []).
Proof.
  split; [ | split; [ | split ] ].
  - intros adj comps spline edges node_positions k th cycles iters step
           straighten Hloop Hcover _ _.
    exact (ComponentFacts.bundled_drops_selfloops adj comps spline edges
             node_positions k th cycles iters step straighten Hloop Hcover).
  - intros edges node_positions k th cycles iters step straighten e chain H.
    pose proof (RegularFacts.bundled_control_points_length _ _ _ _ _ _ _ _ _ _
                  H) as Hl.
    split; [ exact Hl | ].
    now apply RegularFacts.spline_accepts_after_cycles.
  - intros edge_list node_positions edge_width.
    exact (StraightFacts.main_straight_drops_selfloops edge_list
             node_positions edge_width).
  - intros uv ang circ res opt nrm edges node_positions radius angle r H.
    exact (EdgeLayoutStraightFacts.straight_routes_every_edge uv ang circ res
             opt nrm edges node_positions radius angle r H).
Qed.

Lemma selfloops_in_bundled_routing_witness :
  existsb EdgeLayout.is_selfloop [(0, 1); (1, 1)]%nat = true
  /\ (2 <= 6)%nat
  /\ dict_get edge_eqb
       (fst (EdgeLayout.get_bundled_edge_paths
               UtilsModel.edge_list_to_adjacency_list
               UtilsModel.get_connected_components UtilsModel.chord
               [(0, 1); (1, 1)]%nat
               (fun n => if Nat.eqb n 0 then (0, 0) else (1, 0))
               500 0.05 6 50 0.04 0))
       (1, 1)%nat = None
  /\ In EdgeLayout.SelfloopBundlingUnsupported
       (snd (EdgeLayout.get_bundled_edge_paths
               UtilsModel.edge_list_to_adjacency_list
               UtilsModel.get_connected_components UtilsModel.chord
               [(0, 1); (1, 1)]%nat
               (fun n => if Nat.eqb n 0 then (0, 0) else (1, 0))
               500 0.05 6 50 0.04 0)).
Proof.
  assert (Hloop : existsb EdgeLayout.is_selfloop [(0, 1); (1, 1)]%nat = true)
    by reflexivity.
  assert (Hcover : forall e, In e [(0, 1); (1, 1)]%nat ->
                     exists c,
                       In c (UtilsModel.get_connected_components
                               (UtilsModel.edge_list_to_adjacency_list
                                  [(0, 1); (1, 1)]%nat false))
                       /\ In (fst e) c /\ In (snd e) c).
  { intros e He. exists [0; 1]%nat. split; [ now left | ].
    destruct He as [<- | [<- | []]]; simpl; auto. }
  assert (Hcycles : (2 <= 6)%nat) by lia.
  assert (Hregular :
            forall routed,
              In routed (Regular.routed_edge_lists
                           UtilsModel.edge_list_to_adjacency_list
                           UtilsModel.get_connected_components
                           [(0, 1); (1, 1)]%nat) ->
              Regular.bundling_is_regular routed
                (fun n => if Nat.eqb n 0 then (0, 0) else (1, 0))
                500 0.05 6 50 0.04).
  { intros routed Hin.
    replace (Regular.routed_edge_lists
               UtilsModel.edge_list_to_adjacency_list
               UtilsModel.get_connected_components [(0, 1); (1, 1)]%nat)
      with [[(0, 1); (1, 1)]%nat] in Hin by reflexivity.
    destruct Hin as [<- | []].
    unfold Regular.bundling_is_regular.
    replace (EdgeLayout.unidirectional_of
               (if existsb EdgeLayout.is_selfloop [(0, 1); (1, 1)]%nat
                then EdgeLayout.nonloops_of [(0, 1); (1, 1)]%nat
                else [(0, 1); (1, 1)]%nat))
      with [(0, 1)%nat] by reflexivity.
    cbv zeta. split; [ | split ].
    - intros e [<- | []]. cbn. intros E. inversion E. lra.
    - lra.
    - replace (EdgeLayout._get_edge_compatibility [(0, 1)%nat]
                 (fun n => if Nat.eqb n 0 then (0, 0) else (1, 0)) 0.05)
        with (@nil (edge * edge * R * bool)) by reflexivity.
      apply RegularFacts.cycles_regular_without_pairs. }
  split; [ exact Hloop | ]. split; [ exact Hcycles | ].
  destruct (proj1 selfloops_in_bundled_and_straight_routing
              UtilsModel.edge_list_to_adjacency_list
              UtilsModel.get_connected_components UtilsModel.chord
              [(0, 1); (1, 1)]%nat
              (fun n => if Nat.eqb n 0 then (0, 0) else (1, 0))
              500 0.05 6%nat 50%nat 0.04 0 Hloop Hcover Hcycles Hregular)
    as [H1 [H2 _]].
  split; [ | exact H2 ].
  apply H1; [ right; now left | reflexivity ].
Defined.
